(** * Kerr black-hole numerics: ISCO radii and photon-orbit shadows

    A shallow embedding of [src/physics/isco.py] and [src/physics/shadow.py].
    Of their callers in [src/cli] and [src/viz], the spin grids handed to
    these functions are covered through [np.linspace]; argument parsing,
    formatting, plotting and file output are not modelled.

    Number model.  A Python [float] / NumPy [float64] is modelled by a real
    number of [R]: arithmetic is exact, and the two special values the code
    tests for are made explicit where the code produces them, [NaN] through
    the type [fl] below and exceptions through [result].  Rounding, overflow
    and signed zeros are outside this model. *)

From Stdlib Require Import Reals Lra Lia ZArith List Bool Psatz.
From Stdlib Require Import Permutation Sorted.
Import ListNotations.
Local Open Scope R_scope.

(** ** Python exceptions and fallible computations *)

Inductive exn : Type :=
| ValueError
| RuntimeError
| TypeError
| ZeroDivisionError.

Inductive result (A : Type) : Type :=
| Ok (x : A)
| Raise (e : exn).

Arguments Ok {A} x.
Arguments Raise {A} e.

Definition bind {A B : Type} (c : result A) (k : A -> result B) : result B :=
  match c with
  | Ok x => k x
  | Raise e => Raise e
  end.

Notation "x <- c ;; k" := (bind c (fun x => k))
  (at level 61, c at next level, right associativity).
Notation "' pat <- c ;; k" := (bind c (fun x => match x with pat => k end))
  (at level 61, pat pattern, c at next level, right associativity).

Definition raises {A : Type} (c : result A) : Prop :=
  exists e, c = Raise e.

(** A float that may be the NaN sentinel. *)
Inductive fl : Type :=
| NaN
| Fin (x : R).

(** Division of two Python floats: a zero divisor raises.  (On NumPy scalars
    the same division yields inf or nan instead; the lemmas below show that
    no divisor of the modelled code is zero, so the two readings agree.) *)
Definition py_div (x y : R) : result R :=
  if Req_dec_T y 0 then Raise ZeroDivisionError else Ok (x / y).

(** Comparisons of floats as the booleans [np.any] folds over. *)
Definition Rgeb (x y : R) : bool := if Rge_dec x y then true else false.
Definition Rleb (x y : R) : bool := if Rle_dec x y then true else false.

(** ** The NumPy functions the code calls *)

Module np.

Definition deg2rad (x : R) : R := x * (PI / 180).

Definition sign (x : R) : R :=
  if Rlt_dec x 0 then -1 else if Rlt_dec 0 x then 1 else 0.

(** [np.cbrt]: the real cube root, odd in its argument. *)
Definition cbrt (x : R) : R :=
  if Rlt_dec 0 x then Rpower x (/ 3)
  else if Rlt_dec x 0 then - Rpower (- x) (/ 3)
  else 0.

(** [np.sqrt] on a scalar: NaN below zero. *)
Definition sqrt_fl (x : R) : fl :=
  if Rlt_dec x 0 then NaN else Fin (sqrt x).

(** [np.arctan2 y x], the polar angle of the point [(x, y)] in (-pi, pi]. *)
Definition arctan2 (y x : R) : R :=
  if Rlt_dec 0 x then atan (y / x)
  else if Rlt_dec x 0 then
    (if Rle_dec 0 y then atan (y / x) + PI else atan (y / x) - PI)
  else if Rlt_dec 0 y then PI / 2
  else if Rlt_dec y 0 then - (PI / 2)
  else 0.

(** [np.linspace start stop num endpoint]: [num] evenly spaced samples,
    [k * step + start] with [step = (stop - start) / div], where [div] is
    [num - 1] with the end point and [num] without.  With [div = 0] NumPy
    multiplies by [stop - start] instead (the only index is then 0), and a
    negative [num] is refused.  With the end point NumPy also stores [stop]
    in the last place; in exact arithmetic that is the value already there
    ([linspace_last]). *)
Definition linspace (start stop : R) (num : Z) (endpoint : bool)
  : result (list R) :=
  if (num <? 0)%Z then Raise ValueError else
  let num := Z.to_nat num in
  let div := if endpoint then (num - 1)%nat else num in
  let delta := stop - start in
  let step := if Nat.ltb 0 div then delta / INR div else delta in
  Ok (map (fun k => INR k * step + start) (seq 0 num)).

(** *** Arrays

    An [ndarray] is its shape and its entries in row-major order.  A Python
    float handed to [np.asarray] is the 0-d array [scalar x]; the model does
    not tell a 0-d array from the NumPy scalar that arithmetic on it yields. *)

Record ndarray : Type := mk { shape : list nat; data : list R }.

Definition size (s : list nat) : nat := fold_right Nat.mul 1%nat s.

Definition wf (x : ndarray) : Prop := length (data x) = size (shape x).

Definition scalar (x : R) : ndarray := mk [] [x].

(** A unary ufunc, and a binary one with a Python float on one side. *)
Definition map1 (f : R -> R) (x : ndarray) : ndarray :=
  mk (shape x) (map f (data x)).

Definition any (p : R -> bool) (x : ndarray) : bool := existsb p (data x).

(** [float(x)]: only an array of one entry converts. *)
Definition to_float (x : ndarray) : result R :=
  match data x with
  | [v] => Ok v
  | _ => Raise TypeError
  end.

Definition zipw (f : R -> R -> R) (l1 l2 : list R) : list R :=
  map (fun p => f (fst p) (snd p)) (combine l1 l2).

(** [n] consecutive rows of [k] entries each. *)
Fixpoint chunks (k n : nat) (l : list R) : list (list R) :=
  match n with
  | O => []
  | S n' => firstn k l :: chunks k n' (skipn k l)
  end.

Definition pad (r : nat) (s : list nat) : list nat :=
  repeat 1%nat (r - length s) ++ s.

(** Broadcasting of two shapes of one rank: axis by axis the lengths agree
    or one of them is 1. *)
Fixpoint broadcast_shapes (s1 s2 : list nat) : option (list nat) :=
  match s1, s2 with
  | [], [] => Some []
  | d1 :: t1, d2 :: t2 =>
      match broadcast_shapes t1 t2 with
      | Some t =>
          if Nat.eqb d1 d2 then Some (d1 :: t)
          else if Nat.eqb d1 1 then Some (d2 :: t)
          else if Nat.eqb d2 1 then Some (d1 :: t)
          else None
      | None => None
      end
  | _, _ => None
  end.

Fixpoint bcast (f : R -> R -> R) (s1 s2 : list nat) (d1 d2 : list R)
  : list R :=
  match s1, s2 with
  | n1 :: t1, n2 :: t2 =>
      let c1 := chunks (size t1) n1 d1 in
      let c2 := chunks (size t2) n2 d2 in
      if Nat.eqb n1 n2 then
        concat (map (fun p => bcast f t1 t2 (fst p) (snd p)) (combine c1 c2))
      else if Nat.eqb n1 1 then
        concat (map (fun y => bcast f t1 t2 (hd [] c1) y) c2)
      else
        concat (map (fun x => bcast f t1 t2 x (hd [] c2)) c1)
  | _, _ =>
      match d1, d2 with
      | x :: _, y :: _ => [f x y]
      | _, _ => []
      end
  end.

(** A binary ufunc on two arrays. *)
Definition binop (f : R -> R -> R) (x y : ndarray) : result ndarray :=
  let r := Nat.max (length (shape x)) (length (shape y)) in
  let sx := pad r (shape x) in
  let sy := pad r (shape y) in
  match broadcast_shapes sx sy with
  | Some s => Ok (mk s (bcast f sx sy (data x) (data y)))
  | None => Raise ValueError
  end.

(** [np.mean] and [np.std] of a one-dimensional array, as the tests use
    them. *)
Definition mean (l : list R) : R := fold_right Rplus 0 l / INR (length l).

Definition std (l : list R) : R :=
  sqrt (mean (map (fun x => (x - mean l) ^ 2) l)).

Definition add := binop Rplus.
Definition sub := binop Rminus.
Definition mul := binop Rmult.
Definition div := binop Rdiv.

End np.

(** ** isco.py

    [np.sqrt] and [np.power] are the real [sqrt] and [Rpower] here: the code
    applies them only where its guards, or the algebra of the Bardeen
    quantities ([r_isco_radicands_nonneg]), keep the argument from being
    negative, so the NaN they would yield below zero never arises for
    |a| < 1. *)

Module Isco.

Definition _validate_spin (a : np.ndarray) : result unit :=
  if np.any (fun v => Rgeb (Rabs v) 1) a then Raise ValueError else Ok tt.

(** Intermediate quantity Z1(a) from Bardeen et al. (1972). *)
Definition z1 (a : np.ndarray) : result R :=
  let a_arr := a in
  _ <- _validate_spin a_arr ;;
  let abs_a := np.map1 Rabs a_arr in
  aa <- np.mul abs_a abs_a ;;
  let term := np.map1 np.cbrt (np.map1 (fun v => 1 - v) aa) in
  s <- np.add (np.map1 np.cbrt (np.map1 (fun v => 1 + v) abs_a))
              (np.map1 np.cbrt (np.map1 (fun v => 1 - v) abs_a)) ;;
  ts <- np.mul term s ;;
  let z1_val := np.map1 (fun v => 1 + v) ts in
  np.to_float z1_val.

(** Intermediate quantity Z2(a) from Bardeen et al. (1972). *)
Definition z2 (a : np.ndarray) : result R :=
  z1_val <- z1 a ;;
  a_val <- np.to_float a ;;
  Ok (sqrt (3 * a_val * a_val + z1_val * z1_val)).

(** Bardeen-Novikov-Thorne ISCO radius for equatorial orbits.  The value
    returned is [radius] itself: [np.isscalar] is false of every array,
    0-d ones included. *)
Definition r_isco (a : np.ndarray) (prograde : bool) : result np.ndarray :=
  let a_arr := a in
  _ <- _validate_spin a_arr ;;
  let abs_a := np.map1 Rabs a_arr in
  aa <- np.mul abs_a abs_a ;;
  let term := np.map1 np.cbrt (np.map1 (fun v => 1 - v) aa) in
  s <- np.add (np.map1 np.cbrt (np.map1 (fun v => 1 + v) abs_a))
              (np.map1 np.cbrt (np.map1 (fun v => 1 - v) abs_a)) ;;
  ts <- np.mul term s ;;
  let z1_val := np.map1 (fun v => 1 + v) ts in
  aa3 <- np.mul (np.map1 (fun v => 3 * v) abs_a) abs_a ;;
  zz <- np.mul z1_val z1_val ;;
  q <- np.add aa3 zz ;;
  let z2_val := np.map1 sqrt q in
  t1 <- np.add (np.map1 (fun v => 3 + v) z1_val)
               (np.map1 (fun v => 2 * v) z2_val) ;;
  t2 <- np.mul (np.map1 (fun v => 3 - v) z1_val) t1 ;;
  let root := np.map1 sqrt t2 in
  let sigma := if prograde then -1 else 1 in
  radius <- np.add (np.map1 (fun v => 3 + v) z2_val)
                   (np.map1 (fun v => sigma * v) root) ;;
  Ok radius.

(** Specific energy for equatorial circular geodesics. *)
Definition E_equatorial (r a : np.ndarray) (prograde : bool)
  : result np.ndarray :=
  let r_arr := r in
  let a_arr := a in
  if np.any (fun v => Rleb v 0) r_arr then Raise ValueError else
  _ <- _validate_spin a_arr ;;
  let abs_a := np.map1 Rabs a_arr in
  let a_term := if prograde then abs_a else np.map1 Ropp abs_a in
  let sqrt_r := np.map1 sqrt r_arr in
  r32 <- np.mul r_arr sqrt_r ;;
  n0 <- np.sub r32 (np.map1 (fun v => 2 * v) sqrt_r) ;;
  numerator <- np.add n0 a_term ;;
  i0 <- np.sub r32 (np.map1 (fun v => 3 * v) sqrt_r) ;;
  inner <- np.add i0 (np.map1 (fun v => 2 * v) a_term) ;;
  if np.any (fun v => Rleb v 0) inner then Raise ValueError else
  denominator <- np.mul (np.map1 (fun v => Rpower v 0.75) r_arr)
                        (np.map1 sqrt inner) ;;
  energy <- np.div numerator denominator ;;
  Ok energy.

(** Radiative efficiency eta(a) = 1 - E_ISCO. *)
Definition eta (a : np.ndarray) (prograde : bool) : result np.ndarray :=
  radii <- r_isco a prograde ;;
  energies <- E_equatorial radii a prograde ;;
  let efficiency := np.map1 (fun v => 1 - v) energies in
  Ok efficiency.

End Isco.

(** ** shadow.py *)

Module Shadow.

Definition _FACEON_TOL : R := 1.0e-6.

(** Outer horizon radius r_plus = 1 + sqrt(1 - a^2). *)
Definition horizon_radius (a : R) : result R :=
  if Rge_dec (Rabs a) 1 then Raise ValueError
  else Ok (1 + sqrt (1 - a * a)).

(** Constants of motion (xi, eta) for spherical photon orbits. *)
Definition xi_eta_spherical (r a : R) : result (R * R) :=
  if Rlt_dec (Rabs a) 1.0e-12 then Raise ValueError else
  h <- horizon_radius a ;;
  if Rle_dec r h then Raise ValueError else
  let Delta := r * r - 2 * r + a * a in
  let Delta_p := 2 * r - 2 in
  if Rlt_dec (Rabs Delta_p) 1.0e-12 then Raise ValueError else
  A <- py_div (4 * r * Delta) Delta_p ;;
  xi <- py_div ((r * r + a * a) * Delta_p - 4 * r * Delta) (a * Delta_p) ;;
  B <- py_div (A * A) Delta ;;
  let eta := B - (xi - a) * (xi - a) in
  Ok (xi, eta).

(** Project constants of motion to observer screen coordinates
    (alpha, beta). *)
Definition screen_coords (xi eta a inc_deg : R) : fl * fl :=
  let i_rad := np.deg2rad inc_deg in
  let sin_i := sin i_rad in
  let cos_i := cos i_rad in
  let sin_i :=
    if Rlt_dec (Rabs sin_i) 1.0e-15 then
      (if Req_dec_T sin_i 0 then 1.0e-15 else np.sign sin_i * 1.0e-15)
    else sin_i in
  let alpha := - xi / sin_i in
  let beta_sq :=
    eta + (a * a) * cos_i * cos_i
    - (xi * xi) * (cos_i * cos_i) / (sin_i * sin_i) in
  if Rlt_dec beta_sq 0 then (NaN, NaN)
  else (Fin alpha, Fin (sqrt beta_sq)).

(** The first loop of [_solve_face_on_radius]: xi along the grid, NaN where
    [xi_eta_spherical] raises [ValueError] (no other exception is caught). *)
Fixpoint scan_xi (a : R) (grid : list R) (xi_vals : list fl)
  : result (list fl) :=
  match grid with
  | [] => Ok xi_vals
  | r :: rest =>
      match xi_eta_spherical r a with
      | Ok (xi_val, _) => scan_xi a rest (xi_vals ++ [Fin xi_val])
      | Raise ValueError => scan_xi a rest (xi_vals ++ [NaN])
      | Raise e => Raise e
      end
  end.

(** [grid[valid]] and [xi_vals[valid]] side by side. *)
Fixpoint keep_valid (grid : list R) (xi_vals : list fl) : list (R * R) :=
  match grid, xi_vals with
  | r :: grid', Fin x :: xi_vals' => (r, x) :: keep_valid grid' xi_vals'
  | _ :: grid', NaN :: xi_vals' => keep_valid grid' xi_vals'
  | _, _ => []
  end.

(** The 80 bisection steps. *)
Fixpoint bisect (a : R) (steps : nat) (lo hi f0 f1 : R) : result R :=
  match steps with
  | O => Ok (0.5 * (lo + hi))
  | S steps' =>
      let mid := 0.5 * (lo + hi) in
      '(f_mid, _) <- xi_eta_spherical mid a ;;
      if Req_dec_T f_mid 0 then Ok mid
      else if Rlt_dec (f0 * f_mid) 0 then bisect a steps' lo mid f0 f_mid
      else bisect a steps' mid hi f_mid f1
  end.

(** The second loop: the first exact zero or sign change, in scan order. *)
Fixpoint find_bracket (a : R) (pts : list (R * R)) : result R :=
  match pts with
  | (r0, f0) :: rest =>
      match rest with
      | (r1, f1) :: _ =>
          if Req_dec_T f0 0 then Ok r0
          else if Rlt_dec (f0 * f1) 0 then bisect a 80 r0 r1 f0 f1
          else find_bracket a rest
      | [] => Raise RuntimeError
      end
  | [] => Raise RuntimeError
  end.

Definition _solve_face_on_radius (a : R) : result R :=
  h <- horizon_radius a ;;
  let r_min := h + 1.0e-6 in
  let r_max := 20 in
  grid <- np.linspace r_min r_max 2000 true ;;
  xi_vals <- scan_xi a grid [] ;;
  find_bracket a (keep_valid grid xi_vals).

Definition _face_on_boundary (a : R) (n : Z) : result (list R * list R) :=
  radius <-
    (if Rlt_dec (Rabs a) 1.0e-12 then Ok (sqrt 27)
     else
       r_face <- _solve_face_on_radius a ;;
       '(xi_val, eta_val) <- xi_eta_spherical r_face a ;;
       match np.sqrt_fl (eta_val + a * a) with
       | Fin radius => Ok radius
       | NaN => Raise RuntimeError
       end) ;;
  theta <- np.linspace 0 (2 * PI) n false ;;
  Ok (map (fun t => radius * cos t) theta, map (fun t => radius * sin t) theta).

(** The sampling loop of [shadow_boundary]: [points] is the list the loop
    appends to.  A radius is skipped when [xi_eta_spherical] raises
    [ValueError] or when either screen coordinate is NaN. *)
Fixpoint trace_points (a inc_deg : R) (r_grid : list R)
  (points : list (R * R)) : result (list (R * R)) :=
  match r_grid with
  | [] => Ok points
  | r :: rest =>
      match xi_eta_spherical r a with
      | Raise ValueError => trace_points a inc_deg rest points
      | Raise e => Raise e
      | Ok (xi, eta_val) =>
          match screen_coords xi eta_val a inc_deg with
          | (Fin alpha, Fin beta) =>
              trace_points a inc_deg rest
                (points ++ [(alpha, beta); (alpha, - beta)])
          | _ => trace_points a inc_deg rest points
          end
      end
  end.

Section Sorting.

(** [np.argsort]: the indices that sort an array.  Its default algorithm
    promises no order among equal keys, so it is left a parameter; see
    [argsort_spec] for what is assumed of it where that matters. *)
Variable argsort : list R -> list nat.

(** Lines 146-150: order the points by polar angle about the origin. *)
Definition sort_by_polar_angle (points : list (R * R)) : list R * list R :=
  let angles := map (fun p => np.arctan2 (snd p) (fst p)) points in
  let order := argsort angles in
  let pts := map (fun i => nth i points (0, 0)) order in
  (map fst pts, map snd pts).

(** Sample the spherical-photon family to trace the Kerr shadow boundary. *)
Definition shadow_boundary (a inc_deg : R) (n : Z)
  : result (list R * list R) :=
  if (n <? 100)%Z then Raise ValueError else
  if Rlt_dec (Rabs a) 1.0e-12 then
    theta <- np.linspace 0 (2 * PI) n false ;;
    let radius := sqrt 27 in
    Ok (map (fun t => radius * cos t) theta,
        map (fun t => radius * sin t) theta)
  else if Rlt_dec (Rabs (sin (np.deg2rad inc_deg))) _FACEON_TOL then
    _face_on_boundary a n
  else
    h <- horizon_radius a ;;
    let r_min := h + 1.0e-6 in
    let r_max := 20 in
    r_grid <- np.linspace r_min r_max (n / 2) true ;;
    points <- trace_points a inc_deg r_grid [] ;;
    match points with
    | [] => Ok ([], [])
    | _ => Ok (sort_by_polar_angle points)
    end.

End Sorting.

(** [np.roll x (-1)]: the first entry moves to the end. *)
Definition roll_left (x : list R) : list R :=
  match x with
  | [] => []
  | v :: rest => rest ++ [v]
  end.

(** [np.dot] of two one-dimensional arrays: the lengths must agree. *)
Definition dot (x y : list R) : result R :=
  if Nat.eqb (length x) (length y)
  then Ok (fold_right Rplus 0 (np.zipw Rmult x y))
  else Raise ValueError.

(** [np.nanmax] and [np.nanmin] of a non-empty array without NaN. *)
Definition nanmax (x : list R) : R := fold_right Rmax (hd 0 x) x.
Definition nanmin (x : list R) : R := fold_right Rmin (hd 0 x) x.

Record metrics : Type := { D_h : fl; D_v : fl; R_eq : fl }.

(** Return basic diameters and equivalent circular radius for a
    boundary.  It takes no spin. *)
Definition boundary_metrics (alpha beta : list R) : result metrics :=
  if Nat.eqb (length alpha) 0 || Nat.eqb (length beta) 0 then
    Ok {| D_h := NaN; D_v := NaN; R_eq := NaN |}
  else
    let d_h := nanmax alpha - nanmin alpha in
    let d_v := nanmax beta - nanmin beta in
    d1 <- dot alpha (roll_left beta) ;;
    d2 <- dot beta (roll_left alpha) ;;
    let area := 0.5 * Rabs (d1 - d2) in
    let r_eq := sqrt (area / PI) in
    Ok {| D_h := Fin d_h; D_v := Fin d_v; R_eq := Fin r_eq |}.

(** What a sorting [argsort] guarantees: a permutation of the indices along
    which the keys ascend. *)
Definition argsort_spec (argsort : list R -> list nat) : Prop :=
  forall keys,
    Permutation (argsort keys) (seq 0 (length keys)) /\
    StronglySorted Rle (map (fun i => nth i keys 0) (argsort keys)).

(** One sorting [argsort]: insertion into the sorted prefix. *)
Fixpoint insert_index (keys : list R) (i : nat) (order : list nat)
  : list nat :=
  match order with
  | [] => [i]
  | j :: rest =>
      if Rlt_dec (nth i keys 0) (nth j keys 0) then i :: j :: rest
      else j :: insert_index keys i rest
  end.

Definition insertion_argsort (keys : list R) : list nat :=
  fold_left (fun order i => insert_index keys i order)
            (seq 0 (length keys)) [].

End Shadow.

(** * Vocabulary of the statements *)

Import Isco Shadow.

(** The sine the projection divides by: [sin i], or a floor of magnitude
    1e-15 carrying its sign (positive at zero) when |sin i| < 1e-15. *)
Definition floored_sin (inc_deg : R) : R :=
  let s := sin (np.deg2rad inc_deg) in
  if Rlt_dec (Rabs s) 1.0e-15 then
    (if Rlt_dec s 0 then - 1.0e-15 else 1.0e-15)
  else s.

Definition beta_squared (xi eta a inc_deg : R) : R :=
  let c := cos (np.deg2rad inc_deg) in
  eta + a ^ 2 * c ^ 2 - xi ^ 2 * c ^ 2 / (floored_sin inc_deg) ^ 2.

(** Distances of the points [(alpha_k, beta_k)] from the origin. *)
Definition radii (alpha beta : list R) : list R :=
  np.zipw (fun x y => sqrt (x * x + y * y)) alpha beta.

(** The k-th of the n/2 radii [shadow_boundary] samples, from just above
    the horizon to 20. *)
Definition candidate_radius (a : R) (n : Z) (k : nat) : R :=
  let r_min := 1 + sqrt (1 - a * a) + 1.0e-6 in
  INR k * ((20 - r_min) / (IZR (n / 2) - 1)) + r_min.

(** A sampled radius contributes no point: the orbit constants fail, or
    they project to the NaN pair. *)
Definition rejected (a inc_deg r : R) : Prop :=
  raises (xi_eta_spherical r a) \/
  exists xi eta,
    xi_eta_spherical r a = Ok (xi, eta) /\
    screen_coords xi eta a inc_deg = (NaN, NaN).

Definition polar_angle (p : R * R) : R := np.arctan2 (snd p) (fst p).

(** The gathered points, before they are split into two arrays. *)
Definition sorted_points (argsort : list R -> list nat)
  (points : list (R * R)) : list (R * R) :=
  map (fun i => nth i points (0, 0)) (argsort (map polar_angle points)).

(** The closed forms, entry by entry. *)
Definition bardeen_Z1 (a : R) : R :=
  1 + np.cbrt (1 - Rabs a * Rabs a)
      * (np.cbrt (1 + Rabs a) + np.cbrt (1 - Rabs a)).

Definition bardeen_Z2 (a : R) : R :=
  sqrt (3 * Rabs a * Rabs a + bardeen_Z1 a * bardeen_Z1 a).

Definition isco_radius (prograde : bool) (a : R) : R :=
  3 + bardeen_Z2 a
  + (if prograde then -1 else 1)
    * sqrt ((3 - bardeen_Z1 a) * (3 + bardeen_Z1 a + 2 * bardeen_Z2 a)).

(** sigma_a as the code takes it: plus or minus |a|. *)
Definition spin_term (prograde : bool) (a : R) : R :=
  if prograde then Rabs a else - Rabs a.

Definition orbit_inner (r a_term : R) : R :=
  r * sqrt r - 3 * sqrt r + 2 * a_term.

Definition orbit_energy (r a_term : R) : R :=
  (r * sqrt r - 2 * sqrt r + a_term)
  / (Rpower r 0.75 * sqrt (orbit_inner r a_term)).

(** The ISCO condition in x = sqrt r: x^4 - 6 x^2 +- 8 a x - 3 a^2 = 0,
    upper sign prograde. *)
Definition quartic_pro (x a : R) : R :=
  x * x * x * x - 6 * (x * x) + 8 * a * x - 3 * (a * a).

Definition quartic_retro (x a : R) : R :=
  x * x * x * x - 6 * (x * x) - 8 * a * x - 3 * (a * a).

(** sigma_a as the specification words it: plus or minus a. *)
Definition claimed_sigma (prograde : bool) (a : R) : R :=
  if prograde then a else - a.

(** An array with an entry of modulus 1 or more. *)
Definition has_invalid_spin (a : np.ndarray) : Prop :=
  exists v, In v (np.data a) /\ Rabs v >= 1.

(** eta(a) = 1 - E(r_isco(a), a), entry by entry. *)
Definition efficiency (prograde : bool) (a : R) : R :=
  1 - orbit_energy (isco_radius prograde a) (spin_term prograde a).


(** The orbit constants [xi_eta_spherical] computes past its guards. *)
Definition xi_of (r a : R) : R :=
  ((r * r + a * a) * (2 * r - 2) - 4 * r * (r * r - 2 * r + a * a))
  / (a * (2 * r - 2)).

Definition eta_of (r a : R) : R :=
  4 * r * (r * r - 2 * r + a * a) / (2 * r - 2)
  * (4 * r * (r * r - 2 * r + a * a) / (2 * r - 2))
  / (r * r - 2 * r + a * a)
  - (xi_of r a - a) * (xi_of r a - a).

(** r^3 - 3 r^2 + a^2 r + a^2: xi is minus this over a (r - 1), so the
    face-on orbit is where it vanishes. *)
Definition photon_cubic (r a : R) : R :=
  r * r * r - 3 * (r * r) + a * a * r + a * a.

(** Reflection of a screen point in the beta axis, and in the alpha axis. *)
Definition mirror_alpha (p : R * R) : R * R := (- fst p, snd p).
Definition mirror_beta (p : R * R) : R * R := (fst p, - snd p).

(** The samples of [_solve_face_on_radius] and their spacing. *)
Definition face_on_step (a : R) : R :=
  (20 - (1 + sqrt (1 - a * a) + 1.0e-6)) / (IZR 2000 - 1).

Definition face_on_grid (a : R) : list R :=
  map (fun k => INR k * face_on_step a + (1 + sqrt (1 - a * a) + 1.0e-6))
      (seq 0 (Z.to_nat 2000)).

(** What one sampled radius adds to the boundary: the point and its
    reflection, or nothing. *)
Definition accepted (a inc_deg r : R) : list (R * R) :=
  match xi_eta_spherical r a with
  | Ok (xi, eta_val) =>
      match screen_coords xi eta_val a inc_deg with
      | (Fin alpha, Fin beta) => [(alpha, beta); (alpha, - beta)]
      | _ => []
      end
  | Raise _ => []
  end.

(** Negation of a float that may be NaN. *)
Definition fl_opp (v : fl) : fl :=
  match v with
  | NaN => NaN
  | Fin x => Fin (- x)
  end.

(** * Properties *)

Section ShadowScalar.

Lemma horizon_radius_ok (a : R) :
  Rabs a < 1 -> horizon_radius a = Ok (1 + sqrt (1 - a * a)).
Proof.
  intros Ha. unfold horizon_radius.
  destruct (Rge_dec (Rabs a) 1) as [H|H]; [lra|].
  reflexivity.
Qed.

Lemma horizon_radius_raises (a : R) :
  Rabs a >= 1 -> horizon_radius a = Raise ValueError.
Proof.
  intros Ha. unfold horizon_radius.
  destruct (Rge_dec (Rabs a) 1) as [H|H]; [reflexivity|lra].
Qed.

Lemma sq_lt_1_of_abs (a : R) : Rabs a < 1 -> a * a < 1.
Proof. intros H. apply Rabs_def2 in H. nra. Qed.

(** Above the horizon the discriminant [Delta] is positive. *)
Lemma Delta_pos_above_horizon (r a : R) :
  Rabs a < 1 -> 1 + sqrt (1 - a * a) < r -> 0 < r * r - 2 * r + a * a.
Proof.
  intros Ha Hr.
  pose proof (sq_lt_1_of_abs a Ha) as Ha2.
  assert (Hs : sqrt (1 - a * a) * sqrt (1 - a * a) = 1 - a * a)
    by (apply sqrt_sqrt; lra).
  pose proof (sqrt_pos (1 - a * a)) as Hp.
  nra.
Qed.

Lemma py_div_ok (x y : R) : y <> 0 -> py_div x y = Ok (x / y).
Proof.
  intros Hy. unfold py_div.
  destruct (Req_dec_T y 0); [contradiction|reflexivity].
Qed.

End ShadowScalar.

Section ShadowOrbitConstants.

(** The three divisors of [xi_eta_spherical] are nonzero past its guards. *)
Lemma xi_eta_divisors_nonzero (r a : R) :
  1.0e-12 <= Rabs a < 1 ->
  1 + sqrt (1 - a * a) < r ->
  1.0e-12 <= Rabs (2 * r - 2) ->
  2 * r - 2 <> 0 /\ a * (2 * r - 2) <> 0 /\ r * r - 2 * r + a * a <> 0.
Proof.
  intros [Ha0 Ha1] Hr Hd.
  pose proof (Delta_pos_above_horizon r a Ha1 Hr) as HD.
  assert (Hp : 2 * r - 2 <> 0).
  { intros E. rewrite E, Rabs_R0 in Hd. lra. }
  assert (Hz : a <> 0).
  { intros E. rewrite E, Rabs_R0 in Ha0. lra. }
  repeat split; try lra.
  apply Rmult_integral_contrapositive_currified; assumption.
Qed.

Lemma xi_eta_small_spin (r a : R) :
  Rabs a < 1.0e-12 -> xi_eta_spherical r a = Raise ValueError.
Proof.
  intros H. unfold xi_eta_spherical.
  destruct (Rlt_dec (Rabs a) 1.0e-12); [reflexivity|contradiction].
Qed.

Lemma xi_eta_rejects (r a : R) :
  Rabs a < 1 ->
  r <= 1 + sqrt (1 - a * a) \/ Rabs (2 * r - 2) < 1.0e-12 ->
  xi_eta_spherical r a = Raise ValueError.
Proof.
  intros Ha Hc. unfold xi_eta_spherical.
  destruct (Rlt_dec (Rabs a) 1.0e-12) as [?|_]; [reflexivity|].
  rewrite (horizon_radius_ok a Ha); cbn [bind].
  destruct (Rle_dec r _) as [?|Hr]; [reflexivity|].
  destruct Hc as [Hc|Hc]; [contradiction|].
  destruct (Rlt_dec (Rabs (2 * r - 2)) 1.0e-12) as [?|Hd];
    [reflexivity|contradiction].
Qed.

Lemma xi_eta_value (r a : R) :
  1.0e-12 <= Rabs a < 1 ->
  1 + sqrt (1 - a * a) < r ->
  1.0e-12 <= Rabs (2 * r - 2) ->
  let Delta := r * r - 2 * r + a * a in
  let Delta' := 2 * r - 2 in
  let xi := ((r * r + a * a) * Delta' - 4 * r * Delta) / (a * Delta') in
  xi_eta_spherical r a =
    Ok (xi, 4 * r * Delta / Delta' * (4 * r * Delta / Delta') / Delta
            - (xi - a) * (xi - a)).
Proof.
  intros [Ha0 Ha1] Hr Hd. cbv zeta.
  destruct (xi_eta_divisors_nonzero r a (conj Ha0 Ha1) Hr Hd)
    as (Hp & Hap & HD).
  unfold xi_eta_spherical.
  destruct (Rlt_dec (Rabs a) 1.0e-12) as [?|_]; [lra|].
  rewrite (horizon_radius_ok a Ha1); cbn [bind].
  destruct (Rle_dec r _) as [?|_]; [lra|].
  destruct (Rlt_dec (Rabs (2 * r - 2)) 1.0e-12) as [?|_]; [lra|].
  repeat (rewrite py_div_ok by assumption; cbn [bind]).
  reflexivity.
Qed.

(** With a spin the function accepts, every exception it raises is a
    [ValueError]: no division fails. *)
Lemma xi_eta_raises_value_error (r a : R) :
  Rabs a < 1 ->
  raises (xi_eta_spherical r a) -> xi_eta_spherical r a = Raise ValueError.
Proof.
  intros Ha [e He].
  destruct (Rlt_dec (Rabs a) 1.0e-12) as [H0|H0];
    [apply xi_eta_small_spin; assumption|].
  destruct (Rle_dec r (1 + sqrt (1 - a * a))) as [Hr|Hr];
    [apply xi_eta_rejects; auto|].
  destruct (Rlt_dec (Rabs (2 * r - 2)) 1.0e-12) as [Hd|Hd];
    [apply xi_eta_rejects; auto|].
  rewrite xi_eta_value in He; try lra. discriminate.
Qed.


End ShadowOrbitConstants.

Section ShadowOrbitConstantsExamples.




End ShadowOrbitConstantsExamples.

Section ShadowProjection.

Lemma floored_sin_nonzero (inc_deg : R) : floored_sin inc_deg <> 0.
Proof.
  unfold floored_sin. cbv zeta.
  destruct (Rlt_dec (Rabs (sin (np.deg2rad inc_deg))) 1.0e-15) as [H|H].
  - destruct (Rlt_dec (sin (np.deg2rad inc_deg)) 0); lra.
  - intros E. rewrite E, Rabs_R0 in H. lra.
Qed.

Lemma screen_coords_unfold (xi eta a inc_deg : R) :
  screen_coords xi eta a inc_deg =
  if Rlt_dec (beta_squared xi eta a inc_deg) 0 then (NaN, NaN)
  else (Fin (- xi / floored_sin inc_deg),
        Fin (sqrt (beta_squared xi eta a inc_deg))).
Proof.
  unfold screen_coords, beta_squared, floored_sin. cbv zeta.
  set (s := sin (np.deg2rad inc_deg)). set (c := cos (np.deg2rad inc_deg)).
  assert (Hs : (if Rlt_dec (Rabs s) 1.0e-15
                then if Req_dec_T s 0 then 1.0e-15 else np.sign s * 1.0e-15
                else s) =
               (if Rlt_dec (Rabs s) 1.0e-15
                then if Rlt_dec s 0 then - 1.0e-15 else 1.0e-15
                else s)).
  { destruct (Rlt_dec (Rabs s) 1.0e-15) as [H|H]; [|reflexivity].
    unfold np.sign.
    destruct (Req_dec_T s 0) as [E|E]; destruct (Rlt_dec s 0) as [L|L];
      try lra.
    destruct (Rlt_dec 0 s); lra. }
  rewrite Hs. cbn [pow]. rewrite !Rmult_1_r.
  replace (a * a * c * c) with (a * a * (c * c)) by ring.
  reflexivity.
Qed.

(** C8. [screen_coords] never raises; it returns the pair (NaN, NaN)
    exactly when beta^2 = eta + a^2 cos^2 i - xi^2 cos^2 i / sin^2 i is
    negative, and (-xi / sin i, sqrt(beta^2)) otherwise, where [sin i] is
    replaced by a signed floor of 1e-15 when |sin i| < 1e-15 (so the
    divisor is never zero). *)
Theorem screen_coords_spec (xi eta a inc_deg : R) :
  let sin_i := sin (np.deg2rad inc_deg) in
  let s := floored_sin inc_deg in
  let beta_sq := beta_squared xi eta a inc_deg in
  s <> 0 /\
  (Rabs sin_i >= 1.0e-15 -> s = sin_i) /\
  (- 1.0e-15 < sin_i < 0 -> s = - 1.0e-15) /\
  (0 <= sin_i < 1.0e-15 -> s = 1.0e-15) /\
  (beta_sq < 0 -> screen_coords xi eta a inc_deg = (NaN, NaN)) /\
  (0 <= beta_sq ->
     screen_coords xi eta a inc_deg = (Fin (- xi / s), Fin (sqrt beta_sq))) /\
  (screen_coords xi eta a inc_deg = (NaN, NaN) <-> beta_sq < 0).
Proof.
  intros sin_i s beta_sq.
  split; [apply floored_sin_nonzero|].
  assert (Hfloor : (Rabs sin_i >= 1.0e-15 -> s = sin_i) /\
                   (- 1.0e-15 < sin_i < 0 -> s = - 1.0e-15) /\
                   (0 <= sin_i < 1.0e-15 -> s = 1.0e-15)).
  { unfold s, floored_sin. cbv zeta. fold sin_i.
    destruct (Rlt_dec (Rabs sin_i) 1.0e-15) as [H|H].
    - split; [lra|].
      destruct (Rlt_dec sin_i 0); split; intros; lra || reflexivity.
    - split; [reflexivity|]. apply Rnot_lt_le in H.
      split; intros [H1 H2]; exfalso.
      + rewrite Rabs_left in H by lra. lra.
      + rewrite Rabs_pos_eq in H by lra. lra. }
  destruct Hfloor as (F1 & F2 & F3).
  split; [exact F1|]. split; [exact F2|]. split; [exact F3|].
  rewrite screen_coords_unfold. fold beta_sq. fold s.
  destruct (Rlt_dec beta_sq 0) as [H|H].
  - repeat split; auto; intros; lra.
  - split; [intros; lra|]. split; [reflexivity|].
    split; [discriminate|intros; lra].
Qed.

End ShadowProjection.

Section ShadowSchwarzschild.

Lemma linspace_ok (start stop : R) (num : Z) (endpoint : bool) :
  (0 <= num)%Z ->
  exists step,
    np.linspace start stop num endpoint =
      Ok (map (fun k => INR k * step + start) (seq 0 (Z.to_nat num))) /\
    (endpoint = false -> (0 < num)%Z -> step = (stop - start) / IZR num) /\
    (endpoint = true -> (1 < num)%Z -> step = (stop - start) / (IZR num - 1)).
Proof.
  intros Hn. unfold np.linspace.
  destruct (Z.ltb_spec num 0) as [H|_]; [lia|].
  eexists. split; [reflexivity|]. split; intros -> Hpos.
  - destruct (Nat.ltb_spec 0 (Z.to_nat num)) as [_|H]; [|lia].
    rewrite INR_IZR_INZ, Z2Nat.id by lia. reflexivity.
  - destruct (Nat.ltb_spec 0 (Z.to_nat num - 1)) as [_|H]; [|lia].
    rewrite minus_INR by lia.
    rewrite INR_IZR_INZ, Z2Nat.id by lia. reflexivity.
Qed.

Lemma nth_map_any {A B : Type} (f : A -> B) (l : list A) (k : nat)
  (d : B) (d' : A) :
  (k < length l)%nat -> nth k (map f l) d = f (nth k l d').
Proof.
  revert k. induction l as [|x l IH]; intros k Hk; simpl in *; [lia|].
  destruct k; [reflexivity|]. apply IH. lia.
Qed.

Lemma nth_map_seq {B : Type} (f : nat -> B) (n k : nat) (d : B) :
  (k < n)%nat -> nth k (map f (seq 0 n)) d = f k.
Proof.
  intros Hk. rewrite (nth_map_any f _ k d 0%nat) by (rewrite length_seq; lia).
  rewrite seq_nth by lia. reflexivity.
Qed.

Lemma sum_constant (c : R) (l : list R) :
  Forall (fun x => x = c) l -> fold_right Rplus 0 l = INR (length l) * c.
Proof.
  induction 1 as [|x l Hx _ IH].
  - simpl. ring.
  - cbn [fold_right length]. rewrite IH, S_INR, Hx. ring.
Qed.

Lemma mean_constant (c : R) (l : list R) :
  l <> [] -> Forall (fun x => x = c) l -> np.mean l = c.
Proof.
  intros Hne Hc. unfold np.mean. rewrite (sum_constant c l Hc).
  assert (0 < INR (length l)).
  { apply lt_0_INR. destruct l; [contradiction|simpl; lia]. }
  field. lra.
Qed.

Lemma std_constant (c : R) (l : list R) :
  l <> [] -> Forall (fun x => x = c) l -> np.std l = 0.
Proof.
  intros Hne Hc. unfold np.std.
  rewrite (mean_constant c l Hne Hc).
  rewrite (mean_constant 0).
  - apply sqrt_0.
  - destruct l; [contradiction|discriminate].
  - apply Forall_map. eapply Forall_impl; [|exact Hc].
    intros x ->. ring.
Qed.

Lemma circle_radii (rho : R) (theta : list R) :
  0 <= rho ->
  Forall (fun x => x = rho)
    (radii (map (fun t => rho * cos t) theta)
           (map (fun t => rho * sin t) theta)).
Proof.
  intros Hrho. unfold radii, np.zipw.
  induction theta as [|t theta IH]; cbn [map combine]; constructor; auto.
  cbn [fst snd].
  replace (rho * cos t * (rho * cos t) + rho * sin t * (rho * sin t))
    with ((Rsqr (sin t) + Rsqr (cos t)) * (rho * rho))
    by (unfold Rsqr; ring).
  rewrite sin2_cos2, Rmult_1_l. apply sqrt_square; assumption.
Qed.

(** The analytic branch: n points at the angles 2 pi k / n. *)
Lemma shadow_boundary_small_spin
  (argsort : list R -> list nat) (a inc_deg : R) (n : Z) :
  Rabs a < 1.0e-12 ->
  (100 <= n)%Z ->
  shadow_boundary argsort a inc_deg n =
    Ok (map (fun k => sqrt 27 * cos (INR k * (2 * PI / IZR n)))
            (seq 0 (Z.to_nat n)),
        map (fun k => sqrt 27 * sin (INR k * (2 * PI / IZR n)))
            (seq 0 (Z.to_nat n))).
Proof.
  intros Ha Hn. unfold shadow_boundary.
  destruct (Z.ltb_spec n 100) as [H|_]; [lia|].
  destruct (Rlt_dec (Rabs a) 1.0e-12) as [_|H]; [|contradiction].
  destruct (linspace_ok 0 (2 * PI) n false) as (step & -> & Hstep & _);
    [lia|].
  rewrite (Hstep eq_refl) by lia. cbn [bind].
  rewrite !map_map. f_equal. f_equal.
  - apply map_ext. intros k. f_equal. f_equal. lra.
  - apply map_ext. intros k. f_equal. f_equal. lra.
Qed.

(** C2. For |a| < 1e-12 and n >= 100, whatever the inclination,
    [shadow_boundary] returns n points, the k-th at angle 2 pi k / n on the
    circle of radius sqrt(27) about the origin: every radius is sqrt(27),
    so their mean deviates from sqrt(27) by less than 1e-3 and their
    standard deviation is below 1e-3. *)
Theorem shadow_boundary_schwarzschild_circle
  (argsort : list R -> list nat) (a inc_deg : R) (n : Z) :
  Rabs a < 1.0e-12 ->
  (100 <= n)%Z ->
  exists alpha beta,
    shadow_boundary argsort a inc_deg n = Ok (alpha, beta) /\
    length alpha = Z.to_nat n /\ length beta = Z.to_nat n /\
    (forall k, (k < Z.to_nat n)%nat ->
       let theta := INR k * (2 * PI / IZR n) in
       nth k alpha 0 = sqrt 27 * cos theta /\
       nth k beta 0 = sqrt 27 * sin theta) /\
    Forall (fun rho => rho = sqrt 27) (radii alpha beta) /\
    Rabs (np.mean (radii alpha beta) - sqrt 27) < 1.0e-3 /\
    np.std (radii alpha beta) < 1.0e-3.
Proof.
  intros Ha Hn.
  rewrite (shadow_boundary_small_spin argsort a inc_deg n Ha Hn).
  set (theta := map (fun k => INR k * (2 * PI / IZR n)) (seq 0 (Z.to_nat n))).
  assert (Hc : map (fun k => sqrt 27 * cos (INR k * (2 * PI / IZR n)))
                   (seq 0 (Z.to_nat n)) = map (fun t => sqrt 27 * cos t) theta)
    by (unfold theta; rewrite map_map; reflexivity).
  assert (Hs : map (fun k => sqrt 27 * sin (INR k * (2 * PI / IZR n)))
                   (seq 0 (Z.to_nat n)) = map (fun t => sqrt 27 * sin t) theta)
    by (unfold theta; rewrite map_map; reflexivity).
  assert (Hlen : length theta = Z.to_nat n)
    by (unfold theta; rewrite length_map, length_seq; reflexivity).
  pose proof (circle_radii (sqrt 27) theta (sqrt_pos 27)) as Hrad.
  rewrite <- Hc, <- Hs in Hrad.
  assert (Hne : radii (map (fun k => sqrt 27 * cos (INR k * (2 * PI / IZR n)))
                           (seq 0 (Z.to_nat n)))
                      (map (fun k => sqrt 27 * sin (INR k * (2 * PI / IZR n)))
                           (seq 0 (Z.to_nat n))) <> []).
  { destruct (Z.to_nat n) eqn:E; [lia|discriminate]. }
  do 2 eexists. split; [reflexivity|].
  rewrite !length_map, length_seq.
  split; [reflexivity|]. split; [reflexivity|].
  split.
  { intros k Hk. cbv zeta. rewrite !nth_map_seq by assumption.
    split; reflexivity. }
  split; [assumption|].
  rewrite (mean_constant (sqrt 27)), (std_constant (sqrt 27)) by assumption.
  rewrite Rminus_diag, Rabs_R0. lra.
Qed.

Lemma shadow_boundary_schwarzschild_circle_witness :
  exists alpha beta,
    shadow_boundary insertion_argsort 0 45 100 = Ok (alpha, beta) /\
    length alpha = 100%nat /\
    Forall (fun rho => rho = sqrt 27) (radii alpha beta).
Proof.
  destruct (shadow_boundary_schwarzschild_circle insertion_argsort 0 45 100)
    as (alpha & beta & E & La & _ & _ & Hr & _).
  - rewrite Rabs_R0. lra.
  - lia.
  - exists alpha, beta. auto.
Defined.

End ShadowSchwarzschild.

Section ShadowEmptyBoundary.

Lemma trace_points_all_rejected (a inc_deg : R) (r_grid : list R)
  (points : list (R * R)) :
  Rabs a < 1 ->
  Forall (rejected a inc_deg) r_grid ->
  trace_points a inc_deg r_grid points = Ok points.
Proof.
  intros Ha H. revert points.
  induction H as [|r r_grid Hr _ IH]; intros points; [reflexivity|].
  cbn [trace_points]. destruct Hr as [Hr|(xi & eta & E & Hs)].
  - rewrite (xi_eta_raises_value_error r a Ha Hr). apply IH.
  - rewrite E, Hs. apply IH.
Qed.

(** C10. For 1e-12 <= |a| < 1, |sin i| >= 1e-6 and n >= 100, when each of
    the n/2 sampled radii is rejected (the orbit constants fail or project
    to the NaN pair), [shadow_boundary] returns two empty arrays and raises
    nothing. *)
Theorem shadow_boundary_all_rejected
  (argsort : list R -> list nat) (a inc_deg : R) (n : Z) :
  1.0e-12 <= Rabs a < 1 ->
  1.0e-6 <= Rabs (sin (np.deg2rad inc_deg)) ->
  (100 <= n)%Z ->
  (forall k, (k < Z.to_nat (n / 2))%nat ->
     rejected a inc_deg (candidate_radius a n k)) ->
  shadow_boundary argsort a inc_deg n = Ok ([], []).
Proof.
  intros [Ha0 Ha1] Hi Hn Hrej. unfold shadow_boundary.
  destruct (Z.ltb_spec n 100) as [H|_]; [lia|].
  destruct (Rlt_dec (Rabs a) 1.0e-12) as [H|_]; [lra|].
  destruct (Rlt_dec _ _FACEON_TOL) as [H|_]; [unfold _FACEON_TOL in H; lra|].
  rewrite (horizon_radius_ok a Ha1); cbn [bind].
  assert (Hhalf : (50 <= n / 2)%Z) by (apply Z.div_le_lower_bound; lia).
  destruct (linspace_ok (1 + sqrt (1 - a * a) + 1.0e-6) 20 (n / 2) true)
    as (step & -> & _ & Hstep); [lia|].
  rewrite (Hstep eq_refl) by lia. cbn [bind].
  rewrite trace_points_all_rejected; [reflexivity|assumption|].
  apply Forall_forall. intros r Hr.
  apply in_map_iff in Hr. destruct Hr as (k & <- & Hk).
  apply in_seq in Hk. apply (Hrej k). lia.
Qed.

End ShadowEmptyBoundary.

Section ShadowEmptyBoundaryExample.

(** Carter's constant in closed form: its sign is that of
    4 a^2 - r (r - 3)^2. *)
Lemma eta_closed_form (r a : R) :
  a <> 0 -> r <> 1 -> r * r - 2 * r + a * a <> 0 ->
  let Delta := r * r - 2 * r + a * a in
  let Delta' := 2 * r - 2 in
  let xi := ((r * r + a * a) * Delta' - 4 * r * Delta) / (a * Delta') in
  4 * r * Delta / Delta' * (4 * r * Delta / Delta') / Delta
    - (xi - a) * (xi - a)
  = r * r * r * (4 * a * a - r * (r - 3) * (r - 3))
    / (a * a * ((r - 1) * (r - 1))).
Proof.
  intros Ha Hr HD. cbv zeta. field.
  repeat split; try assumption; lra.
Qed.

Lemma eta_negative_off_photon_region (r a : R) :
  1.0e-12 <= Rabs a < 1 ->
  1 + sqrt (1 - a * a) < r ->
  1.0e-12 <= Rabs (2 * r - 2) ->
  4 * a * a < r * (r - 3) * (r - 3) ->
  exists xi eta, xi_eta_spherical r a = Ok (xi, eta) /\ eta < 0.
Proof.
  intros Ha Hr Hd Hneg.
  pose proof (sqrt_pos (1 - a * a)) as Hs.
  destruct (xi_eta_divisors_nonzero r a Ha Hr Hd) as (Hp & Hap & HD).
  assert (Hz : a <> 0) by (intros E; apply Hap; rewrite E; ring).
  do 2 eexists. split; [apply xi_eta_value; assumption|].
  rewrite eta_closed_form by (try assumption; lra).
  assert (Hden : 0 < a * a * ((r - 1) * (r - 1))).
  { assert (0 < a * a) by nra. assert (0 < (r - 1) * (r - 1)) by nra.
    nra. }
  assert (Hnum : r * r * r * (4 * a * a - r * (r - 3) * (r - 3)) < 0).
  { assert (H3 : 0 < r * r * r) by (repeat apply Rmult_lt_0_compat; lra).
    assert (H4 : 0 < r * (r - 3) * (r - 3) - 4 * a * a) by lra.
    pose proof (Rmult_lt_0_compat _ _ H3 H4). lra. }
  unfold Rdiv.
  replace 0 with (0 * / (a * a * ((r - 1) * (r - 1)))) by ring.
  apply Rmult_lt_compat_r; [apply Rinv_0_lt_compat|]; assumption.
Qed.

Lemma screen_coords_edge_on (xi eta a : R) :
  eta < 0 -> screen_coords xi eta a 90 = (NaN, NaN).
Proof.
  intros Heta. rewrite screen_coords_unfold.
  assert (Hq : np.deg2rad 90 = PI / 2) by (unfold np.deg2rad; lra).
  assert (Hb : beta_squared xi eta a 90 = eta).
  { unfold beta_squared. cbv zeta. rewrite Hq, cos_PI2.
    unfold Rdiv. ring. }
  rewrite Hb. destruct (Rlt_dec eta 0); [reflexivity|contradiction].
Qed.

Lemma sqrt_horizon_small_spin :
  sqrt (1 - 200 / 10001 * (200 / 10001)) = 9999 / 10001.
Proof.
  replace (1 - 200 / 10001 * (200 / 10001))
    with (9999 / 10001 * (9999 / 10001)) by lra.
  apply sqrt_square; lra.
Qed.

(** At spin 200/10001 seen edge-on, the 50 radii sampled for n = 100 all
    miss the narrow band about r = 3 where eta >= 0. *)
Lemma shadow_boundary_all_rejected_witness :
  shadow_boundary insertion_argsort (200 / 10001) 90 100 = Ok ([], []).
Proof.
  assert (Habs : Rabs (200 / 10001) = 200 / 10001)
    by (apply Rabs_pos_eq; lra).
  apply shadow_boundary_all_rejected.
  - rewrite Habs. lra.
  - replace (np.deg2rad 90) with (PI / 2) by (unfold np.deg2rad; lra).
    rewrite sin_PI2, Rabs_R1. lra.
  - lia.
  - intros k Hk. right.
    change (Z.to_nat (100 / 2)) with 50%nat in Hk.
    unfold candidate_radius. cbv zeta.
    rewrite sqrt_horizon_small_spin.
    change (100 / 2)%Z with 50%Z.
    set (r := INR k * _ + _).
    assert (Hk0 : 0 <= INR k) by apply pos_INR.
    assert (Hcase : r <= 2.74 /\ 1 + 9999 / 10001 < r \/ 3.1 <= r).
    { destruct (Nat.le_gt_cases k 2) as [H|H].
      - left. apply le_INR in H. simpl in H. unfold r. lra.
      - right. apply le_INR in H. simpl in H. unfold r. lra. }
    destruct (eta_negative_off_photon_region r (200 / 10001))
      as (xi & eta & E & Heta).
    + rewrite Habs. lra.
    + rewrite sqrt_horizon_small_spin. destruct Hcase; lra.
    + rewrite Rabs_pos_eq; destruct Hcase; lra.
    + assert (Hsq : 0.01 <= (r - 3) * (r - 3) /\ 1 <= r)
        by (destruct Hcase as [[H1 H2]|H1]; split; nra).
      destruct Hsq as [Hsq Hr1].
      replace (r * (r - 3) * (r - 3)) with (r * ((r - 3) * (r - 3))) by ring.
      assert (0.01 <= r * ((r - 3) * (r - 3))) by nra.
      lra.
    + exists xi, eta. split; [exact E|].
      apply screen_coords_edge_on; assumption.
Defined.

End ShadowEmptyBoundaryExample.

(** ** Sorting by polar angle *)

Section PolarSort.


Lemma Rle_transitive : forall x y z : R, x <= y -> y <= z -> x <= z.
Proof. intros; lra. Qed.

(** *** Insertion gives a sorting argsort *)

Lemma insert_index_perm (keys : list R) (i : nat) (order : list nat) :
  Permutation (insert_index keys i order) (i :: order).
Proof.
  induction order as [|j order IH]; cbn [insert_index]; [reflexivity|].
  destruct (Rlt_dec (nth i keys 0) (nth j keys 0)); [reflexivity|].
  rewrite IH. apply perm_swap.
Qed.

Lemma insert_index_sorted (keys : list R) (i : nat) (order : list nat) :
  Sorted Rle (map (fun j => nth j keys 0) order) ->
  Sorted Rle (map (fun j => nth j keys 0) (insert_index keys i order)).
Proof.
  induction order as [|j order IH]; intros Hs; cbn [insert_index map].
  - repeat constructor.
  - destruct (Rlt_dec (nth i keys 0) (nth j keys 0)) as [Hlt|Hge].
    + cbn [map]. constructor; [exact Hs|]. constructor. lra.
    + cbn [map]. inversion Hs as [|? ? Hs' Hhd]; subst.
      constructor; [apply IH; assumption|].
      destruct order as [|j' order]; cbn [insert_index map].
      * constructor. lra.
      * destruct (Rlt_dec (nth i keys 0) (nth j' keys 0)); cbn [map];
          constructor; [lra|].
        inversion Hhd; subst. assumption.
Qed.

Lemma insertion_fold_spec (keys : list R) (todo order : list nat) :
  Sorted Rle (map (fun j => nth j keys 0) order) ->
  let out := fold_left (fun order i => insert_index keys i order) todo order in
  Permutation out (todo ++ order) /\
  Sorted Rle (map (fun j => nth j keys 0) out).
Proof.
  revert order. induction todo as [|i todo IH]; intros order Hs; cbn zeta.
  - split; [reflexivity|assumption].
  - cbn [fold_left].
    destruct (IH (insert_index keys i order)
                 (insert_index_sorted keys i order Hs)) as [Hp Hs'].
    split; [|exact Hs'].
    rewrite Hp, insert_index_perm. cbn [app].
    symmetry. apply Permutation_middle.
Qed.

Lemma insertion_argsort_sorts : argsort_spec insertion_argsort.
Proof.
  intros keys. unfold insertion_argsort.
  destruct (insertion_fold_spec keys (seq 0 (length keys)) [])
    as [Hp Hs]; [constructor|].
  split.
  - rewrite app_nil_r in Hp. exact Hp.
  - apply Sorted_StronglySorted; [exact Rle_transitive|exact Hs].
Qed.

(** *** Sorted lists with the same elements *)


Lemma map_nth_seq {A : Type} (l : list A) (d : A) :
  map (fun i => nth i l d) (seq 0 (length l)) = l.
Proof.
  induction l as [|x l IH]; [reflexivity|].
  cbn [length seq map nth]. f_equal.
  rewrite <- seq_shift, map_map. exact IH.
Qed.

Lemma gather_perm {A : Type} (l : list A) (d : A) (order : list nat) :
  Permutation order (seq 0 (length l)) ->
  Permutation (map (fun i => nth i l d) order) l.
Proof.
  intros Hp.
  eapply Permutation_trans; [apply Permutation_map; exact Hp|].
  rewrite map_nth_seq. reflexivity.
Qed.


Lemma combine_fst_snd {A B : Type} (l : list (A * B)) :
  combine (map fst l) (map snd l) = l.
Proof.
  induction l as [|[x y] l IH]; [reflexivity|].
  cbn [map combine fst snd]. rewrite IH. reflexivity.
Qed.

Section AnyArgsort.

Variable argsort : list R -> list nat.
Hypothesis argsort_sorts : argsort_spec argsort.

Lemma sort_by_polar_angle_points (points : list (R * R)) :
  sort_by_polar_angle argsort points =
  (map fst (sorted_points argsort points),
   map snd (sorted_points argsort points)).
Proof. reflexivity. Qed.

Lemma sorted_points_perm (points : list (R * R)) :
  Permutation (sorted_points argsort points) points.
Proof.
  unfold sorted_points. apply gather_perm.
  destruct (argsort_sorts (map polar_angle points)) as [Hp _].
  rewrite length_map in Hp. exact Hp.
Qed.



End AnyArgsort.

End PolarSort.

Section PolarResort.








End PolarResort.

(** ** Arrays: broadcasting of equal shapes is entrywise *)

Section ArrayLemmas.

Lemma zipw_split (f : R -> R -> R) (k : nat) (l1 l2 : list R) :
  np.zipw f l1 l2 =
  np.zipw f (firstn k l1) (firstn k l2)
  ++ np.zipw f (skipn k l1) (skipn k l2).
Proof.
  unfold np.zipw. revert l1 l2.
  induction k as [|k IH]; intros l1 l2; [reflexivity|].
  destruct l1 as [|x l1]; [reflexivity|].
  destruct l2 as [|y l2].
  - cbn [firstn skipn combine map app].
    destruct (firstn k l1); destruct (skipn k l1); reflexivity.
  - cbn [firstn skipn combine map app]. rewrite (IH l1 l2). reflexivity.
Qed.

Lemma zipw_map_same {A : Type} (f : R -> R -> R) (g h : A -> R)
  (l : list A) :
  np.zipw f (map g l) (map h l) = map (fun v => f (g v) (h v)) l.
Proof.
  unfold np.zipw. induction l as [|x l IH]; [reflexivity|].
  cbn [map combine fst snd]. rewrite IH. reflexivity.
Qed.

Lemma chunks_zipw (f : R -> R -> R) (g : list R -> list R -> list R)
  (k n : nat) (d1 d2 : list R) :
  length d1 = (n * k)%nat -> length d2 = (n * k)%nat ->
  (forall c1 c2, length c1 = k -> length c2 = k -> g c1 c2 = np.zipw f c1 c2) ->
  concat (map (fun p => g (fst p) (snd p))
              (combine (np.chunks k n d1) (np.chunks k n d2)))
  = np.zipw f d1 d2.
Proof.
  intros H1 H2 Hg. revert d1 d2 H1 H2.
  induction n as [|n IH]; intros d1 d2 H1 H2.
  - destruct d1; [reflexivity|discriminate].
  - cbn [np.chunks combine map concat fst snd].
    rewrite IH by (rewrite length_skipn; lia).
    rewrite Hg by (rewrite length_firstn; lia).
    symmetry. apply zipw_split.
Qed.

Lemma bcast_same (f : R -> R -> R) (s : list nat) (d1 d2 : list R) :
  length d1 = np.size s -> length d2 = np.size s ->
  np.bcast f s s d1 d2 = np.zipw f d1 d2.
Proof.
  revert d1 d2. induction s as [|n t IH]; intros d1 d2 H1 H2.
  - cbn in H1, H2.
    destruct d1 as [|x [|? ?]]; try discriminate.
    destruct d2 as [|y [|? ?]]; try discriminate. reflexivity.
  - cbn [np.bcast]. rewrite Nat.eqb_refl.
    apply chunks_zipw; assumption.
Qed.

Lemma broadcast_shapes_same (s : list nat) : np.broadcast_shapes s s = Some s.
Proof.
  induction s as [|n t IH]; [reflexivity|].
  cbn [np.broadcast_shapes]. rewrite IH, Nat.eqb_refl. reflexivity.
Qed.

Lemma pad_same (s : list nat) : np.pad (length s) s = s.
Proof. unfold np.pad. rewrite Nat.sub_diag. reflexivity. Qed.

(** Two arrays of one shape, both computed entrywise from the same
    underlying entries: the ufunc fuses with the two computations. *)
Lemma binop_fuse {A : Type} (f : R -> R -> R) (g h : A -> R)
  (s : list nat) (l : list A) :
  length l = np.size s ->
  np.binop f (np.mk s (map g l)) (np.mk s (map h l)) =
  Ok (np.mk s (map (fun v => f (g v) (h v)) l)).
Proof.
  intros Hl. unfold np.binop. cbn [np.shape np.data].
  rewrite Nat.max_id, pad_same, broadcast_shapes_same.
  rewrite bcast_same by (rewrite length_map; assumption).
  rewrite zipw_map_same. reflexivity.
Qed.

Lemma size_repeat_1 (n : nat) : np.size (repeat 1%nat n) = 1%nat.
Proof.
  induction n as [|n IH]; [reflexivity|]. simpl. rewrite IH. reflexivity.
Qed.

Lemma concat_chunks (k n : nat) (d : list R) :
  length d = (n * k)%nat -> concat (np.chunks k n d) = d.
Proof.
  revert d. induction n as [|n IH]; intros d Hd.
  - destruct d; [reflexivity|discriminate].
  - cbn [np.chunks concat]. rewrite IH by (rewrite length_skipn; lia).
    apply firstn_skipn.
Qed.

Lemma chunks_lengths (k n : nat) (d : list R) :
  length d = (n * k)%nat ->
  Forall (fun c => length c = k) (np.chunks k n d).
Proof.
  revert d. induction n as [|n IH]; intros d Hd; cbn [np.chunks].
  - constructor.
  - constructor; [rewrite length_firstn; lia|].
    apply IH. rewrite length_skipn. lia.
Qed.

Lemma bcast_scalar_left (f : R -> R -> R) (c : R) (s : list nat)
  (d : list R) :
  length d = np.size s ->
  np.bcast f (repeat 1%nat (length s)) s [c] d = map (f c) d.
Proof.
  revert d. induction s as [|n t IH]; intros d Hd.
  - cbn in Hd. destruct d as [|y [|? ?]]; try discriminate. reflexivity.
  - cbn [length repeat np.bcast]. rewrite size_repeat_1.
    cbn [np.chunks firstn hd]. cbn [np.size fold_right] in Hd.
    fold (np.size t) in Hd.
    destruct (Nat.eqb_spec 1 n) as [<-|Hn].
    + cbn [np.chunks combine map concat fst snd].
      rewrite app_nil_r, IH by (rewrite length_firstn; lia).
      rewrite firstn_all2 by lia. reflexivity.
    + cbn [Nat.eqb].
      rewrite (map_ext_in _ (map (f c))).
      * rewrite <- concat_map, concat_chunks by exact Hd. reflexivity.
      * intros ch Hch. apply IH.
        pose proof (chunks_lengths (np.size t) n d Hd) as Hall.
        rewrite Forall_forall in Hall. apply Hall. exact Hch.
Qed.

Lemma broadcast_shapes_ones (s : list nat) :
  np.broadcast_shapes (repeat 1%nat (length s)) s = Some s.
Proof.
  induction s as [|n t IH]; [reflexivity|].
  cbn [length repeat np.broadcast_shapes]. rewrite IH.
  destruct (Nat.eqb_spec 1 n) as [<-|Hn]; reflexivity.
Qed.

(** A 0-d array against an array of any shape: the scalar is stretched. *)
Lemma binop_scalar_left (f : R -> R -> R) (c : R) (x : np.ndarray) :
  np.wf x -> np.binop f (np.scalar c) x = Ok (np.map1 (f c) x).
Proof.
  intros Hwf. unfold np.binop, np.scalar, np.map1. cbn [np.shape np.data].
  cbn [length Nat.max]. rewrite pad_same.
  unfold np.pad. cbn [length]. rewrite Nat.sub_0_r, app_nil_r.
  rewrite broadcast_shapes_ones, bcast_scalar_left by exact Hwf.
  reflexivity.
Qed.

Lemma any_false (p : R -> bool) (x : np.ndarray) :
  Forall (fun v => p v = false) (np.data x) -> np.any p x = false.
Proof.
  unfold np.any. induction 1 as [|v l Hv _ IH]; [reflexivity|].
  cbn [existsb]. rewrite Hv, IH. reflexivity.
Qed.

Lemma any_true (p : R -> bool) (x : np.ndarray) (v : R) :
  In v (np.data x) -> p v = true -> np.any p x = true.
Proof.
  intros Hin Hp. unfold np.any. apply existsb_exists. eauto.
Qed.

Lemma Rgeb_true (x y : R) : x >= y -> Rgeb x y = true.
Proof. intros H. unfold Rgeb. destruct (Rge_dec x y); tauto. Qed.

Lemma Rgeb_false (x y : R) : x < y -> Rgeb x y = false.
Proof. intros H. unfold Rgeb. destruct (Rge_dec x y); [lra|reflexivity]. Qed.

Lemma Rleb_true (x y : R) : x <= y -> Rleb x y = true.
Proof. intros H. unfold Rleb. destruct (Rle_dec x y); tauto. Qed.

Lemma Rleb_false (x y : R) : y < x -> Rleb x y = false.
Proof. intros H. unfold Rleb. destruct (Rle_dec x y); [lra|reflexivity]. Qed.

End ArrayLemmas.

(** ** isco.py computes the Bardeen closed forms entrywise *)

Section IscoClosedForms.

Lemma existsb_map {A B : Type} (p : B -> bool) (g : A -> B) (l : list A) :
  existsb p (map g l) = existsb (fun v => p (g v)) l.
Proof.
  induction l as [|x l IH]; [reflexivity|].
  cbn [map existsb]. rewrite IH. reflexivity.
Qed.

Ltac fuse Hl :=
  repeat (unfold np.map1; cbn [bind np.shape np.data];
          rewrite ?map_map; rewrite binop_fuse by exact Hl);
  unfold np.map1; cbn [bind np.shape np.data]; rewrite ?map_map.

Lemma z1_array_fused {A : Type} (s : list nat) (l : list A) (g : A -> R) :
  length l = np.size s ->
  z1 (np.mk s (map g l)) =
    if existsb (fun v => Rgeb (Rabs (g v)) 1) l then Raise ValueError
    else np.to_float (np.mk s (map (fun v => bardeen_Z1 (g v)) l)).
Proof.
  intros Hl. unfold z1, _validate_spin, np.any. cbn [np.data].
  rewrite existsb_map. destruct (existsb _ l); [reflexivity|].
  unfold np.map1; cbn [bind np.shape np.data]. unfold np.mul, np.add.
  fuse Hl. rewrite ?map_map. reflexivity.
Qed.

Lemma r_isco_fused {A : Type} (s : list nat) (l : list A) (g : A -> R)
  (prograde : bool) :
  length l = np.size s ->
  r_isco (np.mk s (map g l)) prograde =
    if existsb (fun v => Rgeb (Rabs (g v)) 1) l then Raise ValueError
    else Ok (np.mk s (map (fun v => isco_radius prograde (g v)) l)).
Proof.
  intros Hl. unfold r_isco, _validate_spin, np.any. cbn [np.data].
  rewrite existsb_map. destruct (existsb _ l); [reflexivity|].
  unfold np.map1; cbn [bind np.shape np.data]. unfold np.mul, np.add.
  fuse Hl. reflexivity.
Qed.

Lemma E_equatorial_fused {A : Type} (s : list nat) (l : list A)
  (gr ga : A -> R) (prograde : bool) :
  length l = np.size s ->
  E_equatorial (np.mk s (map gr l)) (np.mk s (map ga l)) prograde =
    if existsb (fun v => Rleb (gr v) 0) l then Raise ValueError else
    if existsb (fun v => Rgeb (Rabs (ga v)) 1) l then Raise ValueError else
    if existsb (fun v =>
         Rleb (orbit_inner (gr v) (spin_term prograde (ga v))) 0) l
    then Raise ValueError else
    Ok (np.mk s (map (fun v =>
          orbit_energy (gr v) (spin_term prograde (ga v))) l)).
Proof.
  intros Hl. unfold E_equatorial, _validate_spin, np.any. cbn [np.data].
  rewrite !existsb_map. destruct (existsb _ l); [reflexivity|].
  destruct (existsb _ l); [reflexivity|].
  unfold np.map1; cbn [bind np.shape np.data].
  unfold np.mul, np.add, np.sub, np.div.
  destruct prograde; cbn [spin_term];
    unfold np.map1; cbn [bind np.shape np.data]; fuse Hl;
    rewrite existsb_map; unfold orbit_inner;
    (destruct (existsb _ l); [reflexivity|]); fuse Hl; reflexivity.
Qed.

End IscoClosedForms.

(** ** The cube root *)

Section CubeRoot.

Lemma cbrt_of_pos (x : R) : 0 < x -> np.cbrt x = Rpower x (/ 3).
Proof.
  intros Hx. unfold np.cbrt. destruct (Rlt_dec 0 x); [reflexivity|lra].
Qed.

Lemma cbrt_pos (x : R) : 0 < x -> 0 < np.cbrt x.
Proof.
  intros Hx. rewrite cbrt_of_pos by assumption. unfold Rpower. apply exp_pos.
Qed.

Lemma cbrt_cube (x : R) : 0 < x -> np.cbrt x * np.cbrt x * np.cbrt x = x.
Proof.
  intros Hx. pose proof (cbrt_pos x Hx) as Hc.
  replace (np.cbrt x * np.cbrt x * np.cbrt x) with (np.cbrt x ^ 3) by ring.
  rewrite <- Rpower_pow by assumption.
  rewrite cbrt_of_pos by assumption.
  rewrite Rpower_mult.
  replace (/ 3 * INR 3) with 1 by (simpl; field).
  apply Rpower_1; assumption.
Qed.

Lemma cbrt_mult (x y : R) :
  0 < x -> 0 < y -> np.cbrt (x * y) = np.cbrt x * np.cbrt y.
Proof.
  intros Hx Hy.
  rewrite !cbrt_of_pos by (try apply Rmult_lt_0_compat; assumption).
  symmetry. apply Rpower_mult_distr; assumption.
Qed.

Lemma cbrt_1 : np.cbrt 1 = 1.
Proof.
  rewrite cbrt_of_pos by lra. unfold Rpower.
  rewrite ln_1, Rmult_0_r. apply exp_0.
Qed.

End CubeRoot.

(** ** Algebra of the Bardeen quantities *)

Section BardeenAlgebra.

Variable a : R.
Hypothesis a_range : 0 <= a < 1.

Local Abbreviation u := (np.cbrt (1 + a)).
Local Abbreviation v := (np.cbrt (1 - a)).
Local Abbreviation Z1 := (bardeen_Z1 a).
Local Abbreviation Z2 := (bardeen_Z2 a).
Local Abbreviation W := (sqrt ((3 - Z1) * (3 + Z1 + 2 * Z2))).

Lemma abs_a_eq : Rabs a = a.
Proof. apply Rabs_pos_eq. lra. Qed.

Lemma u_pos : 0 < u.
Proof. apply cbrt_pos. lra. Qed.

Lemma v_pos : 0 < v.
Proof. apply cbrt_pos. lra. Qed.

Lemma u_cube : u * u * u = 1 + a.
Proof. apply cbrt_cube. lra. Qed.

Lemma v_cube : v * v * v = 1 - a.
Proof. apply cbrt_cube. lra. Qed.

Lemma Z1_uv : Z1 = 1 + u * v * (u + v).
Proof.
  unfold bardeen_Z1. rewrite abs_a_eq.
  replace (1 - a * a) with ((1 + a) * (1 - a)) by ring.
  rewrite cbrt_mult by lra. reflexivity.
Qed.

Lemma Z1_lower : 1 < Z1.
Proof.
  rewrite Z1_uv. pose proof u_pos. pose proof v_pos.
  assert (0 < u * v) by (apply Rmult_lt_0_compat; assumption).
  assert (0 < u * v * (u + v)) by (apply Rmult_lt_0_compat; lra).
  lra.
Qed.

Lemma Z1_upper : Z1 <= 3.
Proof.
  rewrite Z1_uv. pose proof u_pos. pose proof v_pos.
  pose proof u_cube. pose proof v_cube.
  assert (0 <= (u + v) * ((u - v) * (u - v))).
  { apply Rmult_le_pos; [lra|]. apply Rle_0_sqr. }
  nra.
Qed.

(** The resolvent cubic Z1 is a root of. *)
Lemma Z1_cubic : Z1 * Z1 * Z1 - 3 * (Z1 * Z1) + 3 * (a * a) * Z1 - a * a = 0.
Proof.
  rewrite Z1_uv. pose proof u_cube as Hu. pose proof v_cube as Hv.
  set (w := u * v * (u + v)).
  assert (Hw : w * w * w = (1 - a * a) * (2 + 3 * w)).
  { unfold w.
    replace (u * v * (u + v) * (u * v * (u + v)) * (u * v * (u + v)))
      with ((u * u * u) * (v * v * v)
            * (u * u * u + v * v * v + 3 * (u * v * (u + v)))) by ring.
    rewrite Hu, Hv. ring. }
  replace ((1 + w) * (1 + w) * (1 + w) - 3 * ((1 + w) * (1 + w))
           + 3 * (a * a) * (1 + w) - a * a)
    with (w * w * w - (1 - a * a) * (2 + 3 * w)) by ring.
  rewrite Hw. ring.
Qed.

Lemma Z2_sqr : Z2 * Z2 = 3 * (a * a) + Z1 * Z1.
Proof.
  unfold bardeen_Z2. rewrite abs_a_eq.
  rewrite sqrt_sqrt; [ring|]. nra.
Qed.

Lemma Z2_lower : 1 < Z2.
Proof.
  pose proof Z2_sqr. pose proof Z1_lower.
  assert (0 <= Z2) by (unfold bardeen_Z2; apply sqrt_pos).
  nra.
Qed.

(** The radicand of the outer square root is not negative. *)
Lemma W_radicand_nonneg : 0 <= (3 - Z1) * (3 + Z1 + 2 * Z2).
Proof.
  pose proof Z1_upper. pose proof Z1_lower. pose proof Z2_lower.
  apply Rmult_le_pos; lra.
Qed.

Lemma W_sqr : W * W = (3 - Z1) * (3 + Z1 + 2 * Z2).
Proof. apply sqrt_sqrt. apply W_radicand_nonneg. Qed.

Lemma W_nonneg : 0 <= W.
Proof. apply sqrt_pos. Qed.

Lemma W_lower : 3 - Z1 <= W.
Proof.
  pose proof W_sqr. pose proof W_nonneg.
  pose proof Z1_upper. pose proof Z1_lower. pose proof Z2_lower.
  destruct (Rle_dec (3 - Z1) W) as [?|Hn]; [assumption|].
  exfalso. apply Rnot_le_lt in Hn.
  assert (W * W < (3 - Z1) * (3 - Z1)) by nra.
  assert ((3 - Z1) * (3 - Z1) <= (3 - Z1) * (3 + Z1 + 2 * Z2))
    by (apply Rmult_le_compat_l; lra).
  lra.
Qed.

Lemma Z2_Z1_product : Z2 * Z2 * (3 - Z1) = 8 * (a * a).
Proof. rewrite Z2_sqr. pose proof Z1_cubic. nra. Qed.

Lemma isco_radius_unfold (prograde : bool) :
  isco_radius prograde a = 3 + Z2 + (if prograde then -1 else 1) * W.
Proof. reflexivity. Qed.

(** With q = r^2 - 6 r - 3 a^2: q = 2 Z2 (r - Z1 - Z2) and
    q^2 = 64 a^2 r, for either orbital sense. *)
Lemma isco_q_factor (prograde : bool) :
  let r := isco_radius prograde a in
  r * r - 6 * r - 3 * (a * a) = 2 * Z2 * (r - Z1 - Z2).
Proof.
  cbv zeta. rewrite isco_radius_unfold.
  pose proof W_sqr as HW. pose proof Z2_sqr as HZ.
  destruct prograde; nra.
Qed.

Lemma isco_quartic (prograde : bool) :
  let r := isco_radius prograde a in
  let q := r * r - 6 * r - 3 * (a * a) in
  q * q = 64 * (a * a) * r.
Proof.
  cbv zeta. rewrite isco_q_factor. rewrite isco_radius_unfold.
  pose proof W_sqr as HW. pose proof Z2_Z1_product as HP.
  set (sg := if prograde then -1 else 1).
  assert (Hsg : sg * sg = 1) by (unfold sg; destruct prograde; ring).
  replace (2 * Z2 * (3 + Z2 + sg * W - Z1 - Z2)
           * (2 * Z2 * (3 + Z2 + sg * W - Z1 - Z2)))
    with (4 * (Z2 * Z2) * ((3 - Z1) * (3 - Z1) + 2 * sg * W * (3 - Z1)
                           + (sg * sg) * (W * W))) by ring.
  rewrite Hsg, HW.
  replace (4 * (Z2 * Z2) * ((3 - Z1) * (3 - Z1) + 2 * sg * W * (3 - Z1)
                           + 1 * ((3 - Z1) * (3 + Z1 + 2 * Z2))))
    with (8 * (Z2 * Z2 * (3 - Z1)) * (3 + Z2 + sg * W)) by ring.
  rewrite HP. ring.
Qed.

Lemma isco_q_prograde :
  let r := isco_radius true a in r * r - 6 * r - 3 * (a * a) <= 0.
Proof.
  cbv zeta. rewrite isco_q_factor, isco_radius_unfold.
  pose proof W_lower. pose proof Z2_lower.
  replace (2 * Z2 * (3 + Z2 + -1 * W - Z1 - Z2))
    with (- (2 * Z2 * (W - (3 - Z1)))) by ring.
  assert (0 <= 2 * Z2 * (W - (3 - Z1))) by (apply Rmult_le_pos; lra).
  lra.
Qed.

Lemma isco_q_retrograde :
  let r := isco_radius false a in 0 <= r * r - 6 * r - 3 * (a * a).
Proof.
  cbv zeta. rewrite isco_q_factor, isco_radius_unfold.
  pose proof W_nonneg. pose proof Z1_upper. pose proof Z2_lower.
  replace (2 * Z2 * (3 + Z2 + 1 * W - Z1 - Z2))
    with (2 * Z2 * (W + (3 - Z1))) by ring.
  apply Rmult_le_pos; lra.
Qed.

End BardeenAlgebra.

(** ** Monotonic roots of the ISCO quartics *)

Section IscoQuartics.

Lemma prograde_root_gt_1 (x a : R) :
  0 < a < 1 -> 0 <= x -> quartic_pro x a = 0 -> 1 < x.
Proof.
  intros [Ha0 Ha1] Hx Hf. unfold quartic_pro in Hf.
  destruct (Rlt_dec 1 x) as [?|Hn]; [assumption|exfalso].
  apply Rnot_lt_le in Hn.
  destruct (Rle_dec (3 / 4) x) as [H34|H34].
  - assert (E : x * x * x * x - 6 * (x * x) + 8 * a * x - 3 * (a * a)
                = (x - 1) * (x - 1) * (x - 1) * (x + 3)
                  - (1 - a) * (8 * x - 3 - 3 * a)) by ring.
    assert (H1 : (x - 1) * (x - 1) * (x - 1) * (x + 3) <= 0).
    { assert (0 <= (x - 1) * (x - 1)) by apply Rle_0_sqr.
      assert (0 <= (1 - x) * (x + 3)) by (apply Rmult_le_pos; lra).
      nra. }
    assert (H2 : 0 < (1 - a) * (8 * x - 3 - 3 * a))
        by (apply Rmult_lt_0_compat; lra).
    lra.
  - apply Rnot_le_lt in H34.
    assert (E : x * x * x * x - 6 * (x * x) + 8 * a * x - 3 * (a * a)
                = - 3 * ((a - 4 / 3 * x) * (a - 4 / 3 * x))
                  - x * x * (2 / 3 - x * x)) by field.
    assert (H1 : 0 <= (a - 4 / 3 * x) * (a - 4 / 3 * x)) by apply Rle_0_sqr.
    assert (H2 : 0 <= x * x * (2 / 3 - x * x)).
    { apply Rmult_le_pos; [apply Rle_0_sqr|nra]. }
    destruct (Req_dec x 0) as [E0|E0].
    + subst x. nra.
    + assert (0 < x * x) by nra. assert (0 < 2 / 3 - x * x) by nra.
      assert (0 < x * x * (2 / 3 - x * x))
          by (apply Rmult_lt_0_compat; assumption).
      lra.
Qed.

Lemma prograde_roots_decrease (x1 x2 a1 a2 : R) :
  0 < a1 -> a1 < a2 -> a2 < 1 -> 1 < x1 -> 1 < x2 ->
  quartic_pro x1 a1 = 0 -> quartic_pro x2 a2 = 0 -> x2 < x1.
Proof.
  intros Ha0 Ha12 Ha1 Hx1 Hx2 Hf1 Hf2. unfold quartic_pro in *.
  destruct (Rlt_dec x2 x1) as [?|Hn]; [assumption|exfalso].
  apply Rnot_lt_le in Hn.
  set (g1 := x1 * x1 * x1 - 3 * x1 + 2 * a1).
  assert (Hg : x1 * g1 = 3 * ((x1 - a1) * (x1 - a1))) by (unfold g1; nra).
  assert (Hg1 : 0 < g1).
  { assert (0 < (x1 - a1) * (x1 - a1)) by (apply Rmult_lt_0_compat; lra).
    assert (0 < x1 * g1) by lra.
    destruct (Rlt_dec 0 g1) as [?|Hg']; [assumption|].
    apply Rnot_lt_le in Hg'.
    assert (x1 * g1 <= 0) by nra. lra. }
  assert (Hshift : 0 < (a2 - a1) * (8 * x1 - 3 * (a1 + a2)))
    by (apply Rmult_lt_0_compat; lra).
  assert (Hf12 : 0 < x1 * x1 * x1 * x1 - 6 * (x1 * x1) + 8 * a2 * x1
      - 3 * (a2 * a2)) by nra.
  set (B := x2 * x2 * x2 + x2 * x2 * x1 + x2 * x1 * x1 + x1 * x1 * x1
      - 6 * (x1 + x2) + 8 * a2).
  assert (HB : 0 < B).
  { assert (HC : 0 <= (x2 - x1) * (x2 * x2 + 2 * (x2 * x1) + 3 * (x1 * x1)
      - 6)).
    { apply Rmult_le_pos; [lra|]. nra. }
    unfold B. unfold g1 in Hg1. nra. }
  assert (Hdiff : 0 <= (x2 - x1) * B) by (apply Rmult_le_pos; lra).
  unfold B in Hdiff. nra.
Qed.

Lemma retrograde_roots_increase (x1 x2 a1 a2 : R) :
  0 < a1 -> a1 < a2 -> 0 <= x1 -> 0 <= x2 ->
  quartic_retro x1 a1 = 0 -> quartic_retro x2 a2 = 0 -> x1 < x2.
Proof.
  intros Ha0 Ha12 Hx1 Hx2 Hf1 Hf2. unfold quartic_retro in *.
  assert (Hbig : forall x a, 0 < a -> 0 <= x ->
     x * x * x * x - 6 * (x * x) - 8 * a * x - 3 * (a * a) = 0 -> 2 < x).
  { intros x a Ha Hx Hf.
    destruct (Rlt_dec 2 x) as [?|Hn]; [assumption|exfalso].
    apply Rnot_lt_le in Hn.
    assert (x * x * (x * x - 6) <= 0).
    { assert (0 <= x * x) by apply Rle_0_sqr.
      assert (x * x <= 4) by nra.
      assert (0 <= x * x * (6 - x * x)) by (apply Rmult_le_pos; lra).
      lra. }
    assert (0 <= a * x) by (apply Rmult_le_pos; lra).
    assert (0 < a * a) by (apply Rmult_lt_0_compat; lra).
    lra. }
  pose proof (Hbig x1 a1 Ha0 Hx1 Hf1) as H1.
  assert (Ha2 : 0 < a2) by lra.
  pose proof (Hbig x2 a2 Ha2 Hx2 Hf2) as H2.
  destruct (Rlt_dec x1 x2) as [?|Hn]; [assumption|exfalso].
  apply Rnot_lt_le in Hn.
  set (g2 := x2 * x2 * x2 - 3 * x2 - 2 * a2).
  assert (Hg : x2 * g2 = 3 * ((x2 + a2) * (x2 + a2))) by (unfold g2; nra).
  assert (Hg2 : 0 < g2).
  { assert (0 < (x2 + a2) * (x2 + a2)) by (apply Rmult_lt_0_compat; lra).
    assert (0 < x2 * g2) by lra.
    destruct (Rlt_dec 0 g2) as [?|Hg']; [assumption|].
    apply Rnot_lt_le in Hg'.
    assert (x2 * g2 <= 0) by nra. lra. }
  assert (Hshift : 0 < (a2 - a1) * (8 * x1 + 3 * (a1 + a2)))
    by (apply Rmult_lt_0_compat; lra).
  assert (Hf12 : x1 * x1 * x1 * x1 - 6 * (x1 * x1) - 8 * a2 * x1
      - 3 * (a2 * a2) < 0) by nra.
  set (B := x1 * x1 * x1 + x1 * x1 * x2 + x1 * x2 * x2 + x2 * x2 * x2
      - 6 * (x1 + x2) - 8 * a2).
  assert (HB : 0 < B).
  { assert (HC : 0 <= (x1 - x2) * (x1 * x1 + 2 * (x1 * x2) + 3 * (x2 * x2)
      - 6)).
    { apply Rmult_le_pos; [lra|]. nra. }
    unfold B. unfold g2 in Hg2. nra. }
  assert (Hdiff : 0 <= (x1 - x2) * B) by (apply Rmult_le_pos; lra).
  unfold B in Hdiff. nra.
Qed.

End IscoQuartics.

(** ** The ISCO radius *)

Section IscoRadius.

Lemma r_isco_scalar (a : R) (prograde : bool) :
  Rabs a < 1 ->
  r_isco (np.scalar a) prograde = Ok (np.scalar (isco_radius prograde a)).
Proof.
  intros Ha.
  pose proof (r_isco_fused [] [a] (fun v => v) prograde eq_refl) as H.
  cbn [map existsb] in H. rewrite Rgeb_false in H by assumption.
  exact H.
Qed.

Lemma existsb_all_false {A : Type} (p : A -> bool) (l : list A) :
  Forall (fun v => p v = false) l -> existsb p l = false.
Proof.
  induction 1 as [|v l Hv _ IH]; [reflexivity|].
  cbn [existsb]. rewrite Hv, IH. reflexivity.
Qed.

Lemma r_isco_array (a : np.ndarray) (prograde : bool) :
  np.wf a ->
  Forall (fun v => Rabs v < 1) (np.data a) ->
  r_isco a prograde = Ok (np.map1 (isco_radius prograde) a).
Proof.
  intros Hwf Hall. destruct a as [s l]. cbn [np.data] in Hall.
  pose proof (r_isco_fused s l (fun v => v) prograde Hwf) as H.
  rewrite map_id in H. rewrite H.
  rewrite (existsb_all_false _ l); [reflexivity|].
  eapply Forall_impl; [|exact Hall].
  intros v Hv. apply Rgeb_false. exact Hv.
Qed.

Lemma isco_radius_schwarzschild (prograde : bool) :
  isco_radius prograde 0 = 6.
Proof.
  assert (HZ1 : bardeen_Z1 0 = 3).
  { unfold bardeen_Z1. rewrite Rabs_R0.
    replace (1 - 0 * 0) with 1 by ring.
    replace (1 + 0) with 1 by ring. replace (1 - 0) with 1 by ring.
    rewrite cbrt_1. ring. }
  assert (HZ2 : bardeen_Z2 0 = 3).
  { unfold bardeen_Z2. rewrite HZ1, Rabs_R0.
    replace (3 * 0 * 0 + 3 * 3) with (3 * 3) by ring.
    apply sqrt_square. lra. }
  unfold isco_radius. rewrite HZ1, HZ2.
  replace ((3 - 3) * (3 + 3 + 2 * 3)) with 0 by ring.
  rewrite sqrt_0. destruct prograde; ring.
Qed.

(** C3. At a = 0 the ISCO radius is 6 for both orbital senses: the model
    returns exactly 6, hence within 1e-12 of it. *)
Theorem r_isco_schwarzschild_limit :
  r_isco (np.scalar 0) true = Ok (np.scalar 6) /\
  r_isco (np.scalar 0) false = Ok (np.scalar 6) /\
  (forall prograde r,
     r_isco (np.scalar 0) prograde = Ok (np.scalar r) ->
     Rabs (r - 6) < 1.0e-12).
Proof.
  assert (H : forall p, r_isco (np.scalar 0) p = Ok (np.scalar 6)).
  { intros p. rewrite r_isco_scalar by (rewrite Rabs_R0; lra).
    rewrite isco_radius_schwarzschild. reflexivity. }
  split; [apply H|]. split; [apply H|].
  intros p r E. rewrite H in E. injection E as <-.
  rewrite Rminus_diag, Rabs_R0. lra.
Qed.

(** For 0 < a < 1 the radius is not negative and its square root solves
    the quartic of its orbital sense. *)
Lemma isco_radius_nonneg (prograde : bool) (a : R) :
  0 < a < 1 -> 0 <= isco_radius prograde a.
Proof.
  intros Ha.
  assert (Hr : 0 <= a < 1) by lra.
  pose proof (isco_quartic a Hr prograde) as Hq. cbv zeta in Hq.
  set (r := isco_radius prograde a) in *.
  set (q := r * r - 6 * r - 3 * (a * a)) in *.
  assert (0 <= q * q) by apply Rle_0_sqr.
  assert (0 < 64 * (a * a)) by nra.
  destruct (Rle_dec 0 r) as [?|Hn]; [assumption|exfalso].
  apply Rnot_le_lt in Hn.
  assert (64 * (a * a) * r < 0) by nra. lra.
Qed.

Lemma isco_sqrt_quartic_pro (a : R) :
  0 < a < 1 -> quartic_pro (sqrt (isco_radius true a)) a = 0.
Proof.
  intros Ha. assert (Hr : 0 <= a < 1) by lra.
  pose proof (isco_radius_nonneg true a Ha) as Hpos.
  pose proof (isco_quartic a Hr true) as Hq. cbv zeta in Hq.
  pose proof (isco_q_prograde a Hr) as Hs. cbv zeta in Hs.
  set (r := isco_radius true a) in *.
  pose proof (sqrt_sqrt r Hpos) as Hx. pose proof (sqrt_pos r) as Hx0.
  set (x := sqrt r) in *. unfold quartic_pro.
  replace (x * x * x * x) with (x * x * (x * x)) by ring. rewrite Hx.
  set (q := r * r - 6 * r - 3 * (a * a)) in *.
  assert (Hy : 0 <= 8 * a * x) by (apply Rmult_le_pos; lra).
  assert (Hqq : q * q = 8 * a * x * (8 * a * x)) by (rewrite Hq, <- Hx; ring).
  assert (Hq' : q = - (8 * a * x)) by nra.
  unfold q in Hq'. lra.
Qed.

Lemma isco_sqrt_quartic_retro (a : R) :
  0 < a < 1 -> quartic_retro (sqrt (isco_radius false a)) a = 0.
Proof.
  intros Ha. assert (Hr : 0 <= a < 1) by lra.
  pose proof (isco_radius_nonneg false a Ha) as Hpos.
  pose proof (isco_quartic a Hr false) as Hq. cbv zeta in Hq.
  pose proof (isco_q_retrograde a Hr) as Hs. cbv zeta in Hs.
  set (r := isco_radius false a) in *.
  pose proof (sqrt_sqrt r Hpos) as Hx. pose proof (sqrt_pos r) as Hx0.
  set (x := sqrt r) in *. unfold quartic_retro.
  replace (x * x * x * x) with (x * x * (x * x)) by ring. rewrite Hx.
  set (q := r * r - 6 * r - 3 * (a * a)) in *.
  assert (Hy : 0 <= 8 * a * x) by (apply Rmult_le_pos; lra).
  assert (Hqq : q * q = 8 * a * x * (8 * a * x)) by (rewrite Hq, <- Hx; ring).
  assert (Hq' : q = 8 * a * x) by nra.
  unfold q in Hq'. lra.
Qed.

Lemma isco_radius_prograde_decreasing (a1 a2 : R) :
  0 < a1 -> a1 < a2 -> a2 < 1 ->
  isco_radius true a2 < isco_radius true a1.
Proof.
  intros H0 H12 H1.
  pose proof (isco_sqrt_quartic_pro a1 ltac:(lra)) as Q1.
  pose proof (isco_sqrt_quartic_pro a2 ltac:(lra)) as Q2.
  pose proof (isco_radius_nonneg true a1 ltac:(lra)) as P1.
  pose proof (isco_radius_nonneg true a2 ltac:(lra)) as P2.
  pose proof (sqrt_sqrt _ P1) as S1. pose proof (sqrt_sqrt _ P2) as S2.
  pose proof (sqrt_pos (isco_radius true a1)) as N1.
  pose proof (sqrt_pos (isco_radius true a2)) as N2.
  set (x1 := sqrt (isco_radius true a1)) in *.
  set (x2 := sqrt (isco_radius true a2)) in *.
  assert (G1 : 1 < x1) by (apply (prograde_root_gt_1 x1 a1); auto; lra).
  assert (G2 : 1 < x2) by (apply (prograde_root_gt_1 x2 a2); auto; lra).
  pose proof (prograde_roots_decrease x1 x2 a1 a2 H0 H12 H1 G1 G2 Q1 Q2).
  rewrite <- S1, <- S2. nra.
Qed.

Lemma isco_radius_retrograde_increasing (a1 a2 : R) :
  0 < a1 -> a1 < a2 -> a2 < 1 ->
  isco_radius false a1 < isco_radius false a2.
Proof.
  intros H0 H12 H1.
  pose proof (isco_sqrt_quartic_retro a1 ltac:(lra)) as Q1.
  pose proof (isco_sqrt_quartic_retro a2 ltac:(lra)) as Q2.
  pose proof (isco_radius_nonneg false a1 ltac:(lra)) as P1.
  pose proof (isco_radius_nonneg false a2 ltac:(lra)) as P2.
  pose proof (sqrt_sqrt _ P1) as S1. pose proof (sqrt_sqrt _ P2) as S2.
  pose proof (sqrt_pos (isco_radius false a1)) as N1.
  pose proof (sqrt_pos (isco_radius false a2)) as N2.
  set (x1 := sqrt (isco_radius false a1)) in *.
  set (x2 := sqrt (isco_radius false a2)) in *.
  pose proof (retrograde_roots_increase x1 x2 a1 a2 H0 H12 N1 N2 Q1 Q2).
  rewrite <- S1, <- S2. nra.
Qed.



End IscoRadius.

(** ** Orbital energy *)

Section OrbitalEnergy.

Lemma Rpower_half (r : R) : 0 < r -> Rpower r 0.5 = sqrt r.
Proof.
  intros Hr. replace 0.5 with (/ 2) by lra. apply Rpower_sqrt. exact Hr.
Qed.

Lemma Rpower_three_halves (r : R) : 0 < r -> Rpower r 1.5 = r * sqrt r.
Proof.
  intros Hr. replace 1.5 with (1 + / 2) by lra.
  rewrite Rpower_plus, Rpower_1, Rpower_sqrt by assumption. reflexivity.
Qed.

Lemma E_equatorial_scalar (r a : R) (prograde : bool) :
  E_equatorial (np.scalar r) (np.scalar a) prograde =
    if Rle_dec r 0 then Raise ValueError else
    if Rge_dec (Rabs a) 1 then Raise ValueError else
    if Rle_dec (orbit_inner r (spin_term prograde a)) 0
    then Raise ValueError
    else Ok (np.scalar (orbit_energy r (spin_term prograde a))).
Proof.
  pose proof (E_equatorial_fused [] [(r, a)] fst snd prograde eq_refl) as H.
  cbn [map existsb fst snd] in H. unfold np.scalar. rewrite H.
  unfold Rleb, Rgeb. rewrite !orb_false_r.
  destruct (Rle_dec r 0); [reflexivity|].
  destruct (Rge_dec (Rabs a) 1); [reflexivity|].
  destruct (Rle_dec _ 0); reflexivity.
Qed.

(** Past the guards the divisor of the energy is positive. *)
Lemma energy_divisor_pos (r a_term : R) :
  0 < r -> 0 < orbit_inner r a_term ->
  0 < Rpower r 0.75 * sqrt (orbit_inner r a_term).
Proof.
  intros Hr Hi. apply Rmult_lt_0_compat.
  - unfold Rpower. apply exp_pos.
  - apply sqrt_lt_R0. exact Hi.
Qed.

(** C7, as the code has it.  [E_equatorial r a prograde] raises
    [ValueError] exactly when r <= 0, |a| >= 1, or the inner bracket
    r^1.5 - 3 r^0.5 + 2 sigma is not positive, where sigma is +|a| for
    prograde and -|a| for retrograde orbits; otherwise it returns
    (r^1.5 - 2 r^0.5 + sigma) / (r^0.75 sqrt(inner)), whose divisor is
    positive. *)
Theorem E_equatorial_domain (r a : R) (prograde : bool) :
  let sigma := if prograde then Rabs a else - Rabs a in
  let inner := Rpower r 1.5 - 3 * Rpower r 0.5 + 2 * sigma in
  let fails := r <= 0 \/ Rabs a >= 1 \/ (0 < r /\ inner <= 0) in
  (fails ->
     E_equatorial (np.scalar r) (np.scalar a) prograde = Raise ValueError) /\
  (~ fails ->
     0 < Rpower r 0.75 * sqrt inner /\
     E_equatorial (np.scalar r) (np.scalar a) prograde =
       Ok (np.scalar ((Rpower r 1.5 - 2 * Rpower r 0.5 + sigma)
                      / (Rpower r 0.75 * sqrt inner)))) /\
  (raises (E_equatorial (np.scalar r) (np.scalar a) prograde) <-> fails).
Proof.
  cbv zeta. fold (spin_term prograde a).
  rewrite E_equatorial_scalar.
  destruct (Rle_dec r 0) as [Hr|Hr].
  { split; [reflexivity|]. split; [tauto|].
    split; [tauto|intros _; exists ValueError; reflexivity]. }
  apply Rnot_le_lt in Hr.
  rewrite Rpower_three_halves, Rpower_half by assumption.
  fold (orbit_inner r (spin_term prograde a)).
  destruct (Rge_dec (Rabs a) 1) as [Ha|Ha].
  { split; [reflexivity|]. split; [tauto|].
    split; [tauto|intros _; exists ValueError; reflexivity]. }
  destruct (Rle_dec (orbit_inner r (spin_term prograde a)) 0) as [Hi|Hi].
  { split; [reflexivity|]. split; [tauto|].
    split; [tauto|intros _; exists ValueError; reflexivity]. }
  apply Rnot_le_lt in Hi.
  split; [intros [H|[H|[_ H]]]; lra|].
  split.
  - intros _. split; [apply energy_divisor_pos; assumption|reflexivity].
  - split; [intros [e He]; discriminate|intros [H|[H|[_ H]]]; lra].
Qed.

Lemma sqrt_nine_quarters : sqrt (9 / 4) = 3 / 2.
Proof.
  replace (9 / 4) with (3 / 2 * (3 / 2)) by lra. apply sqrt_square. lra.
Qed.

(** Against C7 as stated: with a negative spin the code's sigma differs
    from the claimed one.  At r = 9/4, a = -9/10, prograde, the bracket
    with sigma = a is negative, yet the code, which takes sigma = |a|,
    returns an energy. *)
Lemma E_equatorial_negative_spin :
  orbit_inner (9 / 4) (claimed_sigma true (- (9 / 10))) <= 0 /\
  E_equatorial (np.scalar (9 / 4)) (np.scalar (- (9 / 10))) true =
    Ok (np.scalar (orbit_energy (9 / 4) (9 / 10))).
Proof.
  split.
  - unfold orbit_inner, claimed_sigma. rewrite sqrt_nine_quarters. lra.
  - rewrite E_equatorial_scalar. unfold spin_term.
    rewrite Rabs_Ropp, (Rabs_pos_eq (9 / 10)) by lra.
    destruct (Rle_dec (9 / 4) 0) as [H|_]; [lra|].
    destruct (Rge_dec (9 / 10) 1) as [H|_]; [lra|].
    destruct (Rle_dec (orbit_inner (9 / 4) (9 / 10)) 0) as [H|_];
      [|reflexivity].
    unfold orbit_inner in H. rewrite sqrt_nine_quarters in H. lra.
Qed.

(** C7 at work: a radius of zero is refused. *)
Lemma E_equatorial_domain_witness :
  E_equatorial (np.scalar 0) (np.scalar (1 / 2)) true = Raise ValueError.
Proof.
  destruct (E_equatorial_domain 0 (1 / 2) true) as [Hfail _].
  apply Hfail. left. lra.
Defined.

End OrbitalEnergy.

(** ** Validation of the spin *)

Section SpinValidation.

Lemma validate_spin_raises (a : np.ndarray) :
  has_invalid_spin a -> _validate_spin a = Raise ValueError.
Proof.
  intros (v & Hin & Hv). unfold _validate_spin.
  rewrite (any_true _ a v Hin); [reflexivity|].
  apply Rgeb_true. exact Hv.
Qed.

Lemma z1_invalid_spin (a : np.ndarray) :
  has_invalid_spin a -> z1 a = Raise ValueError.
Proof.
  intros H. unfold z1. rewrite (validate_spin_raises a H). reflexivity.
Qed.

Lemma z2_invalid_spin (a : np.ndarray) :
  has_invalid_spin a -> z2 a = Raise ValueError.
Proof.
  intros H. unfold z2. rewrite (z1_invalid_spin a H). reflexivity.
Qed.

Lemma r_isco_invalid_spin (a : np.ndarray) (prograde : bool) :
  has_invalid_spin a -> r_isco a prograde = Raise ValueError.
Proof.
  intros H. unfold r_isco. rewrite (validate_spin_raises a H). reflexivity.
Qed.

Lemma E_equatorial_invalid_spin (r a : np.ndarray) (prograde : bool) :
  has_invalid_spin a -> E_equatorial r a prograde = Raise ValueError.
Proof.
  intros H. unfold E_equatorial.
  destruct (np.any _ r); [reflexivity|].
  rewrite (validate_spin_raises a H). reflexivity.
Qed.

Lemma eta_invalid_spin (a : np.ndarray) (prograde : bool) :
  has_invalid_spin a -> eta a prograde = Raise ValueError.
Proof.
  intros H. unfold eta. rewrite (r_isco_invalid_spin a prograde H).
  reflexivity.
Qed.

Lemma xi_eta_invalid_spin (r a : R) :
  Rabs a >= 1 -> xi_eta_spherical r a = Raise ValueError.
Proof.
  intros Ha. unfold xi_eta_spherical.
  destruct (Rlt_dec (Rabs a) 1.0e-12); [reflexivity|].
  rewrite (horizon_radius_raises a Ha). reflexivity.
Qed.

Lemma solve_face_on_invalid_spin (a : R) :
  Rabs a >= 1 -> _solve_face_on_radius a = Raise ValueError.
Proof.
  intros Ha. unfold _solve_face_on_radius.
  rewrite (horizon_radius_raises a Ha). reflexivity.
Qed.

Lemma shadow_boundary_invalid_spin
  (argsort : list R -> list nat) (a inc_deg : R) (n : Z) :
  Rabs a >= 1 -> shadow_boundary argsort a inc_deg n = Raise ValueError.
Proof.
  intros Ha. unfold shadow_boundary.
  destruct (n <? 100)%Z; [reflexivity|].
  destruct (Rlt_dec (Rabs a) 1.0e-12) as [H|_]; [lra|].
  destruct (Rlt_dec _ _FACEON_TOL) as [_|_].
  - unfold _face_on_boundary.
    destruct (Rlt_dec (Rabs a) 1.0e-12) as [H|_]; [lra|].
    rewrite (solve_face_on_invalid_spin a Ha). reflexivity.
  - rewrite (horizon_radius_raises a Ha). reflexivity.
Qed.

(** C5, as the code has it.  Every function of the two modules that takes
    a spin, except [screen_coords], raises [ValueError] and returns nothing
    when |a| >= 1 (for the array functions: when some entry has |a| >= 1),
    whatever its other arguments. *)
Theorem spin_validated :
  (forall a, has_invalid_spin a ->
     z1 a = Raise ValueError /\ z2 a = Raise ValueError) /\
  (forall a prograde, has_invalid_spin a ->
     r_isco a prograde = Raise ValueError /\
     eta a prograde = Raise ValueError) /\
  (forall r a prograde, has_invalid_spin a ->
     E_equatorial r a prograde = Raise ValueError) /\
  (forall a, Rabs a >= 1 -> horizon_radius a = Raise ValueError) /\
  (forall r a, Rabs a >= 1 -> xi_eta_spherical r a = Raise ValueError) /\
  (forall argsort a inc_deg n, Rabs a >= 1 ->
     shadow_boundary argsort a inc_deg n = Raise ValueError).
Proof.
  split; [intros a H; split;
          [apply z1_invalid_spin|apply z2_invalid_spin]; exact H|].
  split; [intros a p H; split;
          [apply r_isco_invalid_spin|apply eta_invalid_spin]; exact H|].
  split; [intros r a p H; apply E_equatorial_invalid_spin; exact H|].
  split; [exact horizon_radius_raises|].
  split; [exact xi_eta_invalid_spin|exact shadow_boundary_invalid_spin].
Qed.

(** Against C5 as stated: [screen_coords] does not look at the size of the
    spin, with a = 2 it returns a point. *)
Lemma screen_coords_unvalidated :
  screen_coords 0 0 2 0 = (Fin 0, Fin 2).
Proof.
  rewrite screen_coords_unfold.
  assert (Hs : floored_sin 0 = 1.0e-15).
  { unfold floored_sin, np.deg2rad. cbv zeta. rewrite Rmult_0_l, sin_0.
    rewrite Rabs_R0.
    destruct (Rlt_dec 0 1.0e-15) as [_|H]; [|lra].
    destruct (Rlt_dec 0 0) as [H|_]; [lra|reflexivity]. }
  assert (Hb : beta_squared 0 0 2 0 = 2 * 2).
  { unfold beta_squared. cbv zeta. rewrite Hs.
    unfold np.deg2rad. rewrite Rmult_0_l, cos_0.
    unfold Rdiv. ring. }
  rewrite Hb, Hs, sqrt_square by lra.
  destruct (Rlt_dec (2 * 2) 0) as [H|_]; [lra|].
  f_equal. f_equal. unfold Rdiv. ring.
Qed.

(** C5 at work: a spin of 2 is refused by the horizon radius and by the
    ISCO radius. *)
Lemma spin_validated_witness :
  horizon_radius 2 = Raise ValueError /\
  r_isco (np.scalar 2) true = Raise ValueError.
Proof.
  assert (H2 : Rabs 2 >= 1) by (rewrite Rabs_pos_eq; lra).
  destruct spin_validated as (_ & Hr & _ & Hh & _).
  split; [apply Hh; exact H2|].
  apply Hr. exists 2. split; [left; reflexivity|exact H2].
Defined.

End SpinValidation.

(** ** Stability at the ISCO, and the efficiency *)

Section Efficiency.

Lemma Rabs_sqr (a : R) : Rabs a * Rabs a = a * a.
Proof. unfold Rabs. destruct (Rcase_abs a); ring. Qed.

Lemma isco_radius_abs (prograde : bool) (a : R) :
  isco_radius prograde (Rabs a) = isco_radius prograde a.
Proof.
  unfold isco_radius, bardeen_Z2, bardeen_Z1. rewrite Rabs_Rabsolu.
  reflexivity.
Qed.

(** At the ISCO of a spin 0 <= b < 1 the radius is positive and the inner
    bracket of the energy is positive: times sqrt r it is 3 (sqrt r -+ b)^2. *)
Lemma isco_stable_nonneg_spin (prograde : bool) (b : R) :
  0 <= b < 1 ->
  0 < isco_radius prograde b /\
  0 < orbit_inner (isco_radius prograde b) (if prograde then b else - b).
Proof.
  intros [Hb0 Hb1].
  destruct (Req_dec b 0) as [->|Hnz].
  { rewrite isco_radius_schwarzschild. split; [lra|].
    unfold orbit_inner.
    assert (0 < sqrt 6) by (apply sqrt_lt_R0; lra).
    destruct prograde; lra. }
  assert (Hb : 0 < b < 1) by lra.
  pose proof (isco_radius_nonneg prograde b Hb) as Hr.
  pose proof (sqrt_sqrt _ Hr) as Hx.
  pose proof (sqrt_pos (isco_radius prograde b)) as Hx0.
  unfold orbit_inner. destruct prograde.
  - pose proof (isco_sqrt_quartic_pro b Hb) as Q.
    set (x := sqrt (isco_radius true b)) in *.
    assert (G : 1 < x) by (apply (prograde_root_gt_1 x b); assumption).
    rewrite <- Hx. unfold quartic_pro in Q.
    split; [nra|].
    assert (E : x * (x * x * x - 3 * x + 2 * b) = 3 * ((x - b) * (x - b)))
      by nra.
    assert (0 < (x - b) * (x - b)) by (apply Rmult_lt_0_compat; lra).
    assert (0 < x * (x * x * x - 3 * x + 2 * b)) by lra.
    destruct (Rlt_dec 0 (x * x * x - 3 * x + 2 * b)) as [?|Hn];
      [assumption|exfalso].
    apply Rnot_lt_le in Hn.
    assert (x * (x * x * x - 3 * x + 2 * b) <= 0) by nra. lra.
  - pose proof (isco_sqrt_quartic_retro b Hb) as Q.
    set (x := sqrt (isco_radius false b)) in *.
    unfold quartic_retro in Q.
    assert (Hxp : 0 < x).
    { destruct (Req_dec x 0) as [E0|E0]; [|lra].
      rewrite E0 in Q. nra. }
    rewrite <- Hx. split; [nra|].
    assert (E : x * (x * x * x - 3 * x + 2 * - b) = 3 * ((x + b) * (x + b)))
      by nra.
    assert (0 < (x + b) * (x + b)) by (apply Rmult_lt_0_compat; lra).
    assert (0 < x * (x * x * x - 3 * x + 2 * - b)) by lra.
    destruct (Rlt_dec 0 (x * x * x - 3 * x + 2 * - b)) as [?|Hn];
      [assumption|exfalso].
    apply Rnot_lt_le in Hn.
    assert (x * (x * x * x - 3 * x + 2 * - b) <= 0) by nra. lra.
Qed.

Lemma isco_stable (prograde : bool) (a : R) :
  Rabs a < 1 ->
  0 < isco_radius prograde a /\
  0 < orbit_inner (isco_radius prograde a) (spin_term prograde a).
Proof.
  intros Ha.
  destruct (isco_stable_nonneg_spin prograde (Rabs a)) as [H1 H2].
  - split; [apply Rabs_pos|assumption].
  - rewrite isco_radius_abs in H1, H2. split; assumption.
Qed.

Lemma eta_array (a : np.ndarray) (prograde : bool) :
  np.wf a ->
  Forall (fun v => Rabs v < 1) (np.data a) ->
  eta a prograde = Ok (np.map1 (efficiency prograde) a).
Proof.
  intros Hwf Hall. unfold eta.
  rewrite (r_isco_array a prograde Hwf Hall). cbn [bind].
  destruct a as [s l]. cbn [np.data] in Hall. unfold np.map1.
  cbn [np.shape np.data].
  pose proof (E_equatorial_fused s l (isco_radius prograde) (fun v => v)
                prograde Hwf) as H.
  rewrite map_id in H. rewrite H. clear H.
  rewrite !existsb_all_false.
  - cbn [bind np.shape np.data]. rewrite map_map. reflexivity.
  - eapply Forall_impl; [|exact Hall]. intros v Hv.
    apply Rleb_false. apply isco_stable. exact Hv.
  - eapply Forall_impl; [|exact Hall]. intros v Hv.
    apply Rgeb_false. exact Hv.
  - eapply Forall_impl; [|exact Hall]. intros v Hv.
    apply Rleb_false. apply isco_stable. exact Hv.
Qed.

Lemma eta_scalar (a : R) (prograde : bool) :
  Rabs a < 1 ->
  eta (np.scalar a) prograde = Ok (np.scalar (efficiency prograde a)).
Proof.
  intros Ha. apply (eta_array (np.scalar a) prograde); [reflexivity|].
  repeat constructor. exact Ha.
Qed.

End Efficiency.

(** ** Broadcasting *)

Section Broadcasting.

Lemma z1_scalar (a : R) :
  Rabs a < 1 -> z1 (np.scalar a) = Ok (bardeen_Z1 a).
Proof.
  intros Ha.
  pose proof (z1_array_fused [] [a] (fun v => v) eq_refl) as H.
  cbn [map existsb] in H. rewrite Rgeb_false in H by assumption.
  exact H.
Qed.

Lemma z2_scalar (a : R) :
  Rabs a < 1 -> z2 (np.scalar a) = Ok (bardeen_Z2 a).
Proof.
  intros Ha. unfold z2. rewrite (z1_scalar a Ha).
  cbn [bind np.to_float np.scalar np.data].
  unfold bardeen_Z2. do 2 f_equal.
  rewrite !Rmult_assoc, Rabs_sqr. reflexivity.
Qed.








End Broadcasting.

(** ** A boundary of two points *)

Section TwoPointBoundary.










(** What [shadow_boundary] does on its sampling branch, with the grid
    written out. *)
Lemma shadow_boundary_sampling
  (argsort : list R -> list nat) (a inc_deg : R) (n : Z) :
  1.0e-12 <= Rabs a < 1 ->
  _FACEON_TOL <= Rabs (sin (np.deg2rad inc_deg)) ->
  (100 <= n)%Z ->
  shadow_boundary argsort a inc_deg n =
    (points <- trace_points a inc_deg
                 (map (candidate_radius a n) (seq 0 (Z.to_nat (n / 2)))) [] ;;
     match points with
     | [] => Ok ([], [])
     | _ => Ok (sort_by_polar_angle argsort points)
     end).
Proof.
  intros [Ha0 Ha1] Hi Hn. unfold shadow_boundary.
  destruct (Z.ltb_spec n 100) as [H|_]; [lia|].
  destruct (Rlt_dec (Rabs a) 1.0e-12) as [H|_]; [lra|].
  destruct (Rlt_dec _ _FACEON_TOL) as [H|_]; [lra|].
  rewrite (horizon_radius_ok a Ha1); cbn [bind].
  assert (Hhalf : (50 <= n / 2)%Z) by (apply Z.div_le_lower_bound; lia).
  destruct (linspace_ok (1 + sqrt (1 - a * a) + 1.0e-6) 20 (n / 2) true)
    as (step & -> & _ & Hstep); [lia|].
  rewrite (Hstep eq_refl) by lia. cbn [bind]. reflexivity.
Qed.





End TwoPointBoundary.

(** ** Further properties of the two modules *)

Section FurtherProperties.

(** With the end point, the last sample of [np.linspace] is [stop]: the
    value NumPy writes there is the one the formula gives. *)
Lemma linspace_last (start stop : R) (num : Z) :
  (1 < num)%Z ->
  exists grid,
    np.linspace start stop num true = Ok grid /\
    nth (Z.to_nat num - 1) grid 0 = stop.
Proof.
  intros Hn.
  destruct (linspace_ok start stop num true) as (step & E & _ & Hstep);
    [lia|].
  eexists. split; [exact E|].
  rewrite nth_map_seq by lia. rewrite (Hstep eq_refl Hn).
  assert (Hk : INR (Z.to_nat num - 1) = IZR num - 1).
  { rewrite minus_INR by lia. rewrite INR_IZR_INZ, Z2Nat.id by lia.
    reflexivity. }
  rewrite Hk. apply IZR_lt in Hn. field. lra.
Qed.

(** For |a| < 1 the two square roots of [r_isco] are taken of numbers that
    are not negative. *)
Lemma r_isco_radicands_nonneg (a : R) :
  Rabs a < 1 ->
  0 <= 3 * Rabs a * Rabs a + bardeen_Z1 a * bardeen_Z1 a /\
  0 <= (3 - bardeen_Z1 a) * (3 + bardeen_Z1 a + 2 * bardeen_Z2 a).
Proof.
  intros Ha. split.
  - assert (0 <= Rabs a * Rabs a) by apply Rle_0_sqr.
    assert (0 <= bardeen_Z1 a * bardeen_Z1 a) by apply Rle_0_sqr.
    lra.
  - assert (Hb : 0 <= Rabs a < 1) by (split; [apply Rabs_pos|exact Ha]).
    pose proof (W_radicand_nonneg (Rabs a) Hb) as H.
    unfold bardeen_Z2, bardeen_Z1 in H |- *.
    rewrite !Rabs_Rabsolu in H. exact H.
Qed.

End FurtherProperties.

(** ** The ISCO module on the whole spin range *)

Section IscoRange.

Lemma quartic_retro_as_pro (x a : R) :
  quartic_retro x a = quartic_pro x (- a).
Proof. unfold quartic_retro, quartic_pro. ring. Qed.

Lemma prograde_root_below_sqrt6 (x a : R) :
  0 < a < 1 -> 1 < x -> quartic_pro x a = 0 -> x * x < 6.
Proof.
  intros [Ha0 Ha1] Hx Hf. unfold quartic_pro in Hf.
  destruct (Rlt_dec (x * x) 6) as [?|Hn]; [assumption|exfalso].
  apply Rnot_lt_le in Hn.
  assert (0 <= x * x * (x * x - 6)) by (apply Rmult_le_pos; nra).
  assert (0 < a * (8 * x - 3 * a)) by (apply Rmult_lt_0_compat; lra).
  nra.
Qed.

Lemma retrograde_root_range (x a : R) :
  0 < a < 1 -> 0 <= x -> quartic_retro x a = 0 -> 6 < x * x < 9.
Proof.
  intros [Ha0 Ha1] Hx Hf. unfold quartic_retro in Hf.
  assert (Hax : 0 <= a * x) by (apply Rmult_le_pos; lra).
  assert (Haa : 0 < a * a) by (apply Rmult_lt_0_compat; lra).
  split.
  - destruct (Rlt_dec 6 (x * x)) as [?|Hn]; [assumption|exfalso].
    apply Rnot_lt_le in Hn.
    assert (0 <= x * x) by apply Rle_0_sqr.
    assert (0 <= x * x * (6 - x * x)) by (apply Rmult_le_pos; lra).
    lra.
  - destruct (Rlt_dec x 3) as [H3|Hn]; [nra|exfalso].
    apply Rnot_lt_le in Hn.
    assert (H9 : 9 <= x * x) by nra.
    assert (3 * (x * x) <= x * x * (x * x - 6)).
    { assert (0 <= x * x * (x * x - 9)) by (apply Rmult_le_pos; lra). lra. }
    assert (9 * x <= 3 * (x * x)) by nra.
    assert (a * x <= x) by nra.
    assert (a * a < 1) by nra.
    lra.
Qed.

(** The radius between its limits: 1 and 6 prograde, 6 and 9 retrograde. *)
Lemma isco_radius_range (a : R) :
  Rabs a < 1 ->
  1 < isco_radius true a <= 6 /\ 6 <= isco_radius false a < 9 /\
  (a <> 0 -> isco_radius true a < 6 < isco_radius false a).
Proof.
  intros Ha. rewrite <- (isco_radius_abs true a), <- (isco_radius_abs false a).
  pose proof (Rabs_pos a) as Hb0.
  destruct (Req_dec a 0) as [->|Hz].
  { rewrite Rabs_R0, !isco_radius_schwarzschild.
    split; [lra|]. split; [lra|]. intros H; contradiction. }
  assert (Hb : 0 < Rabs a < 1) by (split; [apply Rabs_pos_lt; exact Hz|exact Ha]).
  set (b := Rabs a) in *.
  pose proof (isco_sqrt_quartic_pro b Hb) as Q1.
  pose proof (isco_sqrt_quartic_retro b Hb) as Q2.
  pose proof (isco_radius_nonneg true b Hb) as P1.
  pose proof (isco_radius_nonneg false b Hb) as P2.
  pose proof (sqrt_sqrt _ P1) as S1. pose proof (sqrt_sqrt _ P2) as S2.
  pose proof (sqrt_pos (isco_radius true b)) as N1.
  pose proof (sqrt_pos (isco_radius false b)) as N2.
  set (x1 := sqrt (isco_radius true b)) in *.
  set (x2 := sqrt (isco_radius false b)) in *.
  assert (G1 : 1 < x1) by (apply (prograde_root_gt_1 x1 b); auto).
  pose proof (prograde_root_below_sqrt6 x1 b Hb G1 Q1) as U1.
  pose proof (retrograde_root_range x2 b Hb N2 Q2) as U2.
  rewrite <- S1, <- S2.
  split; [nra|]. split; [lra|]. intros _. lra.
Qed.

(** At a root of the quartic the energy is sqrt(1 - 2 / (3 r)). *)
Lemma energy_at_quartic_root (x t : R) :
  0 < x -> x <> t -> quartic_pro x t = 0 ->
  0 < x * x * x - 2 * x + t ->
  orbit_energy (x * x) t = sqrt (1 - 2 / (3 * (x * x))).
Proof.
  intros Hx Hxt Hq Hn. unfold quartic_pro in Hq.
  assert (Hs : sqrt (x * x) = x) by (apply sqrt_square; lra).
  assert (Hg : x * (x * x * x - 3 * x + 2 * t) = 3 * ((x - t) * (x - t)))
    by nra.
  assert (Hd : 0 < (x - t) * (x - t)).
  { destruct (Rlt_dec x t); [|assert (t < x) by lra];
      [replace ((x - t) * (x - t)) with ((t - x) * (t - x)) by ring|];
      apply Rmult_lt_0_compat; lra. }
  assert (Hg0 : 0 < x * x * x - 3 * x + 2 * t).
  { destruct (Rlt_dec 0 (x * x * x - 3 * x + 2 * t)) as [?|Hn'];
      [assumption|exfalso].
    apply Rnot_lt_le in Hn'.
    assert (x * (x * x * x - 3 * x + 2 * t) <= 0) by nra. lra. }
  assert (Hxx : 0 < x * x) by (apply Rmult_lt_0_compat; lra).
  assert (HP0 : 0 < Rpower (x * x) 0.75) by (unfold Rpower; apply exp_pos).
  assert (HP : Rpower (x * x) 0.75 * Rpower (x * x) 0.75 = x * x * x).
  { rewrite <- Rpower_plus. replace (0.75 + 0.75) with 1.5 by lra.
    rewrite Rpower_three_halves by assumption. rewrite Hs. ring. }
  unfold orbit_energy, orbit_inner. rewrite Hs.
  set (g := x * x * x - 3 * x + 2 * t) in *.
  set (n := x * x * x - 2 * x + t) in *.
  set (P := Rpower (x * x) 0.75) in *.
  assert (Hq0 : 0 < sqrt g) by (apply sqrt_lt_R0; exact Hg0).
  assert (Hqq : sqrt g * sqrt g = g) by (apply sqrt_sqrt; lra).
  symmetry. apply sqrt_lem_1.
  - assert (Hnn : n * n = (3 * (x * x) - 2) * ((x - t) * (x - t)))
      by (unfold n; nra).
    assert (0 <= 3 * (x * x) - 2).
    { destruct (Rle_dec 0 (3 * (x * x) - 2)) as [?|Hn']; [assumption|exfalso].
      apply Rnot_le_lt in Hn'.
      assert (0 < (2 - 3 * (x * x)) * ((x - t) * (x - t)))
        by (apply Rmult_lt_0_compat; lra).
      pose proof (Rle_0_sqr n) as Hsq. unfold Rsqr in Hsq. lra. }
    assert (2 / (3 * (x * x)) <= 1).
    { apply Rmult_le_reg_r with (3 * (x * x)); [lra|].
      unfold Rdiv. rewrite Rmult_assoc, Rinv_l by lra. lra. }
    lra.
  - apply Rlt_le. apply Rdiv_lt_0_compat; [exact Hn|].
    apply Rmult_lt_0_compat; assumption.
  - replace (n / (P * sqrt g) * (n / (P * sqrt g)))
      with (n * n / (P * P * (sqrt g * sqrt g))) by (field; split; lra).
    rewrite HP, Hqq.
    assert (Hnn : n * n = (3 * (x * x) - 2) * ((x - t) * (x - t)))
      by (unfold n; nra).
    rewrite Hnn.
    replace (x * x * x * g) with (x * x * (x * g)) by ring.
    rewrite Hg. field. split; lra.
Qed.

End IscoRange.

(** ** The efficiency as a function of the ISCO radius *)

Section EfficiencyFormula.

(** What eta computes from the entry r of r_isco. *)
Lemma efficiency_closed_form (prograde : bool) (a : R) :
  Rabs a < 1 ->
  efficiency prograde a = 1 - sqrt (1 - 2 / (3 * isco_radius prograde a)).
Proof.
  intros Ha. unfold efficiency. f_equal.
  destruct (isco_stable prograde a Ha) as [Hr Hin].
  rewrite <- (isco_radius_abs prograde a) in *.
  pose proof (Rabs_pos a) as Hb0.
  set (b := Rabs a) in *.
  assert (Ht : spin_term prograde a = if prograde then b else - b)
    by reflexivity.
  rewrite Ht in *. clear Ht.
  pose proof (sqrt_sqrt _ (Rlt_le _ _ Hr)) as Hx.
  assert (Hx0 : 0 < sqrt (isco_radius prograde b))
    by (apply sqrt_lt_R0; exact Hr).
  unfold orbit_inner in Hin.
  assert (Hq : quartic_pro (sqrt (isco_radius prograde b))
                 (if prograde then b else - b) = 0).
  { destruct (Req_dec b 0) as [Hz|Hz].
    - rewrite Hz in *. rewrite isco_radius_schwarzschild in *.
      unfold quartic_pro.
      replace (sqrt 6 * sqrt 6 * sqrt 6 * sqrt 6)
        with (sqrt 6 * sqrt 6 * (sqrt 6 * sqrt 6)) by ring.
      rewrite Hx. destruct prograde; ring.
    - destruct prograde.
      + apply isco_sqrt_quartic_pro. lra.
      + rewrite <- quartic_retro_as_pro. apply isco_sqrt_quartic_retro. lra. }
  set (x := sqrt (isco_radius prograde b)) in *.
  assert (Hxt : (if prograde then b else - b) < x).
  { destruct prograde; [|lra].
    destruct (Req_dec b 0) as [Hz|Hz]; [lra|].
    assert (1 < x) by (apply (prograde_root_gt_1 x b); lra). lra. }
  rewrite <- Hx in Hin |- *.
  apply energy_at_quartic_root; try assumption; lra.
Qed.

Lemma binding_energy_decreasing (r1 r2 : R) :
  2 / 3 <= r1 -> r1 < r2 ->
  1 - sqrt (1 - 2 / (3 * r2)) < 1 - sqrt (1 - 2 / (3 * r1)).
Proof.
  intros H1 H12.
  assert (2 / (3 * r2) < 2 / (3 * r1)).
  { unfold Rdiv. apply Rmult_lt_compat_l; [lra|].
    apply Rinv_lt_contravar; [apply Rmult_lt_0_compat; lra|lra]. }
  assert (2 / (3 * r1) <= 1).
  { apply Rmult_le_reg_r with (3 * r1); [lra|].
    unfold Rdiv. rewrite Rmult_assoc, Rinv_l by lra. lra. }
  assert (sqrt (1 - 2 / (3 * r1)) < sqrt (1 - 2 / (3 * r2)))
    by (apply sqrt_lt_1_alt; lra).
  lra.
Qed.

Lemma binding_energy_at (r : R) (q : R) :
  0 < r -> 1 - 2 / (3 * r) = q -> 1 - sqrt (1 - 2 / (3 * r)) = 1 - sqrt q.
Proof. intros _ ->. reflexivity. Qed.

(** The efficiency between its limits, and its direction of change. *)
Lemma efficiency_range (a : R) :
  Rabs a < 1 ->
  1 - sqrt (8 / 9) <= efficiency true a < 1 - sqrt (1 / 3) /\
  1 - sqrt (25 / 27) < efficiency false a <= 1 - sqrt (8 / 9).
Proof.
  intros Ha. rewrite !efficiency_closed_form by assumption.
  destruct (isco_radius_range a Ha) as [[P1 P2] [[Q1 Q2] _]].
  rewrite <- (binding_energy_at 6 (8 / 9)) by lra.
  rewrite <- (binding_energy_at 1 (1 / 3)) by lra.
  rewrite <- (binding_energy_at 9 (25 / 27)) by lra.
  repeat split.
  - destruct P2 as [P2 | ->]; [|lra].
    apply Rlt_le. apply binding_energy_decreasing; lra.
  - apply binding_energy_decreasing; lra.
  - apply binding_energy_decreasing; lra.
  - destruct Q1 as [Q1 | <-]; [|lra].
    apply Rlt_le. apply binding_energy_decreasing; lra.
Qed.

Lemma efficiency_monotonic (a1 a2 : R) :
  0 <= a1 -> a1 < a2 -> a2 < 1 ->
  efficiency true a1 < efficiency true a2 /\
  efficiency false a2 < efficiency false a1.
Proof.
  intros H0 H12 H1.
  assert (A1 : Rabs a1 < 1) by (rewrite Rabs_pos_eq; lra).
  assert (A2 : Rabs a2 < 1) by (rewrite Rabs_pos_eq; lra).
  rewrite !efficiency_closed_form by assumption.
  destruct (isco_radius_range a1 A1) as [[P1 P1'] [[Q1 Q1'] _]].
  destruct (isco_radius_range a2 A2) as [[P2 P2'] [[Q2 Q2'] S2]].
  assert (Hn : a2 <> 0) by lra. specialize (S2 Hn).
  destruct (Req_dec a1 0) as [->|Hz].
  - rewrite !isco_radius_schwarzschild.
    split; apply binding_energy_decreasing; lra.
  - split; apply binding_energy_decreasing; try lra.
    + apply isco_radius_prograde_decreasing; lra.
    + apply isco_radius_retrograde_increasing; lra.
Qed.

End EfficiencyFormula.

Section IscoModuleProperties.




(** X2.  The efficiency is a function of the ISCO radius alone: on an array
    of spins of modulus below 1, every entry of [eta] is
    1 - sqrt(1 - 2 / (3 r)) for the entry r of [r_isco]. *)
Theorem eta_from_r_isco (a : np.ndarray) (prograde : bool) :
  np.wf a ->
  Forall (fun v => Rabs v < 1) (np.data a) ->
  exists radii,
    r_isco a prograde = Ok radii /\
    eta a prograde =
      Ok (np.map1 (fun r => 1 - sqrt (1 - 2 / (3 * r))) radii).
Proof.
  intros Hwf Hall. exists (np.map1 (isco_radius prograde) a).
  split; [apply r_isco_array; assumption|].
  rewrite eta_array by assumption. unfold np.map1.
  cbn [np.shape np.data]. rewrite map_map. do 2 f_equal.
  apply map_ext_in. intros v Hv. apply efficiency_closed_form.
  rewrite Forall_forall in Hall. apply Hall. exact Hv.
Qed.

Lemma eta_from_r_isco_witness :
  exists radii,
    r_isco (np.mk [2%nat] [0; 1 / 2]) false = Ok radii /\
    eta (np.mk [2%nat] [0; 1 / 2]) false =
      Ok (np.map1 (fun r => 1 - sqrt (1 - 2 / (3 * r))) radii).
Proof.
  apply (eta_from_r_isco (np.mk [2%nat] [0; 1 / 2]) false).
  - reflexivity.
  - cbn [np.data]. repeat constructor.
    + rewrite Rabs_R0. lra.
    + rewrite Rabs_pos_eq; lra.
Defined.

(** X3.  The efficiency grows with the spin for prograde orbits and falls
    for retrograde ones, between the value 1 - sqrt(8/9) it takes at spin 0
    and the limits 1 - sqrt(1/3), respectively 1 - sqrt(25/27), at spin 1. *)
Theorem eta_monotonic (a1 a2 : R) :
  0 <= a1 -> a1 < a2 -> a2 < 1 ->
  exists p1 p2 q1 q2 : R,
    eta (np.scalar a1) true = Ok (np.scalar p1) /\
    eta (np.scalar a2) true = Ok (np.scalar p2) /\
    eta (np.scalar a1) false = Ok (np.scalar q1) /\
    eta (np.scalar a2) false = Ok (np.scalar q2) /\
    1 - sqrt (8 / 9) <= p1 /\ p1 < p2 /\ p2 < 1 - sqrt (1 / 3) /\
    1 - sqrt (25 / 27) < q2 /\ q2 < q1 /\ q1 <= 1 - sqrt (8 / 9) /\
    (a1 = 0 -> p1 = 1 - sqrt (8 / 9) /\ q1 = 1 - sqrt (8 / 9)).
Proof.
  intros H0 H12 H1.
  assert (A1 : Rabs a1 < 1) by (rewrite Rabs_pos_eq; lra).
  assert (A2 : Rabs a2 < 1) by (rewrite Rabs_pos_eq; lra).
  exists (efficiency true a1), (efficiency true a2),
         (efficiency false a1), (efficiency false a2).
  rewrite !eta_scalar by assumption.
  destruct (efficiency_monotonic a1 a2 H0 H12 H1) as [M1 M2].
  destruct (efficiency_range a1 A1) as [[R1 _] [_ R2]].
  destruct (efficiency_range a2 A2) as [[_ R3] [R4 _]].
  repeat (split; [first [reflexivity | assumption]|]).
  intros ->. rewrite !efficiency_closed_form by assumption.
  rewrite !isco_radius_schwarzschild.
  rewrite (binding_energy_at 6 (8 / 9)) by lra. split; reflexivity.
Qed.

Lemma eta_monotonic_witness :
  exists p1 p2 q1 q2 : R,
    eta (np.scalar 0) true = Ok (np.scalar p1) /\
    eta (np.scalar (1 / 2)) true = Ok (np.scalar p2) /\
    eta (np.scalar 0) false = Ok (np.scalar q1) /\
    eta (np.scalar (1 / 2)) false = Ok (np.scalar q2) /\
    1 - sqrt (8 / 9) <= p1 /\ p1 < p2 /\ p2 < 1 - sqrt (1 / 3) /\
    1 - sqrt (25 / 27) < q2 /\ q2 < q1 /\ q1 <= 1 - sqrt (8 / 9) /\
    (0 = 0 -> p1 = 1 - sqrt (8 / 9) /\ q1 = 1 - sqrt (8 / 9)).
Proof. apply (eta_monotonic 0 (1 / 2)); lra. Defined.

End IscoModuleProperties.

Section SpinSign.

Lemma abs_of_negated (a : np.ndarray) :
  np.map1 Rabs (np.map1 Ropp a) = np.map1 Rabs a.
Proof.
  unfold np.map1. cbn [np.shape np.data]. rewrite map_map. f_equal.
  apply map_ext. intros v. apply Rabs_Ropp.
Qed.

Lemma validate_spin_negated (a : np.ndarray) :
  _validate_spin (np.map1 Ropp a) = _validate_spin a.
Proof.
  unfold _validate_spin, np.any, np.map1. cbn [np.data].
  rewrite existsb_map.
  replace (existsb (fun v => Rgeb (Rabs (- v)) 1) (np.data a))
    with (existsb (fun v => Rgeb (Rabs v) 1) (np.data a)); [reflexivity|].
  induction (np.data a) as [|v l IH]; [reflexivity|].
  cbn [existsb]. rewrite Rabs_Ropp, IH. reflexivity.
Qed.

(** X4.  The ISCO module reads the spin through its modulus only: negating
    every entry of the spin array changes neither the outcome of [z1] nor
    those of [r_isco], [E_equatorial] and [eta], errors included.  The
    sense of the orbit comes from the flag [prograde] alone. *)
Theorem isco_ignores_spin_sign (r a : np.ndarray) (prograde : bool) :
  z1 (np.map1 Ropp a) = z1 a /\
  r_isco (np.map1 Ropp a) prograde = r_isco a prograde /\
  E_equatorial r (np.map1 Ropp a) prograde = E_equatorial r a prograde /\
  eta (np.map1 Ropp a) prograde = eta a prograde.
Proof.
  assert (HE : forall r', E_equatorial r' (np.map1 Ropp a) prograde
                          = E_equatorial r' a prograde).
  { intros r'. unfold E_equatorial.
    rewrite validate_spin_negated, abs_of_negated. reflexivity. }
  assert (HR : r_isco (np.map1 Ropp a) prograde = r_isco a prograde).
  { unfold r_isco. rewrite validate_spin_negated, abs_of_negated.
    reflexivity. }
  split.
  { unfold z1. rewrite validate_spin_negated, abs_of_negated. reflexivity. }
  split; [exact HR|]. split; [apply HE|].
  unfold eta. rewrite HR. destruct (r_isco a prograde) as [radii|e];
    [|reflexivity].
  cbn [bind]. rewrite HE. reflexivity.
Qed.

End SpinSign.

(** ** Spherical photon orbits above the horizon *)

Section PhotonOrbits.

Lemma xi_eta_valid (r a : R) :
  1.0e-12 <= Rabs a < 1 ->
  1 + sqrt (1 - a * a) + 1.0e-6 <= r ->
  xi_eta_spherical r a = Ok (xi_of r a, eta_of r a).
Proof.
  intros Ha Hr. pose proof (sqrt_pos (1 - a * a)) as Hs.
  apply (xi_eta_value r a Ha); [lra|].
  rewrite Rabs_pos_eq; lra.
Qed.

Lemma xi_of_cubic (r a : R) :
  a <> 0 -> r <> 1 -> a * (r - 1) * xi_of r a = - photon_cubic r a.
Proof.
  intros Ha Hr. unfold xi_of, photon_cubic. field. split; [lra|assumption].
Qed.


Lemma spin_nonzero (a : R) : 1.0e-12 <= Rabs a -> a <> 0.
Proof. intros H E. rewrite E, Rabs_R0 in H. lra. Qed.

(** The outcome of [xi_eta_spherical], whatever the arguments. *)
Lemma xi_eta_cases (r a : R) :
  (xi_eta_spherical r a = Raise ValueError /\
   (Rabs a < 1.0e-12 \/ Rabs a >= 1 \/ r <= 1 + sqrt (1 - a * a) \/
    Rabs (2 * r - 2) < 1.0e-12)) \/
  (xi_eta_spherical r a = Ok (xi_of r a, eta_of r a) /\
   1.0e-12 <= Rabs a < 1 /\ 1 + sqrt (1 - a * a) < r /\
   1.0e-12 <= Rabs (2 * r - 2)).
Proof.
  destruct (Rlt_dec (Rabs a) 1.0e-12) as [H0|H0].
  { left. split; [apply xi_eta_small_spin; assumption|tauto]. }
  destruct (Rge_dec (Rabs a) 1) as [H1|H1].
  { left. split; [|tauto]. unfold xi_eta_spherical.
    destruct (Rlt_dec (Rabs a) 1.0e-12); [reflexivity|].
    rewrite horizon_radius_raises by assumption. reflexivity. }
  destruct (Rle_dec r (1 + sqrt (1 - a * a))) as [Hr|Hr].
  { left. split; [apply xi_eta_rejects; [lra|tauto]|tauto]. }
  destruct (Rlt_dec (Rabs (2 * r - 2)) 1.0e-12) as [Hd|Hd].
  { left. split; [apply xi_eta_rejects; [lra|tauto]|tauto]. }
  right. split; [apply (xi_eta_value r a); lra|]. lra.
Qed.

Lemma xi_of_neg (r a : R) :
  a <> 0 -> r <> 1 -> xi_of r (- a) = - xi_of r a.
Proof. intros Ha Hr. unfold xi_of. field. split; [lra|assumption]. Qed.

Lemma eta_of_neg (r a : R) :
  a <> 0 -> r <> 1 -> eta_of r (- a) = eta_of r a.
Proof.
  intros Ha Hr. unfold eta_of. rewrite xi_of_neg by assumption.
  replace (- a * - a) with (a * a) by ring. ring.
Qed.

(** Reversing the spin reverses xi and keeps eta, errors included. *)
Lemma xi_eta_neg (r a : R) :
  xi_eta_spherical r (- a) =
    ('(xi, eta) <- xi_eta_spherical r a ;; Ok (- xi, eta)).
Proof.
  destruct (xi_eta_cases r a) as [[E H]|[E (Ha & Hr & Hd)]]; rewrite E;
    cbn [bind].
  - destruct (xi_eta_cases r (- a)) as [[E' _]|[_ (Ha' & Hr' & Hd')]];
      [exact E'|exfalso].
    rewrite Rabs_Ropp in Ha'.
    replace (- a * - a) with (a * a) in Hr' by ring.
    destruct H as [H|[H|[H|H]]]; lra.
  - assert (Hz : a <> 0) by (apply spin_nonzero; lra).
    assert (Hr1 : r <> 1).
    { intros E1. rewrite E1 in Hd.
      replace (2 * 1 - 2) with 0 in Hd by ring. rewrite Rabs_R0 in Hd. lra. }
    rewrite (xi_eta_value r (- a)).
    + fold (xi_of r (- a)). fold (eta_of r (- a)).
      rewrite xi_of_neg, eta_of_neg by assumption. reflexivity.
    + rewrite Rabs_Ropp. exact Ha.
    + replace (- a * - a) with (a * a) by ring. exact Hr.
    + exact Hd.
Qed.

End PhotonOrbits.

(** ** The projection onto the screen *)

Section ScreenProjection.

Lemma beta_squared_neg (xi eta a inc_deg : R) :
  beta_squared (- xi) eta (- a) inc_deg = beta_squared xi eta a inc_deg.
Proof. unfold beta_squared. cbv zeta. unfold Rdiv. ring. Qed.

Lemma screen_coords_neg (xi eta a inc_deg : R) :
  screen_coords (- xi) eta (- a) inc_deg =
  match screen_coords xi eta a inc_deg with
  | (Fin alpha, Fin beta) => (Fin (- alpha), Fin beta)
  | other => other
  end.
Proof.
  rewrite !screen_coords_unfold, beta_squared_neg.
  destruct (Rlt_dec (beta_squared xi eta a inc_deg) 0); [reflexivity|].
  do 2 f_equal. unfold Rdiv. ring.
Qed.

Lemma floored_sin_exact (inc_deg : R) :
  1.0e-15 <= Rabs (sin (np.deg2rad inc_deg)) ->
  floored_sin inc_deg = sin (np.deg2rad inc_deg).
Proof.
  intros H. unfold floored_sin. cbv zeta.
  destruct (Rlt_dec _ 1.0e-15); [lra|reflexivity].
Qed.

(** X5.  Away from the floor on sin i, a screen point lies at the distance
    from the origin that the constants of motion fix:
    alpha^2 + beta^2 = xi^2 + eta + a^2 cos^2 i, with beta >= 0. *)
Theorem screen_coords_distance (xi eta a inc_deg alpha beta : R) :
  1.0e-15 <= Rabs (sin (np.deg2rad inc_deg)) ->
  screen_coords xi eta a inc_deg = (Fin alpha, Fin beta) ->
  0 <= beta /\
  alpha * alpha + beta * beta =
    xi * xi + eta + a * a * (cos (np.deg2rad inc_deg)
                             * cos (np.deg2rad inc_deg)).
Proof.
  intros Hs E. rewrite screen_coords_unfold in E.
  destruct (Rlt_dec (beta_squared xi eta a inc_deg) 0) as [H|H];
    [discriminate|].
  apply Rnot_lt_le in H.
  assert (Ea : alpha = - xi / floored_sin inc_deg) by congruence.
  assert (Eb : beta = sqrt (beta_squared xi eta a inc_deg)) by congruence.
  split; [rewrite Eb; apply sqrt_pos|].
  rewrite Ea, Eb, sqrt_sqrt by exact H.
  unfold beta_squared. cbv zeta. rewrite floored_sin_exact by exact Hs.
  set (s := sin (np.deg2rad inc_deg)) in *.
  set (c := cos (np.deg2rad inc_deg)).
  assert (Hz : s <> 0) by (intros Z; rewrite Z, Rabs_R0 in Hs; lra).
  assert (Hsc : c * c = 1 - s * s).
  { pose proof (sin2_cos2 (np.deg2rad inc_deg)) as P. unfold Rsqr in P.
    fold s in P. fold c in P. lra. }
  cbn [pow]. rewrite !Rmult_1_r, Hsc. field. exact Hz.
Qed.

Lemma screen_coords_distance_witness :
  0 <= sqrt (beta_squared 1 3 0 90) /\
  - 1 / floored_sin 90 * (- 1 / floored_sin 90)
  + sqrt (beta_squared 1 3 0 90) * sqrt (beta_squared 1 3 0 90) =
    1 * 1 + 3 + 0 * 0 * (cos (np.deg2rad 90) * cos (np.deg2rad 90)).
Proof.
  assert (Hq : np.deg2rad 90 = PI / 2) by (unfold np.deg2rad; lra).
  assert (Hb : beta_squared 1 3 0 90 = 3).
  { unfold beta_squared. cbv zeta. rewrite Hq, cos_PI2. unfold Rdiv. ring. }
  apply (screen_coords_distance 1 3 0 90).
  - rewrite Hq, sin_PI2, Rabs_R1. lra.
  - rewrite screen_coords_unfold, Hb.
    destruct (Rlt_dec 3 0); [lra|reflexivity].
Defined.

End ScreenProjection.

(** ** The sampling loop of [shadow_boundary] *)

Section SamplingLoop.

(** The loop never fails: it appends, radius by radius, what [accepted]
    yields. *)
Lemma trace_points_flat_map (a inc_deg : R) (r_grid : list R)
  (points : list (R * R)) :
  trace_points a inc_deg r_grid points =
    Ok (points ++ flat_map (accepted a inc_deg) r_grid).
Proof.
  revert points. induction r_grid as [|r r_grid IH]; intros points.
  { cbn [trace_points flat_map]. rewrite app_nil_r. reflexivity. }
  cbn [trace_points flat_map]. unfold accepted at 1.
  destruct (xi_eta_cases r a) as [[E _]|[E _]]; rewrite E.
  - apply IH.
  - destruct (screen_coords (xi_of r a) (eta_of r a) a inc_deg)
      as [[|alpha] [|beta]]; rewrite IH; try reflexivity.
    rewrite <- app_assoc. reflexivity.
Qed.

Lemma accepted_cases (a inc_deg r : R) :
  accepted a inc_deg r = [] \/
  exists alpha beta,
    accepted a inc_deg r = [(alpha, beta); (alpha, - beta)] /\
    screen_coords (xi_of r a) (eta_of r a) a inc_deg = (Fin alpha, Fin beta).
Proof.
  unfold accepted.
  destruct (xi_eta_cases r a) as [[E _]|[E _]]; rewrite E; [left; reflexivity|].
  destruct (screen_coords (xi_of r a) (eta_of r a) a inc_deg)
    as [[|alpha] [|beta]]; try (left; reflexivity).
  right. exists alpha, beta. split; reflexivity.
Qed.

Lemma accepted_points_shape (a inc_deg : R) (r_grid : list R) :
  let pts := flat_map (accepted a inc_deg) r_grid in
  Nat.Even (length pts) /\ (length pts <= 2 * length r_grid)%nat /\
  forall p, In p pts -> In (mirror_beta p) pts.
Proof.
  cbv zeta. induction r_grid as [|r r_grid (IH1 & IH2 & IH3)].
  { cbn [flat_map length]. split; [exists 0%nat; reflexivity|].
    split; [lia|]. intros p []. }
  cbn [flat_map]. rewrite length_app.
  destruct (accepted_cases a inc_deg r) as [E|(alpha & beta & E & _)];
    rewrite E.
  - cbn [length app]. split; [exact IH1|]. split; [lia|exact IH3].
  - cbn [length]. split.
    { destruct IH1 as [m Hm]. exists (S m). lia. }
    split; [lia|]. intros p Hp. apply in_app_or in Hp. apply in_or_app.
    destruct Hp as [Hp|Hp]; [left|right; apply IH3; exact Hp].
    destruct Hp as [<- | [<- | []]]; unfold mirror_beta; cbn [fst snd].
    + right. left. reflexivity.
    + left. rewrite Ropp_involutive. reflexivity.
Qed.

Lemma candidate_radius_neg (a : R) (n : Z) (k : nat) :
  candidate_radius (- a) n k = candidate_radius a n k.
Proof.
  unfold candidate_radius. replace (- a * - a) with (a * a) by ring.
  reflexivity.
Qed.

Lemma accepted_neg (a inc_deg r : R) :
  accepted (- a) inc_deg r = map mirror_alpha (accepted a inc_deg r).
Proof.
  unfold accepted. rewrite xi_eta_neg.
  destruct (xi_eta_spherical r a) as [[xi eta_val]|e]; [|reflexivity].
  cbn [bind]. rewrite screen_coords_neg.
  destruct (screen_coords xi eta_val a inc_deg) as [[|alpha] [|beta]];
    reflexivity.
Qed.

Lemma flat_map_accepted_neg (a inc_deg : R) (r_grid : list R) :
  flat_map (accepted (- a) inc_deg) r_grid =
  map mirror_alpha (flat_map (accepted a inc_deg) r_grid).
Proof.
  induction r_grid as [|r r_grid IH]; [reflexivity|].
  cbn [flat_map]. rewrite map_app, IH, accepted_neg. reflexivity.
Qed.

(** The general branch, as a function of the sampled radii. *)
Lemma shadow_boundary_general
  (argsort : list R -> list nat) (a inc_deg : R) (n : Z) :
  1.0e-12 <= Rabs a < 1 ->
  _FACEON_TOL <= Rabs (sin (np.deg2rad inc_deg)) ->
  (100 <= n)%Z ->
  shadow_boundary argsort a inc_deg n =
    match flat_map (accepted a inc_deg)
            (map (candidate_radius a n) (seq 0 (Z.to_nat (n / 2)))) with
    | [] => Ok ([], [])
    | p :: pts => Ok (sort_by_polar_angle argsort (p :: pts))
    end.
Proof.
  intros Ha Hi Hn. rewrite shadow_boundary_sampling by assumption.
  rewrite trace_points_flat_map. cbn [bind app].
  destruct (flat_map _ _); reflexivity.
Qed.

Lemma shadow_boundary_general_points
  (argsort : list R -> list nat) (a inc_deg : R) (n : Z) :
  argsort_spec argsort ->
  1.0e-12 <= Rabs a < 1 ->
  _FACEON_TOL <= Rabs (sin (np.deg2rad inc_deg)) ->
  (100 <= n)%Z ->
  exists alpha beta,
    shadow_boundary argsort a inc_deg n = Ok (alpha, beta) /\
    length alpha = length beta /\
    Permutation (combine alpha beta)
      (flat_map (accepted a inc_deg)
         (map (candidate_radius a n) (seq 0 (Z.to_nat (n / 2))))).
Proof.
  intros Hsort Ha Hi Hn. rewrite shadow_boundary_general by assumption.
  destruct (flat_map _ _) as [|p pts] eqn:E.
  { exists [], []. repeat split. constructor. }
  rewrite sort_by_polar_angle_points.
  do 2 eexists. split; [reflexivity|]. rewrite !length_map.
  split; [reflexivity|]. rewrite combine_fst_snd.
  apply sorted_points_perm. exact Hsort.
Qed.

End SamplingLoop.

Section SamplingBranch.

Lemma edge_on_not_face_on : _FACEON_TOL <= Rabs (sin (np.deg2rad 90)).
Proof.
  assert (Hq : np.deg2rad 90 = PI / 2) by (unfold np.deg2rad; lra).
  rewrite Hq, sin_PI2, Rabs_R1. unfold _FACEON_TOL. lra.
Qed.

Lemma half_spin_valid : 1.0e-12 <= Rabs (1 / 2) < 1.
Proof. rewrite Rabs_pos_eq; lra. Qed.

(** X6.  Away from the face-on view, for 1e-12 <= |a| < 1 and n >= 100,
    [shadow_boundary] does not fail, whatever the sampled radii yield.  It
    returns as many alphas as betas, an even number not above n, and the
    points are symmetric about the alpha axis: with (alpha, beta) the
    boundary holds (alpha, -beta). *)
Theorem shadow_boundary_reflection_symmetric
  (argsort : list R -> list nat) (a inc_deg : R) (n : Z) :
  argsort_spec argsort ->
  1.0e-12 <= Rabs a < 1 ->
  _FACEON_TOL <= Rabs (sin (np.deg2rad inc_deg)) ->
  (100 <= n)%Z ->
  exists alpha beta,
    shadow_boundary argsort a inc_deg n = Ok (alpha, beta) /\
    length alpha = length beta /\
    Nat.Even (length alpha) /\
    (length alpha <= Z.to_nat n)%nat /\
    forall x y, In (x, y) (combine alpha beta) ->
                In (x, - y) (combine alpha beta).
Proof.
  intros Hsort Ha Hi Hn.
  destruct (shadow_boundary_general_points argsort a inc_deg n Hsort Ha Hi Hn)
    as (alpha & beta & E & Hlen & Hperm).
  exists alpha, beta. split; [exact E|]. split; [exact Hlen|].
  destruct (accepted_points_shape a inc_deg
              (map (candidate_radius a n) (seq 0 (Z.to_nat (n / 2)))))
    as (Heven & Hle & Hmir).
  rewrite <- (Permutation_length Hperm) in Heven, Hle.
  rewrite length_combine, <- Hlen, Nat.min_id in Heven, Hle.
  rewrite length_map, length_seq in Hle.
  split; [exact Heven|]. split.
  - assert (2 * (n / 2) <= n)%Z by (apply Z.mul_div_le; lia).
    assert (0 <= n / 2)%Z by (apply Z.div_pos; lia). lia.
  - intros x y Hin.
    apply (Permutation_in _ (Permutation_sym Hperm)).
    apply (Hmir (x, y)).
    apply (Permutation_in _ Hperm). exact Hin.
Qed.

Lemma shadow_boundary_reflection_symmetric_witness :
  exists alpha beta,
    shadow_boundary insertion_argsort (1 / 2) 90 100 = Ok (alpha, beta) /\
    length alpha = length beta /\
    Nat.Even (length alpha) /\
    (length alpha <= Z.to_nat 100)%nat /\
    forall x y, In (x, y) (combine alpha beta) ->
                In (x, - y) (combine alpha beta).
Proof.
  apply (shadow_boundary_reflection_symmetric insertion_argsort (1 / 2) 90 100).
  - exact insertion_argsort_sorts.
  - exact half_spin_valid.
  - exact edge_on_not_face_on.
  - lia.
Defined.

(** X7.  Reversing the spin reflects the boundary in the beta axis: away
    from the face-on view the points returned for -a are, up to their
    order, those returned for a with alpha negated. *)
Theorem shadow_boundary_spin_reversal
  (argsort : list R -> list nat) (a inc_deg : R) (n : Z) :
  argsort_spec argsort ->
  1.0e-12 <= Rabs a < 1 ->
  _FACEON_TOL <= Rabs (sin (np.deg2rad inc_deg)) ->
  (100 <= n)%Z ->
  exists alpha beta alpha' beta',
    shadow_boundary argsort a inc_deg n = Ok (alpha, beta) /\
    shadow_boundary argsort (- a) inc_deg n = Ok (alpha', beta') /\
    Permutation (combine alpha' beta')
                (map mirror_alpha (combine alpha beta)).
Proof.
  intros Hsort Ha Hi Hn.
  assert (Ha' : 1.0e-12 <= Rabs (- a) < 1) by (rewrite Rabs_Ropp; exact Ha).
  destruct (shadow_boundary_general_points argsort a inc_deg n Hsort Ha Hi Hn)
    as (alpha & beta & E & _ & Hperm).
  destruct (shadow_boundary_general_points argsort (- a) inc_deg n
              Hsort Ha' Hi Hn) as (alpha' & beta' & E' & _ & Hperm').
  exists alpha, beta, alpha', beta'. split; [exact E|]. split; [exact E'|].
  eapply Permutation_trans; [exact Hperm'|].
  rewrite (map_ext (candidate_radius (- a) n) (candidate_radius a n))
    by (intros k; apply candidate_radius_neg).
  rewrite flat_map_accepted_neg.
  apply Permutation_map. apply Permutation_sym. exact Hperm.
Qed.

Lemma shadow_boundary_spin_reversal_witness :
  exists alpha beta alpha' beta',
    shadow_boundary insertion_argsort (1 / 2) 90 100 = Ok (alpha, beta) /\
    shadow_boundary insertion_argsort (- (1 / 2)) 90 100
      = Ok (alpha', beta') /\
    Permutation (combine alpha' beta')
                (map mirror_alpha (combine alpha beta)).
Proof.
  apply (shadow_boundary_spin_reversal insertion_argsort (1 / 2) 90 100).
  - exact insertion_argsort_sorts.
  - exact half_spin_valid.
  - exact edge_on_not_face_on.
  - lia.
Defined.

End SamplingBranch.

(** ** The face-on orbit: scan and bisection *)

Section FaceOnSolver.

Variable a : R.
Hypothesis a_valid : 1.0e-12 <= Rabs a < 1.

Lemma spin_sq_range : 0 < a * a < 1.
Proof.
  pose proof (spin_nonzero a (proj1 a_valid)) as Hz.
  pose proof (sq_lt_1_of_abs a (proj2 a_valid)).
  split; [nra|assumption].
Qed.

Lemma horizon_sqrt_range : 0 <= sqrt (1 - a * a) <= 1.
Proof.
  pose proof spin_sq_range as Ha. split; [apply sqrt_pos|].
  rewrite <- sqrt_1 at 2. apply sqrt_le_1_alt. lra.
Qed.

Lemma cubic_negative_below (r : R) :
  1 < r <= 2.41 -> photon_cubic r a < 0.
Proof.
  intros Hr. pose proof spin_sq_range as Ha. unfold photon_cubic.
  assert (a * a * (r + 1) < r + 1) by nra.
  assert (0 <= (2.41 - r) * (r + 0.41)) by (apply Rmult_le_pos; lra).
  assert (0 <= (r - 1) * (1 + 2 * r - r * r)) by (apply Rmult_le_pos; lra).
  lra.
Qed.

Lemma cubic_positive_above (r : R) : 3 <= r -> 0 < photon_cubic r a.
Proof.
  intros Hr. pose proof spin_sq_range as Ha. unfold photon_cubic.
  assert (0 <= r * r * (r - 3)) by (apply Rmult_le_pos; nra).
  assert (0 < a * a * (r + 1)) by (apply Rmult_lt_0_compat; lra).
  nra.
Qed.

Lemma cubic_difference (r1 r2 : R) :
  photon_cubic r2 a - photon_cubic r1 a =
  (r2 - r1) * (r2 * r2 + r1 * r2 + r1 * r1 - 3 * (r1 + r2) + a * a).
Proof. unfold photon_cubic. ring. Qed.

Lemma cubic_increasing (r1 r2 : R) :
  2 <= r1 -> r1 <= r2 -> photon_cubic r1 a <= photon_cubic r2 a.
Proof.
  intros H1 H12. pose proof spin_sq_range as Ha.
  pose proof (cubic_difference r1 r2) as E.
  assert (0 <= r2 * r2 + r1 * r2 + r1 * r1 - 3 * (r1 + r2) + a * a) by nra.
  assert (0 <= (r2 - r1)
               * (r2 * r2 + r1 * r2 + r1 * r1 - 3 * (r1 + r2) + a * a))
    by (apply Rmult_le_pos; lra).
  lra.
Qed.

Lemma cubic_lipschitz (r1 r2 : R) :
  2.4 <= r1 -> r1 <= r2 -> r2 <= 3.01 ->
  photon_cubic r2 a - photon_cubic r1 a <= 14 * (r2 - r1).
Proof.
  intros H1 H12 H2. pose proof spin_sq_range as Ha.
  rewrite cubic_difference.
  assert (r2 * r2 + r1 * r2 + r1 * r1 - 3 * (r1 + r2) + a * a <= 14) by nra.
  rewrite (Rmult_comm 14). apply Rmult_le_compat_l; lra.
Qed.

(** xi and the cubic have opposite signs up to the factor a (r - 1). *)
Lemma xi_zero_iff (r : R) :
  1 < r -> (xi_of r a = 0 <-> photon_cubic r a = 0).
Proof.
  intros Hr. pose proof (spin_nonzero a (proj1 a_valid)) as Hz.
  pose proof (xi_of_cubic r a Hz ltac:(lra)) as E.
  split; intros H.
  - rewrite H in E. lra.
  - rewrite H in E.
    assert (Hc : a * (r - 1) <> 0) by (apply Rmult_integral_contrapositive; lra).
    rewrite Ropp_0 in E.
    apply Rmult_integral in E. destruct E as [E|E]; [contradiction|exact E].
Qed.

Lemma xi_product_sign (r1 r2 : R) :
  1 < r1 -> 1 < r2 ->
  (xi_of r1 a * xi_of r2 a < 0 <->
   photon_cubic r1 a * photon_cubic r2 a < 0).
Proof.
  intros H1 H2. pose proof (spin_nonzero a (proj1 a_valid)) as Hz.
  pose proof (xi_of_cubic r1 a Hz ltac:(lra)) as E1.
  pose proof (xi_of_cubic r2 a Hz ltac:(lra)) as E2.
  pose proof spin_sq_range as Ha.
  set (c := a * a * ((r1 - 1) * (r2 - 1))).
  assert (Hc : 0 < c).
  { unfold c. apply Rmult_lt_0_compat; [lra|].
    apply Rmult_lt_0_compat; lra. }
  assert (E : c * (xi_of r1 a * xi_of r2 a)
              = photon_cubic r1 a * photon_cubic r2 a).
  { replace (photon_cubic r1 a * photon_cubic r2 a)
      with ((- photon_cubic r1 a) * (- photon_cubic r2 a)) by ring.
    rewrite <- E1, <- E2. unfold c. ring. }
  rewrite <- E. split; intros H.
  - replace 0 with (c * 0) by ring. apply Rmult_lt_compat_l; assumption.
  - apply Rmult_lt_reg_l with c; [exact Hc|]. rewrite Rmult_0_r. exact H.
Qed.

Lemma xi_eta_above (r : R) :
  2 + 1.0e-6 <= r ->
  xi_eta_spherical r a = Ok (xi_of r a, eta_of r a).
Proof.
  intros Hr. apply xi_eta_valid; [exact a_valid|].
  pose proof horizon_sqrt_range. lra.
Qed.

Lemma half_pow_step (w : R) (k : nat) :
  14 * (0.5 * w) * (/ 2) ^ k = 14 * w * (/ 2) ^ S k.
Proof. cbn [pow]. lra. Qed.

(** The bisection keeps the root bracketed and halves the bracket: it never
    fails, and the cubic at what it returns is within 14 (hi - lo) / 2^steps
    of zero. *)
Lemma bisect_converges (steps : nat) :
  forall lo hi f1 : R,
    2.4 <= lo -> lo < hi -> hi <= 3.01 ->
    photon_cubic lo a < 0 -> 0 < photon_cubic hi a ->
    exists r,
      bisect a steps lo hi (xi_of lo a) f1 = Ok r /\
      lo <= r <= hi /\
      Rabs (photon_cubic r a) <= 14 * (hi - lo) * (/ 2) ^ steps.
Proof.
  induction steps as [|steps IH]; intros lo hi f1 Hlo Hlt Hhi Nlo Nhi.
  - exists (0.5 * (lo + hi)). split; [reflexivity|]. split; [lra|].
    pose proof (cubic_increasing lo (0.5 * (lo + hi)) ltac:(lra) ltac:(lra)).
    pose proof (cubic_increasing (0.5 * (lo + hi)) hi ltac:(lra) ltac:(lra)).
    pose proof (cubic_lipschitz lo hi Hlo ltac:(lra) Hhi).
    cbn [pow]. apply Rabs_le. lra.
  - cbn [bisect]. set (mid := 0.5 * (lo + hi)).
    assert (Hmid : lo < mid < hi) by (unfold mid; lra).
    rewrite (xi_eta_above mid) by lra. cbn [bind].
    assert (Hw1 : mid - lo = 0.5 * (hi - lo)) by (unfold mid; lra).
    assert (Hw2 : hi - mid = 0.5 * (hi - lo)) by (unfold mid; lra).
    destruct (Req_dec_T (xi_of mid a) 0) as [Hz|Hz].
    { exists mid. split; [reflexivity|]. split; [lra|].
      apply (xi_zero_iff mid ltac:(lra)) in Hz. rewrite Hz, Rabs_R0.
      apply Rmult_le_pos; [lra|]. apply pow_le. lra. }
    assert (Nmid : photon_cubic mid a <> 0).
    { intros E. apply Hz. apply (xi_zero_iff mid ltac:(lra)). exact E. }
    destruct (Rlt_dec (xi_of lo a * xi_of mid a) 0) as [Hs|Hs].
    + apply (xi_product_sign lo mid ltac:(lra) ltac:(lra)) in Hs.
      assert (Npos : 0 < photon_cubic mid a) by nra.
      destruct (IH lo mid (xi_of mid a) Hlo ltac:(lra) ltac:(lra) Nlo Npos)
        as (r & E & Hr & Hb).
      exists r. split; [exact E|]. split; [lra|].
      rewrite Hw1, half_pow_step in Hb. exact Hb.
    + assert (Nneg : photon_cubic mid a < 0).
      { destruct (Rlt_dec (photon_cubic mid a) 0) as [?|Hn]; [assumption|].
        exfalso. apply Hs.
        apply (xi_product_sign lo mid ltac:(lra) ltac:(lra)).
        assert (0 < photon_cubic mid a) by lra. nra. }
      destruct (IH mid hi f1 ltac:(lra) ltac:(lra) Hhi Nneg Nhi)
        as (r & E & Hr & Hb).
      exists r. split; [exact E|]. split; [lra|].
      rewrite Hw2, half_pow_step in Hb. exact Hb.
Qed.

(** Neighbouring samples: ascending, at most 0.0096 apart. *)
Local Abbreviation near := (fun x y : R => x < y <= x + 0.0096).

(** Along samples that start where the cubic is not positive and end where
    it is positive, the second loop meets a zero or a sign change before it
    runs out. *)
Lemma find_bracket_ivt (l : list R) :
  forall r0,
    Forall (fun r => 1 < r) (r0 :: l) ->
    Sorted near (r0 :: l) ->
    photon_cubic r0 a <= 0 ->
    0 < photon_cubic (last (r0 :: l) 0) a ->
    exists r,
      find_bracket a (map (fun r => (r, xi_of r a)) (r0 :: l)) = Ok r /\
      2.4 <= r <= 3.01 /\
      Rabs (photon_cubic r a) <= 14 * 0.0096 * (/ 2) ^ 80.
Proof.
  induction l as [|r1 l IH]; intros r0 Hall Hsorted N0 Nlast.
  { cbn [last] in Nlast. lra. }
  assert (Hr0 : 1 < r0) by (inversion Hall; assumption).
  assert (Hall' : Forall (fun r => 1 < r) (r1 :: l))
    by (inversion Hall; assumption).
  assert (Hr1 : 1 < r1) by (inversion Hall'; assumption).
  assert (Hnear : r0 < r1 <= r0 + 0.0096).
  { inversion Hsorted as [|x l' _ Hhd]; subst. inversion Hhd; assumption. }
  assert (Hsorted' : Sorted near (r1 :: l))
    by (inversion Hsorted; assumption).
  assert (Hbound : 0 <= 14 * 0.0096 * (/ 2) ^ 80).
  { apply Rmult_le_pos; [lra|]. apply pow_le. lra. }
  cbn [map find_bracket].
  destruct (Req_dec_T (xi_of r0 a) 0) as [Hz|Hz].
  { apply (xi_zero_iff r0 Hr0) in Hz. exists r0. split; [reflexivity|].
    split; [|rewrite Hz, Rabs_R0; exact Hbound].
    split.
    - destruct (Rle_dec 2.4 r0) as [?|Hn]; [assumption|exfalso].
      pose proof (cubic_negative_below r0 ltac:(lra)). lra.
    - destruct (Rle_dec r0 3.01) as [?|Hn]; [assumption|exfalso].
      pose proof (cubic_positive_above r0 ltac:(lra)). lra. }
  assert (N0' : photon_cubic r0 a < 0).
  { destruct (Req_dec (photon_cubic r0 a) 0) as [E|E]; [|lra].
    exfalso. apply Hz. apply (xi_zero_iff r0 Hr0). exact E. }
  destruct (Rlt_dec (xi_of r0 a * xi_of r1 a) 0) as [Hs|Hs].
  - apply (xi_product_sign r0 r1 Hr0 Hr1) in Hs.
    assert (N1 : 0 < photon_cubic r1 a) by nra.
    assert (H1 : 2.41 < r1).
    { destruct (Rlt_dec 2.41 r1) as [?|Hn]; [assumption|exfalso].
      pose proof (cubic_negative_below r1 ltac:(lra)). lra. }
    assert (H0 : r0 < 3).
    { destruct (Rlt_dec r0 3) as [?|Hn]; [assumption|exfalso].
      pose proof (cubic_positive_above r0 ltac:(lra)). lra. }
    destruct (bisect_converges 80 r0 r1 (xi_of r1 a)
                ltac:(lra) ltac:(lra) ltac:(lra) N0' N1)
      as (r & E & Hr & Hb).
    exists r. split; [exact E|]. split; [lra|].
    eapply Rle_trans; [exact Hb|].
    apply Rmult_le_compat_r; [apply pow_le; lra|]. lra.
  - assert (N1 : photon_cubic r1 a <= 0).
    { destruct (Rle_dec (photon_cubic r1 a) 0) as [?|Hn]; [assumption|].
      exfalso. apply Hs. apply (xi_product_sign r0 r1 Hr0 Hr1).
      assert (0 < photon_cubic r1 a) by lra. nra. }
    destruct (IH r1 Hall' Hsorted' N1) as (r & E & Hr).
    { destruct l; exact Nlast. }
    exists r. split; [|exact Hr].
    cbn [map] in E. destruct l as [|r2 l]; exact E.
Qed.

Lemma find_bracket_on_samples (l : list R) :
  l <> [] ->
  Forall (fun r => 1 < r) l ->
  Sorted near l ->
  photon_cubic (nth 0 l 0) a <= 0 ->
  0 < photon_cubic (last l 0) a ->
  exists r,
    find_bracket a (map (fun r => (r, xi_of r a)) l) = Ok r /\
    2.4 <= r <= 3.01 /\
    Rabs (photon_cubic r a) <= 14 * 0.0096 * (/ 2) ^ 80.
Proof.
  destruct l as [|r0 l]; [intros H; contradiction|intros _].
  cbn [nth]. apply find_bracket_ivt.
Qed.

Local Abbreviation r_min := (1 + sqrt (1 - a * a) + 1.0e-6).

(** The first loop: every sample is above the horizon, so no NaN arises
    and every sample is kept. *)
Lemma scan_xi_valid (grid : list R) (xi_vals : list fl) :
  Forall (fun r => r_min <= r) grid ->
  scan_xi a grid xi_vals =
    Ok (xi_vals ++ map (fun r => Fin (xi_of r a)) grid).
Proof.
  intros H. revert xi_vals.
  induction H as [|r grid Hr _ IH]; intros xi_vals.
  { cbn [scan_xi map]. rewrite app_nil_r. reflexivity. }
  cbn [scan_xi map]. rewrite (xi_eta_valid r a a_valid Hr).
  rewrite IH, <- app_assoc. reflexivity.
Qed.

Lemma keep_valid_all (grid : list R) (f : R -> R) :
  keep_valid grid (map (fun r => Fin (f r)) grid) =
  map (fun r => (r, f r)) grid.
Proof.
  induction grid as [|r grid IH]; [reflexivity|].
  cbn [map keep_valid]. rewrite IH. reflexivity.
Qed.

Lemma face_on_step_eq :
  face_on_step a * (IZR 2000 - 1) = 20 - r_min.
Proof. unfold face_on_step. field. Qed.

Lemma face_on_step_range : 0 < face_on_step a <= 0.0096.
Proof.
  pose proof face_on_step_eq as E. pose proof horizon_sqrt_range as Hs.
  lra.
Qed.

Lemma face_on_linspace :
  np.linspace r_min 20 2000 true = Ok (face_on_grid a).
Proof.
  destruct (linspace_ok r_min 20 2000 true) as (step & E & _ & Hstep);
    [lia|].
  rewrite E, (Hstep eq_refl) by lia. reflexivity.
Qed.

Lemma samples_above (start step : R) (i m : nat) :
  0 <= step ->
  Forall (fun r => start <= r)
         (map (fun k => INR k * step + start) (seq i m)).
Proof.
  intros Hs. revert i. induction m as [|m IH]; intros i; cbn [seq map];
    constructor; [|apply IH].
  pose proof (pos_INR i).
  assert (0 <= INR i * step) by (apply Rmult_le_pos; assumption). lra.
Qed.

Lemma samples_sorted (start step : R) (i m : nat) :
  0 < step <= 0.0096 ->
  Sorted near (map (fun k => INR k * step + start) (seq i m)).
Proof.
  intros Hs. revert i. induction m as [|m IH]; intros i; cbn [seq map];
    constructor; [apply IH|].
  destruct m as [|m]; cbn [seq map]; constructor.
  rewrite S_INR. lra.
Qed.

Lemma last_nth_pred {A : Type} (l : list A) (d : A) :
  last l d = nth (length l - 1) l d.
Proof.
  induction l as [|x l IH]; [reflexivity|].
  destruct l as [|y l]; [reflexivity|].
  cbn [last length Nat.sub nth] in *. rewrite IH, Nat.sub_0_r. reflexivity.
Qed.

Lemma face_on_grid_first : nth 0 (face_on_grid a) 0 = r_min.
Proof.
  unfold face_on_grid. rewrite nth_map_seq by lia. cbn [INR]. ring.
Qed.

Lemma face_on_grid_last : last (face_on_grid a) 0 = 20.
Proof.
  rewrite last_nth_pred. unfold face_on_grid.
  rewrite length_map, length_seq, nth_map_seq by lia.
  assert (Hk : INR (Z.to_nat 2000 - 1) = IZR 2000 - 1).
  { rewrite minus_INR by lia. rewrite INR_IZR_INZ, Z2Nat.id by lia.
    reflexivity. }
  rewrite Hk. pose proof face_on_step_eq as E. lra.
Qed.

(** The face-on radius is always found: neither loop runs out, the
    bisection never leaves the domain of [xi_eta_spherical], and the result
    lies near the root of the cubic between 2.4 and 3.01. *)
Lemma solve_face_on_radius_spec :
  exists r,
    _solve_face_on_radius a = Ok r /\
    2.4 <= r <= 3.01 /\
    Rabs (photon_cubic r a) <= 14 * 0.0096 * (/ 2) ^ 80.
Proof.
  unfold _solve_face_on_radius.
  rewrite (horizon_radius_ok a (proj2 a_valid)). cbn [bind].
  rewrite face_on_linspace. cbn [bind].
  pose proof face_on_step_range as Hstep.
  pose proof horizon_sqrt_range as Hs.
  assert (Habove : Forall (fun r => r_min <= r) (face_on_grid a))
    by (apply samples_above; lra).
  rewrite (scan_xi_valid _ [] Habove). cbn [bind app].
  rewrite keep_valid_all.
  apply find_bracket_on_samples.
  - intros E. apply (f_equal (@length R)) in E. unfold face_on_grid in E.
    rewrite length_map, length_seq in E. cbn [length] in E. lia.
  - eapply Forall_impl; [|exact Habove]. cbv beta. intros r Hr. lra.
  - apply samples_sorted. exact Hstep.
  - rewrite face_on_grid_first. apply Rlt_le.
    apply cubic_negative_below. lra.
  - rewrite face_on_grid_last. apply cubic_positive_above. lra.
Qed.

Lemma Rabs_le_bounds (x b : R) : Rabs x <= b -> - b <= x <= b.
Proof. unfold Rabs. destruct (Rcase_abs x); lra. Qed.

Lemma half_pow_80 : (/ 2) ^ 80 <= 1.0e-24.
Proof.
  replace 80%nat with (10 * 8)%nat by reflexivity. rewrite pow_mult.
  assert (H10 : 0 <= (/ 2) ^ 10 <= / 1000) by (cbn [pow]; lra).
  eapply Rle_trans; [apply pow_incr; exact H10|].
  cbn [pow]. lra.
Qed.

Lemma cubic_residual_small (r : R) :
  Rabs (photon_cubic r a) <= 14 * 0.0096 * (/ 2) ^ 80 ->
  Rabs (photon_cubic r a) <= 1.4e-25.
Proof.
  intros H. pose proof half_pow_80 as P.
  assert (0 <= (/ 2) ^ 80) by (apply pow_le; lra).
  eapply Rle_trans; [exact H|]. lra.
Qed.

(** Where the cubic is that small, xi is below 1e-13 in modulus. *)
Lemma face_on_xi_small (r : R) :
  2.4 <= r <= 3.01 ->
  Rabs (photon_cubic r a) <= 1.4e-25 ->
  Rabs (xi_of r a) <= 1.0e-13.
Proof.
  intros Hr HN. pose proof (spin_nonzero a (proj1 a_valid)) as Hz.
  pose proof (xi_of_cubic r a Hz ltac:(lra)) as E.
  apply (f_equal Rabs) in E.
  rewrite Rabs_Ropp, !Rabs_mult, (Rabs_pos_eq (r - 1)) in E by lra.
  pose proof (Rabs_pos (xi_of r a)) as Hx.
  set (x := Rabs (xi_of r a)) in *.
  destruct a_valid as [Ha0 Ha1].
  assert (1.4e-12 <= Rabs a * (r - 1)) by nra.
  assert (1.4e-12 * x <= Rabs a * (r - 1) * x)
    by (apply Rmult_le_compat_r; assumption).
  lra.
Qed.

(** eta + a^2, the square of the face-on radius, in terms of the cubic. *)
Lemma face_on_radius_sq (r : R) :
  1 < r ->
  0 < r * r - 2 * r + a * a ->
  eta_of r a + a * a =
    4 * (r * r) * (2 * r * (r - 1) + photon_cubic r a)
    / ((r + 1) * ((r - 1) * (r - 1)))
    + (2 * a * xi_of r a - xi_of r a * xi_of r a).
Proof.
  intros Hr HD. pose proof (spin_nonzero a (proj1 a_valid)) as Hz.
  unfold eta_of. set (x := xi_of r a). unfold photon_cubic. field.
  repeat split; lra.
Qed.

Lemma face_on_radius_range (r : R) :
  2.4 <= r <= 3.01 ->
  Rabs (photon_cubic r a) <= 1.4e-25 ->
  23 < eta_of r a + a * a < 27.2.
Proof.
  intros Hr HN. pose proof (face_on_xi_small r Hr HN) as Hx.
  pose proof spin_sq_range as Ha2.
  assert (HD : 0 < r * r - 2 * r + a * a) by nra.
  rewrite (face_on_radius_sq r ltac:(lra) HD).
  apply Rabs_le_bounds in HN. apply Rabs_le_bounds in Hx.
  set (N := photon_cubic r a) in *. set (x := xi_of r a) in *.
  assert (Ha : -1 < a < 1).
  { destruct a_valid as [_ H]. apply Rabs_def2 in H. lra. }
  assert (Ht : -1.0e-12 <= 2 * a * x - x * x <= 1.0e-12).
  { assert (-1.0e-13 <= a * x <= 1.0e-13) by nra.
    assert (0 <= x * x <= 1.0e-13) by nra. lra. }
  set (t := 2 * a * x - x * x) in *.
  set (q := (r + 1) * ((r - 1) * (r - 1))).
  assert (Hq : 0 < q).
  { unfold q. apply Rmult_lt_0_compat; [lra|].
    apply Rmult_lt_0_compat; lra. }
  assert (Hr2 : 5.76 <= r * r <= 9.0601) by nra.
  assert (HrN : - 1.0e-23 <= 4 * (r * r) * N <= 1.0e-23) by nra.
  assert (Hlow : 0.636 <= 8 * (r * r * r) - 23.1 * (r * r) + 23.1).
  { assert (0 <= (r - 2.4) * (8 * (r * r) - 3.9 * r - 9.36))
      by (apply Rmult_le_pos; lra). lra. }
  assert (Hhigh : 0.6645 <= 27.15 * (r * r - 1) - 8 * (r * r * r)).
  { assert (0 <= (3.01 - r) * (8 * (r * r) - 3.07 * r - 9.2407))
      by (apply Rmult_le_pos; lra). lra. }
  assert (HB : 23.1 * q < 4 * (r * r) * (2 * r * (r - 1) + N) < 27.15 * q).
  { unfold q.
    assert (0.8 <= (r - 1) * (8 * (r * r * r) - 23.1 * (r * r) + 23.1))
      by nra.
    assert (0.9 <= (r - 1) * (27.15 * (r * r - 1) - 8 * (r * r * r)))
      by nra.
    lra. }
  assert (HB' : 23.1 < 4 * (r * r) * (2 * r * (r - 1) + N) / q < 27.15).
  { split.
    - apply Rmult_lt_reg_r with q; [exact Hq|].
      unfold Rdiv. rewrite Rmult_assoc, Rinv_l by lra. lra.
    - apply Rmult_lt_reg_r with q; [exact Hq|].
      unfold Rdiv. rewrite Rmult_assoc, Rinv_l by lra. lra. }
  lra.
Qed.

Lemma sqrt_between (x lo hi : R) :
  0 <= lo -> lo * lo < x -> x < hi * hi -> 0 <= hi -> lo < sqrt x < hi.
Proof.
  intros Hlo H1 H2 Hhi. split.
  - rewrite <- (sqrt_square lo) by exact Hlo. apply sqrt_lt_1_alt. nra.
  - rewrite <- (sqrt_square hi) by exact Hhi. apply sqrt_lt_1_alt. nra.
Qed.

(** [_face_on_boundary] succeeds: the radius it takes the square root for is
    between 23 and 27.2. *)
Lemma face_on_boundary_circle (n : Z) :
  exists radius,
    4.79 < radius < 5.22 /\
    _face_on_boundary a n =
      (theta <- np.linspace 0 (2 * PI) n false ;;
       Ok (map (fun t => radius * cos t) theta,
           map (fun t => radius * sin t) theta)).
Proof.
  destruct solve_face_on_radius_spec as (r & E & Hr & HN).
  apply cubic_residual_small in HN.
  pose proof (face_on_radius_range r Hr HN) as Hrad.
  exists (sqrt (eta_of r a + a * a)). split.
  { apply sqrt_between; lra. }
  unfold _face_on_boundary.
  destruct (Rlt_dec (Rabs a) 1.0e-12) as [H|_];
    [destruct a_valid; lra|].
  rewrite E. cbn [bind]. rewrite (xi_eta_above r) by lra. cbn [bind].
  unfold np.sqrt_fl.
  destruct (Rlt_dec (eta_of r a + a * a) 0) as [H|_]; [lra|].
  reflexivity.
Qed.

End FaceOnSolver.

Section FaceOnBranch.



Lemma face_on_view : Rabs (sin (np.deg2rad 0)) < _FACEON_TOL.
Proof.
  unfold np.deg2rad, _FACEON_TOL. rewrite Rmult_0_l, sin_0, Rabs_R0. lra.
Qed.

Lemma shadow_boundary_face_on_branch
  (argsort : list R -> list nat) (a inc_deg : R) (n : Z) :
  1.0e-12 <= Rabs a < 1 ->
  Rabs (sin (np.deg2rad inc_deg)) < _FACEON_TOL ->
  (100 <= n)%Z ->
  exists radius,
    4.79 < radius < 5.22 /\
    shadow_boundary argsort a inc_deg n =
      Ok (map (fun k => radius * cos (INR k * (2 * PI / IZR n)))
              (seq 0 (Z.to_nat n)),
          map (fun k => radius * sin (INR k * (2 * PI / IZR n)))
              (seq 0 (Z.to_nat n))).
Proof.
  intros Ha Hi Hn.
  destruct (face_on_boundary_circle a Ha n) as (radius & Hrad & E).
  destruct (linspace_ok 0 (2 * PI) n false) as (step & El & Hstep & _);
    [lia|].
  rewrite (Hstep eq_refl) in El by lia. rewrite Rminus_0_r in El.
  rewrite El in E. cbn [bind] in E. rewrite !map_map in E.
  exists radius. split; [exact Hrad|].
  unfold shadow_boundary.
  destruct (Z.ltb_spec n 100) as [H|_]; [lia|].
  destruct Ha as [Ha0 Ha1].
  destruct (Rlt_dec (Rabs a) 1.0e-12) as [H|_]; [lra|].
  destruct (Rlt_dec _ _FACEON_TOL) as [_|H]; [|contradiction].
  rewrite E. do 2 f_equal; apply map_ext; intros k; rewrite Rplus_0_r;
    reflexivity.
Qed.

(** X9.  Seen face-on (|sin i| < 1e-6), for 1e-12 <= |a| < 1 and n >= 100,
    [shadow_boundary] returns n points, the k-th at angle 2 pi k / n on a
    circle about the origin whose radius lies between 4.79 and 5.22. *)
Theorem shadow_boundary_face_on_circle
  (argsort : list R -> list nat) (a inc_deg : R) (n : Z) :
  1.0e-12 <= Rabs a < 1 ->
  Rabs (sin (np.deg2rad inc_deg)) < _FACEON_TOL ->
  (100 <= n)%Z ->
  exists radius alpha beta,
    4.79 < radius < 5.22 /\
    shadow_boundary argsort a inc_deg n = Ok (alpha, beta) /\
    length alpha = Z.to_nat n /\ length beta = Z.to_nat n /\
    (forall k, (k < Z.to_nat n)%nat ->
       let theta := INR k * (2 * PI / IZR n) in
       nth k alpha 0 = radius * cos theta /\
       nth k beta 0 = radius * sin theta) /\
    Forall (fun rho => rho = radius) (radii alpha beta).
Proof.
  intros Ha Hi Hn.
  destruct (shadow_boundary_face_on_branch argsort a inc_deg n Ha Hi Hn)
    as (radius & Hrad & E).
  exists radius. do 2 eexists. split; [exact Hrad|]. split; [exact E|].
  rewrite !length_map, length_seq.
  split; [reflexivity|]. split; [reflexivity|]. split.
  - intros k Hk. cbv zeta. rewrite !nth_map_seq by exact Hk.
    split; reflexivity.
  - set (theta := map (fun k => INR k * (2 * PI / IZR n))
                      (seq 0 (Z.to_nat n))).
    replace (map (fun k => radius * cos (INR k * (2 * PI / IZR n)))
                 (seq 0 (Z.to_nat n)))
      with (map (fun t => radius * cos t) theta)
      by (unfold theta; rewrite map_map; reflexivity).
    replace (map (fun k => radius * sin (INR k * (2 * PI / IZR n)))
                 (seq 0 (Z.to_nat n)))
      with (map (fun t => radius * sin t) theta)
      by (unfold theta; rewrite map_map; reflexivity).
    apply circle_radii. lra.
Qed.

Lemma shadow_boundary_face_on_circle_witness :
  exists radius alpha beta,
    4.79 < radius < 5.22 /\
    shadow_boundary insertion_argsort (1 / 2) 0 100 = Ok (alpha, beta) /\
    length alpha = Z.to_nat 100 /\ length beta = Z.to_nat 100 /\
    (forall k, (k < Z.to_nat 100)%nat ->
       let theta := INR k * (2 * PI / IZR 100) in
       nth k alpha 0 = radius * cos theta /\
       nth k beta 0 = radius * sin theta) /\
    Forall (fun rho => rho = radius) (radii alpha beta).
Proof.
  apply (shadow_boundary_face_on_circle insertion_argsort (1 / 2) 0 100).
  - exact half_spin_valid.
  - exact face_on_view.
  - lia.
Defined.

Lemma shadow_boundary_defined
  (argsort : list R -> list nat) (a inc_deg : R) (n : Z) :
  (100 <= n)%Z -> Rabs a < 1 ->
  exists alpha beta,
    shadow_boundary argsort a inc_deg n = Ok (alpha, beta) /\
    length alpha = length beta.
Proof.
  intros Hn Ha.
  destruct (Rlt_dec (Rabs a) 1.0e-12) as [H0|H0].
  { rewrite shadow_boundary_small_spin by assumption.
    do 2 eexists. split; [reflexivity|]. rewrite !length_map. reflexivity. }
  apply Rnot_lt_le in H0.
  destruct (Rlt_dec (Rabs (sin (np.deg2rad inc_deg))) _FACEON_TOL)
    as [Hi|Hi].
  { destruct (shadow_boundary_face_on_branch argsort a inc_deg n
                (conj H0 Ha) Hi Hn) as (radius & _ & E).
    rewrite E. do 2 eexists. split; [reflexivity|].
    rewrite !length_map. reflexivity. }
  apply Rnot_lt_le in Hi.
  rewrite shadow_boundary_general by (try assumption; split; assumption).
  destruct (flat_map _ _) as [|p pts].
  - exists [], []. split; reflexivity.
  - rewrite sort_by_polar_angle_points. do 2 eexists.
    split; [reflexivity|]. rewrite !length_map. reflexivity.
Qed.

(** X10.  [shadow_boundary] fails exactly when n < 100 or |a| >= 1, and
    then with [ValueError]; otherwise it returns as many alphas as betas,
    whatever the inclination and whatever [np.argsort] does with ties. *)
Theorem shadow_boundary_total
  (argsort : list R -> list nat) (a inc_deg : R) (n : Z) :
  ((n < 100)%Z \/ Rabs a >= 1 ->
     shadow_boundary argsort a inc_deg n = Raise ValueError) /\
  ((100 <= n)%Z /\ Rabs a < 1 ->
     exists alpha beta,
       shadow_boundary argsort a inc_deg n = Ok (alpha, beta) /\
       length alpha = length beta).
Proof.
  split.
  - intros H. unfold shadow_boundary.
    destruct (Z.ltb_spec n 100) as [_|Hn]; [reflexivity|].
    destruct H as [H|H]; [lia|].
    destruct (Rlt_dec (Rabs a) 1.0e-12) as [H0|H0]; [lra|].
    destruct (Rlt_dec _ _FACEON_TOL) as [_|_].
    + unfold _face_on_boundary.
      destruct (Rlt_dec (Rabs a) 1.0e-12) as [?|_]; [lra|].
      unfold _solve_face_on_radius.
      rewrite horizon_radius_raises by exact H. reflexivity.
    + rewrite horizon_radius_raises by exact H. reflexivity.
  - intros [Hn Ha]. apply shadow_boundary_defined; assumption.
Qed.

End FaceOnBranch.

(** ** The metrics of a boundary *)

Section BoundaryMetrics.

Lemma fold_max_upper (l : list R) (d : R) :
  d <= fold_right Rmax d l /\
  forall y, In y l -> y <= fold_right Rmax d l.
Proof.
  induction l as [|x l [IH1 IH2]]; cbn [fold_right].
  - split; [lra|]. intros y [].
  - pose proof (Rmax_l x (fold_right Rmax d l)).
    pose proof (Rmax_r x (fold_right Rmax d l)).
    split; [lra|]. intros y [<- | Hy]; [assumption|].
    specialize (IH2 y Hy). lra.
Qed.

Lemma fold_max_attained (l : list R) (d : R) :
  fold_right Rmax d l = d \/ In (fold_right Rmax d l) l.
Proof.
  induction l as [|x l IH]; cbn [fold_right]; [left; reflexivity|].
  destruct (Rle_dec x (fold_right Rmax d l)) as [H|H].
  - rewrite Rmax_right by exact H.
    destruct IH as [IH|IH]; [left; exact IH|right; right; exact IH].
  - rewrite Rmax_left by lra. right. left. reflexivity.
Qed.

Lemma fold_min_lower (l : list R) (d : R) :
  fold_right Rmin d l <= d /\
  forall y, In y l -> fold_right Rmin d l <= y.
Proof.
  induction l as [|x l [IH1 IH2]]; cbn [fold_right].
  - split; [lra|]. intros y [].
  - pose proof (Rmin_l x (fold_right Rmin d l)).
    pose proof (Rmin_r x (fold_right Rmin d l)).
    split; [lra|]. intros y [<- | Hy]; [assumption|].
    specialize (IH2 y Hy). lra.
Qed.

Lemma fold_min_attained (l : list R) (d : R) :
  fold_right Rmin d l = d \/ In (fold_right Rmin d l) l.
Proof.
  induction l as [|x l IH]; cbn [fold_right]; [left; reflexivity|].
  destruct (Rle_dec x (fold_right Rmin d l)) as [H|H].
  - rewrite Rmin_left by exact H. right. left. reflexivity.
  - rewrite Rmin_right by lra.
    destruct IH as [IH|IH]; [left; exact IH|right; right; exact IH].
Qed.

(** On a non-empty array [np.nanmax] is an entry that bounds the others. *)
Lemma nanmax_spec (x : list R) :
  x <> [] -> In (nanmax x) x /\ forall y, In y x -> y <= nanmax x.
Proof.
  destruct x as [|v rest]; [intros H; contradiction|intros _].
  unfold nanmax. cbn [hd]. split.
  - destruct (fold_max_attained (v :: rest) v) as [E|H];
      [rewrite E; left; reflexivity|exact H].
  - apply fold_max_upper.
Qed.

Lemma nanmin_spec (x : list R) :
  x <> [] -> In (nanmin x) x /\ forall y, In y x -> nanmin x <= y.
Proof.
  destruct x as [|v rest]; [intros H; contradiction|intros _].
  unfold nanmin. cbn [hd]. split.
  - destruct (fold_min_attained (v :: rest) v) as [E|H];
      [rewrite E; left; reflexivity|exact H].
  - apply fold_min_lower.
Qed.

Lemma length_roll_left (x : list R) : length (roll_left x) = length x.
Proof.
  destruct x as [|v rest]; [reflexivity|].
  cbn [roll_left length]. rewrite length_app. cbn [length]. lia.
Qed.

Lemma dot_ok (x y : list R) :
  length x = length y ->
  dot x y = Ok (fold_right Rplus 0 (np.zipw Rmult x y)).
Proof. intros H. unfold dot. rewrite H, Nat.eqb_refl. reflexivity. Qed.

Lemma dot_mismatch (x y : list R) :
  length x <> length y -> dot x y = Raise ValueError.
Proof.
  intros H. unfold dot. apply Nat.eqb_neq in H. rewrite H. reflexivity.
Qed.

Lemma nonempty_length {A : Type} (l : list A) :
  l <> [] -> Nat.eqb (length l) 0 = false.
Proof. destruct l; [intros H; contradiction|reflexivity]. Qed.

Lemma boundary_metrics_nonempty (alpha beta : list R) :
  alpha <> [] -> beta <> [] -> length alpha = length beta ->
  boundary_metrics alpha beta =
    Ok {| D_h := Fin (nanmax alpha - nanmin alpha);
          D_v := Fin (nanmax beta - nanmin beta);
          R_eq := Fin (sqrt (0.5 * Rabs
                     (fold_right Rplus 0 (np.zipw Rmult alpha (roll_left beta))
                      - fold_right Rplus 0
                          (np.zipw Rmult beta (roll_left alpha))) / PI)) |}.
Proof.
  intros Ha Hb Hlen. unfold boundary_metrics.
  rewrite (nonempty_length alpha Ha), (nonempty_length beta Hb).
  cbn [orb].
  rewrite !dot_ok by (rewrite length_roll_left; congruence).
  reflexivity.
Qed.

(** X11.  [boundary_metrics] case by case.  With an empty array all three
    metrics are NaN.  With two non-empty arrays of different lengths
    [np.dot] raises [ValueError].  Otherwise the metrics are numbers: D_h is
    the largest difference of two alphas, D_v that of two betas, and R_eq is
    not negative. *)
Theorem boundary_metrics_cases (alpha beta : list R) :
  (alpha = [] \/ beta = [] ->
     boundary_metrics alpha beta =
       Ok {| D_h := NaN; D_v := NaN; R_eq := NaN |}) /\
  (alpha <> [] /\ beta <> [] /\ length alpha <> length beta ->
     boundary_metrics alpha beta = Raise ValueError) /\
  (alpha <> [] /\ beta <> [] /\ length alpha = length beta ->
     exists d_h d_v r_eq,
       boundary_metrics alpha beta =
         Ok {| D_h := Fin d_h; D_v := Fin d_v; R_eq := Fin r_eq |} /\
       (forall x y, In x alpha -> In y alpha -> x - y <= d_h) /\
       (exists x y, In x alpha /\ In y alpha /\ d_h = x - y) /\
       (forall x y, In x beta -> In y beta -> x - y <= d_v) /\
       (exists x y, In x beta /\ In y beta /\ d_v = x - y) /\
       0 <= r_eq).
Proof.
  split; [|split].
  - intros [-> | ->]; unfold boundary_metrics; cbn [length Nat.eqb orb];
      [reflexivity|].
    rewrite orb_true_r. reflexivity.
  - intros (Ha & Hb & Hlen). unfold boundary_metrics.
    rewrite (nonempty_length alpha Ha), (nonempty_length beta Hb).
    cbn [orb]. rewrite dot_mismatch by (rewrite length_roll_left; exact Hlen).
    reflexivity.
  - intros (Ha & Hb & Hlen).
    rewrite (boundary_metrics_nonempty alpha beta Ha Hb Hlen).
    destruct (nanmax_spec alpha Ha) as [A1 A2].
    destruct (nanmin_spec alpha Ha) as [A3 A4].
    destruct (nanmax_spec beta Hb) as [B1 B2].
    destruct (nanmin_spec beta Hb) as [B3 B4].
    do 3 eexists. split; [reflexivity|].
    split; [intros x y Hx Hy; specialize (A2 x Hx); specialize (A4 y Hy); lra|].
    split; [exists (nanmax alpha), (nanmin alpha); auto|].
    split; [intros x y Hx Hy; specialize (B2 x Hx); specialize (B4 y Hy); lra|].
    split; [exists (nanmax beta), (nanmin beta); auto|].
    apply sqrt_pos.
Qed.

Lemma Rmax_shift (x y c : R) : Rmax (x + c) (y + c) = Rmax x y + c.
Proof. unfold Rmax. do 2 destruct (Rle_dec _ _); lra. Qed.

Lemma Rmin_shift (x y c : R) : Rmin (x + c) (y + c) = Rmin x y + c.
Proof. unfold Rmin. do 2 destruct (Rle_dec _ _); lra. Qed.

Lemma fold_max_shift (c : R) (l : list R) (d : R) :
  fold_right Rmax (d + c) (map (fun x => x + c) l) = fold_right Rmax d l + c.
Proof.
  induction l as [|x l IH]; [reflexivity|].
  cbn [map fold_right]. rewrite IH. apply Rmax_shift.
Qed.

Lemma fold_min_shift (c : R) (l : list R) (d : R) :
  fold_right Rmin (d + c) (map (fun x => x + c) l) = fold_right Rmin d l + c.
Proof.
  induction l as [|x l IH]; [reflexivity|].
  cbn [map fold_right]. rewrite IH. apply Rmin_shift.
Qed.

Lemma extent_shift (c : R) (x : list R) :
  x <> [] ->
  nanmax (map (fun v => v + c) x) - nanmin (map (fun v => v + c) x)
  = nanmax x - nanmin x.
Proof.
  destruct x as [|v rest]; [intros H; contradiction|intros _].
  unfold nanmax, nanmin. cbn [map hd].
  change ((v + c) :: map (fun v0 => v0 + c) rest)
    with (map (fun v0 => v0 + c) (v :: rest)).
  rewrite fold_max_shift, fold_min_shift. ring.
Qed.

Lemma roll_left_map (f : R -> R) (x : list R) :
  roll_left (map f x) = map f (roll_left x).
Proof.
  destruct x as [|v rest]; [reflexivity|].
  cbn [map roll_left]. rewrite map_app. reflexivity.
Qed.

Lemma sum_app (l1 l2 : list R) :
  fold_right Rplus 0 (l1 ++ l2)
  = fold_right Rplus 0 l1 + fold_right Rplus 0 l2.
Proof.
  induction l1 as [|x l1 IH]; cbn [app fold_right]; [ring|].
  rewrite IH. ring.
Qed.

Lemma sum_roll_left (x : list R) :
  fold_right Rplus 0 (roll_left x) = fold_right Rplus 0 x.
Proof.
  destruct x as [|v rest]; [reflexivity|].
  cbn [roll_left]. rewrite sum_app. cbn [fold_right]. ring.
Qed.

Lemma sum_products_shift (c d : R) (x y : list R) :
  length x = length y ->
  fold_right Rplus 0
    (np.zipw Rmult (map (fun v => v + c) x) (map (fun v => v + d) y))
  = fold_right Rplus 0 (np.zipw Rmult x y)
    + d * fold_right Rplus 0 x + c * fold_right Rplus 0 y
    + INR (length x) * (c * d).
Proof.
  revert y. induction x as [|u x IH]; intros [|w y] Hlen; try discriminate.
  { unfold np.zipw. cbn [map combine fold_right length INR]. ring. }
  injection Hlen as Hlen. specialize (IH y Hlen).
  unfold np.zipw in *. cbn [map combine fold_right fst snd length].
  rewrite IH, S_INR. ring.
Qed.

Lemma shoelace_shift (c d : R) (alpha beta : list R) :
  length alpha = length beta ->
  fold_right Rplus 0
    (np.zipw Rmult (map (fun v => v + c) alpha)
       (roll_left (map (fun v => v + d) beta)))
  - fold_right Rplus 0
      (np.zipw Rmult (map (fun v => v + d) beta)
         (roll_left (map (fun v => v + c) alpha)))
  = fold_right Rplus 0 (np.zipw Rmult alpha (roll_left beta))
    - fold_right Rplus 0 (np.zipw Rmult beta (roll_left alpha)).
Proof.
  intros Hlen. rewrite !roll_left_map.
  rewrite !sum_products_shift by (rewrite length_roll_left; congruence).
  rewrite !sum_roll_left, Hlen. ring.
Qed.

(** X12.  The metrics do not depend on where the boundary sits on the
    screen: shifting every alpha by c and every beta by d changes nothing,
    errors included. *)
Theorem boundary_metrics_translation (alpha beta : list R) (c d : R) :
  boundary_metrics (map (fun v => v + c) alpha) (map (fun v => v + d) beta)
  = boundary_metrics alpha beta.
Proof.
  destruct alpha as [|x alpha]; [reflexivity|].
  destruct beta as [|y beta]; [reflexivity|].
  set (xs := x :: alpha). set (ys := y :: beta).
  assert (Ha : xs <> []) by discriminate.
  assert (Hb : ys <> []) by discriminate.
  assert (Ha' : map (fun v => v + c) xs <> []) by discriminate.
  assert (Hb' : map (fun v => v + d) ys <> []) by discriminate.
  destruct (Nat.eq_dec (length xs) (length ys)) as [Hlen|Hlen].
  - rewrite (boundary_metrics_nonempty xs ys Ha Hb Hlen).
    rewrite (boundary_metrics_nonempty _ _ Ha' Hb')
      by (rewrite !length_map; exact Hlen).
    rewrite (extent_shift c xs Ha), (extent_shift d ys Hb).
    rewrite (shoelace_shift c d xs ys Hlen). reflexivity.
  - unfold boundary_metrics.
    rewrite (nonempty_length _ Ha), (nonempty_length _ Hb),
      (nonempty_length _ Ha'), (nonempty_length _ Hb').
    cbn [orb].
    rewrite (dot_mismatch xs (roll_left ys))
      by (rewrite length_roll_left; exact Hlen).
    rewrite (dot_mismatch (map (fun v => v + c) xs)
               (roll_left (map (fun v => v + d) ys)))
      by (rewrite length_roll_left, !length_map; exact Hlen).
    reflexivity.
Qed.

Lemma zipw_snoc (f : R -> R -> R) (l1 l2 : list R) (u v : R) :
  length l1 = length l2 ->
  np.zipw f (l1 ++ [u]) (l2 ++ [v]) = np.zipw f l1 l2 ++ [f u v].
Proof.
  revert l2. induction l1 as [|x l1 IH]; intros [|y l2] Hlen;
    try discriminate; [reflexivity|].
  injection Hlen as Hlen. unfold np.zipw in *.
  cbn [app combine map fst snd]. rewrite IH by exact Hlen. reflexivity.
Qed.

Lemma zipw_maps (f : R -> R -> R) (g h : nat -> R) (l : list nat) :
  np.zipw f (map g l) (map h l) = map (fun k => f (g k) (h k)) l.
Proof.
  unfold np.zipw. induction l as [|k l IH]; [reflexivity|].
  cbn [map combine fst snd]. rewrite IH. reflexivity.
Qed.

(** The sum of x_k y_(k+1) around a closed sequence of m + 1 samples. *)
Lemma cyclic_products (f g : nat -> R) (m : nat) :
  fold_right Rplus 0
    (np.zipw Rmult (map f (seq 0 (S m))) (roll_left (map g (seq 0 (S m)))))
  = fold_right Rplus 0 (map (fun k => f k * g (S k)) (seq 0 m))
    + f m * g 0%nat.
Proof.
  rewrite <- (cons_seq m 0) at 2. cbn [map roll_left].
  rewrite seq_S, map_app. cbn [map Nat.add].
  rewrite zipw_snoc by (rewrite !length_map, !length_seq; reflexivity).
  rewrite <- seq_shift, map_map, zipw_maps, sum_app.
  cbn [fold_right]. ring.
Qed.

Lemma sum_map_minus (f g : nat -> R) (l : list nat) :
  fold_right Rplus 0 (map f l) - fold_right Rplus 0 (map g l)
  = fold_right Rplus 0 (map (fun k => f k - g k) l).
Proof.
  induction l as [|k l IH]; cbn [map fold_right]; [ring|].
  rewrite <- IH. ring.
Qed.

Lemma sum_map_constant (f : nat -> R) (c : R) (l : list nat) :
  (forall k, f k = c) ->
  fold_right Rplus 0 (map f l) = INR (length l) * c.
Proof.
  intros H. induction l as [|k l IH]; cbn [map fold_right length].
  - cbn [INR]. ring.
  - rewrite IH, H, S_INR. ring.
Qed.

(** Twice the signed area of the regular polygon the circular branches
    return: (m + 1) rho^2 sin delta, where (m + 1) delta = 2 pi. *)
Lemma circle_shoelace (rho delta : R) (m : nat) :
  INR (S m) * delta = 2 * PI ->
  let alpha := map (fun k => rho * cos (INR k * delta)) (seq 0 (S m)) in
  let beta := map (fun k => rho * sin (INR k * delta)) (seq 0 (S m)) in
  fold_right Rplus 0 (np.zipw Rmult alpha (roll_left beta))
  - fold_right Rplus 0 (np.zipw Rmult beta (roll_left alpha))
  = INR (S m) * (rho * rho * sin delta).
Proof.
  intros Hd. cbv zeta. rewrite !cyclic_products.
  assert (Hstep : forall k,
            rho * cos (INR k * delta) * (rho * sin (INR (S k) * delta))
            - rho * sin (INR k * delta) * (rho * cos (INR (S k) * delta))
            = rho * rho * sin delta).
  { intros k.
    replace delta with (INR (S k) * delta - INR k * delta) at 5
      by (rewrite S_INR; ring).
    rewrite sin_minus. ring. }
  assert (Hwrap : sin (INR m * delta) = - sin delta
                  /\ cos (INR m * delta) = cos delta).
  { replace (INR m * delta) with (2 * PI - delta)
      by (rewrite S_INR in Hd; lra).
    rewrite sin_minus, cos_minus, sin_2PI, cos_2PI. split; ring. }
  destruct Hwrap as [Hs Hc].
  assert (H0 : INR 0 = 0) by reflexivity.
  rewrite H0, !Rmult_0_l, sin_0, cos_0, Hs.
  match goal with
  | |- ?s1 + ?w1 - (?s2 + ?w2) = _ =>
      replace (s1 + w1 - (s2 + w2)) with ((s1 - s2) + (w1 - w2)) by ring
  end.
  rewrite sum_map_minus.
  rewrite (sum_map_constant _ (rho * rho * sin delta)) by exact Hstep.
  rewrite length_seq, S_INR. ring.
Qed.

Lemma nanmax_unique (x : list R) (M : R) :
  In M x -> (forall y, In y x -> y <= M) -> nanmax x = M.
Proof.
  intros Hin Hub.
  assert (Hne : x <> []) by (intros E; rewrite E in Hin; exact Hin).
  destruct (nanmax_spec x Hne) as [H1 H2].
  specialize (Hub _ H1). specialize (H2 _ Hin). lra.
Qed.

Lemma nanmin_unique (x : list R) (M : R) :
  In M x -> (forall y, In y x -> M <= y) -> nanmin x = M.
Proof.
  intros Hin Hlb.
  assert (Hne : x <> []) by (intros E; rewrite E in Hin; exact Hin).
  destruct (nanmin_spec x Hne) as [H1 H2].
  specialize (Hlb _ H1). specialize (H2 _ Hin). lra.
Qed.

Lemma circle_coordinate_bounds (rho : R) (f : R -> R) (l : list R) :
  0 < rho -> (forall t, -1 <= f t <= 1) ->
  forall y, In y (map (fun t => rho * f t) l) -> - rho <= y <= rho.
Proof.
  intros Hrho Hf y Hy. apply in_map_iff in Hy.
  destruct Hy as (t & <- & _). specialize (Hf t). nra.
Qed.

Lemma half_turn (n : Z) :
  (3 <= n)%Z -> Z.even n = true ->
  INR (Z.to_nat (n / 2)) * (2 * PI / IZR n) = PI.
Proof.
  intros Hn Heven.
  rewrite INR_IZR_INZ, Z2Nat.id by (apply Z.div_pos; lia).
  assert (E2 : n = (2 * (n / 2))%Z).
  { rewrite (Zeven_div2 n) at 1; [rewrite Z.div2_div; reflexivity|].
    apply Zeven_bool_iff. exact Heven. }
  assert (E3 : IZR n = 2 * IZR (n / 2))
    by (rewrite E2 at 1; rewrite mult_IZR; reflexivity).
  apply IZR_le in Hn. rewrite E3 in *.
  set (h := IZR (n / 2)) in *. field. lra.
Qed.

Lemma sin_cubic_lower (x : R) :
  0 <= x <= PI -> x - x * x * x / 6 <= sin x.
Proof.
  intros [H0 H1]. destruct (sin_bound x 0 H0 H1) as [H _].
  unfold sin_approx, sin_term in H. cbn [sum_f_R0 Nat.mul Nat.add pow] in H.
  assert (E1 : INR (fact 1) = 1) by reflexivity.
  assert (E3 : INR (fact 3) = 6) by (cbn [fact Nat.mul Nat.add INR]; lra).
  rewrite E1, E3 in H. lra.
Qed.

(** The metrics of n >= 3 points spread evenly on a circle of radius rho
    about the origin, the first on the positive alpha axis. *)
Lemma circle_metrics (rho : R) (n : Z) :
  0 < rho -> (3 <= n)%Z ->
  let delta := 2 * PI / IZR n in
  let alpha := map (fun k => rho * cos (INR k * delta)) (seq 0 (Z.to_nat n)) in
  let beta := map (fun k => rho * sin (INR k * delta)) (seq 0 (Z.to_nat n)) in
  exists d_h d_v r_eq,
    boundary_metrics alpha beta =
      Ok {| D_h := Fin d_h; D_v := Fin d_v; R_eq := Fin r_eq |} /\
    d_h <= 2 * rho /\
    (Z.even n = true -> d_h = 2 * rho /\ nanmax alpha + nanmin alpha = 0) /\
    d_v <= 2 * rho /\
    0 < r_eq < rho /\
    ((100 <= n)%Z -> 0.999 * rho < r_eq) /\
    PI * (r_eq * r_eq) = rho * rho * (IZR n / 2) * sin delta.
Proof.
  intros Hrho Hn delta alpha beta.
  pose proof PI_RGT_0 as Hpi.
  assert (Hn0 : 3 <= IZR n) by (apply IZR_le in Hn; exact Hn).
  assert (Hm : Z.to_nat n = S (Z.to_nat n - 1)) by lia.
  assert (HS : INR (Z.to_nat n) = IZR n)
    by (rewrite INR_IZR_INZ, Z2Nat.id by lia; reflexivity).
  assert (Hd : INR (Z.to_nat n) * delta = 2 * PI)
    by (rewrite HS; unfold delta; field; lra).
  assert (Hdelta : 0 < delta < PI).
  { rewrite HS in Hd. split; [|nra].
    unfold delta. apply Rdiv_lt_0_compat; lra. }
  assert (Hsin : 0 < sin delta < delta)
    by (split; [apply sin_gt_0|apply sin_lt_x]; lra).
  set (theta := map (fun k => INR k * delta) (seq 0 (Z.to_nat n))).
  assert (Ea : alpha = map (fun t => rho * cos t) theta)
    by (unfold alpha, theta; rewrite map_map; reflexivity).
  assert (Eb : beta = map (fun t => rho * sin t) theta)
    by (unfold beta, theta; rewrite map_map; reflexivity).
  assert (Ha_bounds : forall y, In y alpha -> - rho <= y <= rho)
    by (rewrite Ea; apply circle_coordinate_bounds;
        [exact Hrho|apply COS_bound]).
  assert (Hb_bounds : forall y, In y beta -> - rho <= y <= rho)
    by (rewrite Eb; apply circle_coordinate_bounds;
        [exact Hrho|apply SIN_bound]).
  assert (Ha : alpha <> []) by (unfold alpha; rewrite Hm; discriminate).
  assert (Hb : beta <> []) by (unfold beta; rewrite Hm; discriminate).
  assert (Hlen : length alpha = length beta)
    by (unfold alpha, beta; rewrite !length_map; reflexivity).
  assert (Hfirst : In rho alpha).
  { unfold alpha. apply in_map_iff. exists 0%nat. split.
    - assert (H0 : INR 0 = 0) by reflexivity.
      rewrite H0, Rmult_0_l, cos_0. ring.
    - apply in_seq. lia. }
  assert (Hmax : nanmax alpha = rho)
    by (apply nanmax_unique; [exact Hfirst|intros y Hy; apply Ha_bounds, Hy]).
  destruct (nanmin_spec alpha Ha) as [Amin _].
  destruct (nanmax_spec beta Hb) as [Bmax _].
  destruct (nanmin_spec beta Hb) as [Bmin _].
  apply Ha_bounds in Amin. apply Hb_bounds in Bmax. apply Hb_bounds in Bmin.
  rewrite (boundary_metrics_nonempty alpha beta Ha Hb Hlen).
  unfold alpha at 3 4, beta at 3 4. rewrite Hm.
  rewrite (circle_shoelace rho delta (Z.to_nat n - 1))
    by (rewrite <- Hm; exact Hd).
  rewrite <- Hm, HS.
  assert (Hpos : 0 < IZR n * (rho * rho * sin delta)).
  { apply Rmult_lt_0_compat; [lra|].
    apply Rmult_lt_0_compat; [nra|lra]. }
  rewrite (Rabs_pos_eq _ (Rlt_le _ _ Hpos)).
  set (area := 0.5 * (IZR n * (rho * rho * sin delta))).
  assert (Harea : 0 < area / PI < rho * rho).
  { split; [apply Rdiv_lt_0_compat; unfold area; lra|].
    apply Rmult_lt_reg_r with PI; [exact Hpi|].
    unfold Rdiv. rewrite Rmult_assoc, Rinv_l, Rmult_1_r by lra.
    assert (IZR n * sin delta < 2 * PI).
    { rewrite HS in Hd. rewrite <- Hd.
      apply Rmult_lt_compat_l; lra. }
    assert (0 < rho * rho) by (apply Rmult_lt_0_compat; lra).
    assert (rho * rho * (IZR n * sin delta) < rho * rho * (2 * PI))
      by (apply Rmult_lt_compat_l; assumption).
    unfold area. lra. }
  do 3 eexists. split; [reflexivity|].
  rewrite Hmax.
  split; [lra|]. split.
  { intros Heven.
    assert (Hmin : nanmin alpha = - rho).
    { apply nanmin_unique; [|intros y Hy; apply Ha_bounds, Hy].
      unfold alpha. apply in_map_iff. exists (Z.to_nat (n / 2)). split.
      - assert (Hk : INR (Z.to_nat (n / 2)) * delta = PI)
          by (apply half_turn; assumption).
        rewrite Hk, cos_PI. ring.
      - apply in_seq. assert (n / 2 < n)%Z by (apply Z.div_lt; lia).
        assert (0 <= n / 2)%Z by (apply Z.div_pos; lia). lia. }
    rewrite Hmin. split; ring. }
  split; [lra|]. split; [apply sqrt_between; nra|]. split.
  - intros Hbig. apply IZR_le in Hbig.
    pose proof PI_4 as Hpi4.
    assert (Hsmall : delta <= 0.08).
    { rewrite HS in Hd. assert (IZR n * delta <= 8) by lra. nra. }
    pose proof (sin_cubic_lower delta ltac:(lra)) as Hlow.
    assert (Hfac : delta * delta <= 0.0064) by nra.
    assert (Hsin' : 0.9989 * delta <= sin delta).
    { assert (delta * delta * delta / 6 <= 0.0011 * delta); [|lra].
      assert (delta * (delta * delta) <= delta * 0.0064)
        by (apply Rmult_le_compat_l; lra).
      lra. }
    assert (Hns : 0.9989 * (2 * PI) <= IZR n * sin delta).
    { rewrite HS in Hd. rewrite <- Hd.
      replace (0.9989 * (IZR n * delta)) with (IZR n * (0.9989 * delta))
        by ring.
      apply Rmult_le_compat_l; lra. }
    assert (Hrr : 0 < rho * rho) by (apply Rmult_lt_0_compat; lra).
    assert (Harea2 : 0.9989 * (rho * rho) <= area / PI).
    { apply Rmult_le_reg_r with PI; [exact Hpi|].
      replace (area / PI * PI) with area by (field; lra).
      assert (rho * rho * (0.9989 * (2 * PI))
              <= rho * rho * (IZR n * sin delta))
        by (apply Rmult_le_compat_l; lra).
      unfold area. lra. }
    rewrite <- (sqrt_square (0.999 * rho)) by lra.
    apply sqrt_lt_1_alt. split; [nra|]. nra.
  - rewrite sqrt_sqrt by lra. unfold area.
    generalize (sin delta). generalize (IZR n). intros N s.
    replace (0.5 * (N * (rho * rho * s))) with (N * (rho * rho * s) / 2)
      by lra.
    field. lra.
Qed.

(** X13.  The metrics of the circular boundaries.  For a spin below 1e-12
    in modulus, or a face-on view of any spin below 1, [shadow_boundary]
    followed by [boundary_metrics] does not fail: with rho the radius of the
    circle (between 4.79 and 5.22), D_h and D_v are at most 2 rho, R_eq is
    below rho by less than one part in a thousand, with
    pi R_eq^2 = rho^2 (n / 2) sin(2 pi / n), the area of the regular n-gon;
    for even n, D_h = 2 rho and the largest and smallest alpha cancel. *)
Theorem circular_boundary_metrics
  (argsort : list R -> list nat) (a inc_deg : R) (n : Z) :
  Rabs a < 1 ->
  Rabs a < 1.0e-12 \/ Rabs (sin (np.deg2rad inc_deg)) < _FACEON_TOL ->
  (100 <= n)%Z ->
  exists rho alpha beta d_h d_v r_eq,
    4.79 < rho < 5.22 /\
    shadow_boundary argsort a inc_deg n = Ok (alpha, beta) /\
    boundary_metrics alpha beta =
      Ok {| D_h := Fin d_h; D_v := Fin d_v; R_eq := Fin r_eq |} /\
    d_h <= 2 * rho /\
    (Z.even n = true -> d_h = 2 * rho /\ nanmax alpha + nanmin alpha = 0) /\
    d_v <= 2 * rho /\
    0.999 * rho < r_eq < rho /\
    PI * (r_eq * r_eq) = rho * rho * (IZR n / 2) * sin (2 * PI / IZR n).
Proof.
  intros Ha Hbranch Hn.
  assert (Hcircle : exists rho,
            4.79 < rho < 5.22 /\
            shadow_boundary argsort a inc_deg n =
              Ok (map (fun k => rho * cos (INR k * (2 * PI / IZR n)))
                      (seq 0 (Z.to_nat n)),
                  map (fun k => rho * sin (INR k * (2 * PI / IZR n)))
                      (seq 0 (Z.to_nat n)))).
  { destruct (Rlt_dec (Rabs a) 1.0e-12) as [H0|H0].
    - exists (sqrt 27). split; [apply sqrt_between; lra|].
      apply shadow_boundary_small_spin; assumption.
    - destruct Hbranch as [H|Hi]; [contradiction|].
      apply Rnot_lt_le in H0.
      apply shadow_boundary_face_on_branch; [split| |]; assumption. }
  destruct Hcircle as (rho & Hrho & E).
  destruct (circle_metrics rho n ltac:(lra) ltac:(lia))
    as (d_h & d_v & r_eq & Em & H1 & H2 & H3 & H4 & H4' & H5).
  exists rho. do 2 eexists. exists d_h, d_v, r_eq.
  split; [exact Hrho|]. split; [exact E|]. split; [exact Em|].
  split; [exact H1|]. split; [exact H2|]. split; [exact H3|].
  split; [split; [apply H4'; exact Hn|apply H4]|exact H5].
Qed.

Lemma circular_boundary_metrics_witness :
  exists rho alpha beta d_h d_v r_eq,
    4.79 < rho < 5.22 /\
    shadow_boundary insertion_argsort (9 / 10) 0 4096 = Ok (alpha, beta) /\
    boundary_metrics alpha beta =
      Ok {| D_h := Fin d_h; D_v := Fin d_v; R_eq := Fin r_eq |} /\
    d_h <= 2 * rho /\
    (Z.even 4096 = true ->
       d_h = 2 * rho /\ nanmax alpha + nanmin alpha = 0) /\
    d_v <= 2 * rho /\
    0.999 * rho < r_eq < rho /\
    PI * (r_eq * r_eq)
      = rho * rho * (IZR 4096 / 2) * sin (2 * PI / IZR 4096).
Proof.
  apply (circular_boundary_metrics insertion_argsort (9 / 10) 0 4096).
  - rewrite Rabs_pos_eq; lra.
  - right. exact face_on_view.
  - lia.
Defined.

End BoundaryMetrics.

(** ** The horizon and the orbit constants in closed form *)

Section HorizonAndConstants.





(** X16.  Reversing the spin reverses xi and keeps eta: the outcome of
    [xi_eta_spherical r (-a)] is that of [xi_eta_spherical r a] with xi
    negated, and the two fail together. *)
Theorem xi_eta_spin_reversal (r a : R) :
  xi_eta_spherical r (- a) =
    match xi_eta_spherical r a with
    | Ok (xi, eta) => Ok (- xi, eta)
    | Raise e => Raise e
    end.
Proof.
  rewrite xi_eta_neg.
  destruct (xi_eta_spherical r a) as [[xi eta]|e]; reflexivity.
Qed.




End HorizonAndConstants.

Section BardeenQuantities.

Lemma bardeen_Z1_abs (a : R) : bardeen_Z1 (Rabs a) = bardeen_Z1 a.
Proof. unfold bardeen_Z1. rewrite Rabs_Rabsolu. reflexivity. Qed.

Lemma bardeen_Z2_abs (a : R) : bardeen_Z2 (Rabs a) = bardeen_Z2 a.
Proof.
  unfold bardeen_Z2. rewrite bardeen_Z1_abs, Rabs_Rabsolu. reflexivity.
Qed.

(** X17.  [r_isco] repeats the arithmetic of [z1] and [z2] rather than
    calling them, and agrees with them: for |a| < 1 it returns
    3 + Z2 -+ sqrt((3 - Z1) (3 + Z1 + 2 Z2)) for the values Z1 and Z2 the
    two helpers return.  Z1 lies in (1, 3] and is a root of
    Z^3 - 3 Z^2 + 3 a^2 Z - a^2, Z2^2 = 3 a^2 + Z1^2 with Z2 >= Z1, and the
    radicand is not negative. *)
Theorem r_isco_from_z1_z2 (a : R) (prograde : bool) :
  Rabs a < 1 ->
  exists Z1 Z2,
    z1 (np.scalar a) = Ok Z1 /\
    z2 (np.scalar a) = Ok Z2 /\
    1 < Z1 <= 3 /\
    Z1 * Z1 * Z1 - 3 * (Z1 * Z1) + 3 * (a * a) * Z1 - a * a = 0 /\
    Z1 <= Z2 /\
    Z2 * Z2 = 3 * (a * a) + Z1 * Z1 /\
    0 <= (3 - Z1) * (3 + Z1 + 2 * Z2) /\
    r_isco (np.scalar a) prograde =
      Ok (np.scalar (3 + Z2 + (if prograde then -1 else 1)
                               * sqrt ((3 - Z1) * (3 + Z1 + 2 * Z2)))).
Proof.
  intros Ha. exists (bardeen_Z1 a), (bardeen_Z2 a).
  split; [apply z1_scalar; exact Ha|].
  split; [apply z2_scalar; exact Ha|].
  assert (Hb : 0 <= Rabs a < 1) by (split; [apply Rabs_pos|exact Ha]).
  pose proof (Z1_lower (Rabs a) Hb) as L.
  pose proof (Z1_upper (Rabs a) Hb) as U.
  pose proof (Z1_cubic (Rabs a) Hb) as C.
  pose proof (Z2_sqr (Rabs a) Hb) as S2.
  pose proof (Z2_lower (Rabs a) Hb) as L2.
  pose proof (W_radicand_nonneg (Rabs a) Hb) as W.
  rewrite bardeen_Z1_abs, ?bardeen_Z2_abs in *.
  rewrite ?Rabs_sqr in *.
  assert (Hsq : Rabs a * Rabs a = a * a) by apply Rabs_sqr.
  split; [lra|]. split; [exact C|].
  split.
  { pose proof (Rle_0_sqr a) as Hq. unfold Rsqr in Hq.
    destruct (Rle_dec (bardeen_Z1 a) (bardeen_Z2 a)) as [?|Hn];
      [assumption|exfalso].
    apply Rnot_le_lt in Hn. nra. }
  split; [exact S2|]. split; [exact W|].
  apply r_isco_scalar. exact Ha.
Qed.

Lemma r_isco_from_z1_z2_witness :
  exists Z1 Z2,
    z1 (np.scalar (1 / 2)) = Ok Z1 /\
    z2 (np.scalar (1 / 2)) = Ok Z2 /\
    1 < Z1 <= 3 /\
    Z1 * Z1 * Z1 - 3 * (Z1 * Z1) + 3 * (1 / 2 * (1 / 2)) * Z1
      - 1 / 2 * (1 / 2) = 0 /\
    Z1 <= Z2 /\
    Z2 * Z2 = 3 * (1 / 2 * (1 / 2)) + Z1 * Z1 /\
    0 <= (3 - Z1) * (3 + Z1 + 2 * Z2) /\
    r_isco (np.scalar (1 / 2)) true =
      Ok (np.scalar (3 + Z2 + -1 * sqrt ((3 - Z1) * (3 + Z1 + 2 * Z2)))).
Proof.
  apply (r_isco_from_z1_z2 (1 / 2) true). rewrite Rabs_pos_eq; lra.
Defined.

End BardeenQuantities.

(** ** The face-on branch under a reversal of the spin *)

Section FaceOnSpinSign.

Lemma horizon_radius_neg (a : R) : horizon_radius (- a) = horizon_radius a.
Proof.
  unfold horizon_radius. rewrite Rabs_Ropp.
  replace (- a * - a) with (a * a) by ring. reflexivity.
Qed.

Lemma scan_xi_neg (a : R) (grid : list R) (xi_vals : list fl) :
  scan_xi (- a) grid (map fl_opp xi_vals) =
    (l <- scan_xi a grid xi_vals ;; Ok (map fl_opp l)).
Proof.
  revert xi_vals. induction grid as [|r grid IH]; intros xi_vals;
    [reflexivity|].
  cbn [scan_xi]. rewrite xi_eta_neg.
  destruct (xi_eta_cases r a) as [[E _]|[E _]]; rewrite E; cbn [bind].
  - rewrite <- IH, map_app. reflexivity.
  - rewrite <- IH, map_app. reflexivity.
Qed.

Lemma keep_valid_neg (grid : list R) (xi_vals : list fl) :
  keep_valid grid (map fl_opp xi_vals) =
  map (fun p => (fst p, - snd p)) (keep_valid grid xi_vals).
Proof.
  revert xi_vals. induction grid as [|r grid IH]; intros [|[|x] xi_vals];
    try reflexivity; cbn [map fl_opp keep_valid fst snd]; rewrite IH;
    reflexivity.
Qed.

Lemma product_neg_neg (x y : R) : - x * - y = x * y.
Proof. ring. Qed.

Lemma bisect_neg (a : R) (steps : nat) :
  forall lo hi f0 f1,
    bisect (- a) steps lo hi (- f0) (- f1) = bisect a steps lo hi f0 f1.
Proof.
  induction steps as [|steps IH]; intros lo hi f0 f1; [reflexivity|].
  cbn [bisect]. rewrite xi_eta_neg.
  destruct (xi_eta_spherical (0.5 * (lo + hi)) a) as [[x e]|err];
    [|reflexivity].
  cbn [bind]. rewrite product_neg_neg.
  destruct (Req_dec_T (- x) 0) as [H1|H1];
    destruct (Req_dec_T x 0) as [H2|H2]; try lra; [reflexivity|].
  destruct (Rlt_dec (f0 * x) 0); apply IH.
Qed.

Lemma find_bracket_neg (a : R) (pts : list (R * R)) :
  find_bracket (- a) (map (fun p => (fst p, - snd p)) pts)
  = find_bracket a pts.
Proof.
  induction pts as [|[r0 f0] pts IH]; [reflexivity|].
  destruct pts as [|[r1 f1] pts]; [reflexivity|].
  cbn [map fst snd find_bracket] in *. rewrite product_neg_neg.
  destruct (Req_dec_T (- f0) 0) as [H1|H1];
    destruct (Req_dec_T f0 0) as [H2|H2]; try lra; [reflexivity|].
  destruct (Rlt_dec (f0 * f1) 0); [apply bisect_neg|exact IH].
Qed.

Lemma solve_face_on_radius_neg (a : R) :
  _solve_face_on_radius (- a) = _solve_face_on_radius a.
Proof.
  unfold _solve_face_on_radius. rewrite horizon_radius_neg.
  destruct (horizon_radius a) as [h|e]; [|reflexivity]. cbn [bind].
  destruct (np.linspace _ _ _ _) as [grid|e]; [|reflexivity]. cbn [bind].
  pose proof (scan_xi_neg a grid []) as H. cbn [map] in H. rewrite H.
  destruct (scan_xi a grid []) as [xi_vals|e]; [|reflexivity]. cbn [bind].
  rewrite keep_valid_neg. apply find_bracket_neg.
Qed.

Lemma face_on_boundary_neg (a : R) (n : Z) :
  _face_on_boundary (- a) n = _face_on_boundary a n.
Proof.
  unfold _face_on_boundary. rewrite Rabs_Ropp, solve_face_on_radius_neg.
  destruct (Rlt_dec (Rabs a) 1.0e-12); [reflexivity|].
  destruct (_solve_face_on_radius a) as [r|e]; [|reflexivity]. cbn [bind].
  rewrite xi_eta_neg.
  destruct (xi_eta_spherical r a) as [[x e]|err]; [|reflexivity].
  cbn [bind]. replace (- a * - a) with (a * a) by ring. reflexivity.
Qed.

(** X18.  Where the boundary is a circle, the sign of the spin does not
    matter: for |a| < 1e-12 or a face-on view, [shadow_boundary] has the
    same outcome for -a as for a, errors included. *)
Theorem shadow_boundary_circular_spin_sign
  (argsort : list R -> list nat) (a inc_deg : R) (n : Z) :
  Rabs a < 1.0e-12 \/ Rabs (sin (np.deg2rad inc_deg)) < _FACEON_TOL ->
  shadow_boundary argsort (- a) inc_deg n = shadow_boundary argsort a inc_deg n.
Proof.
  intros H. unfold shadow_boundary. rewrite Rabs_Ropp.
  destruct (n <? 100)%Z; [reflexivity|].
  destruct (Rlt_dec (Rabs a) 1.0e-12) as [?|H0]; [reflexivity|].
  destruct H as [H|H]; [contradiction|].
  destruct (Rlt_dec _ _FACEON_TOL) as [_|Hn]; [|contradiction].
  apply face_on_boundary_neg.
Qed.

Lemma shadow_boundary_circular_spin_sign_witness :
  shadow_boundary insertion_argsort (- (1 / 2)) 0 100
  = shadow_boundary insertion_argsort (1 / 2) 0 100.
Proof.
  apply shadow_boundary_circular_spin_sign. right. exact face_on_view.
Defined.

End FaceOnSpinSign.

(** ** The spin grids of the command line, the plots and the animations *)

Section SpinGrids.

(** The samples of [np.linspace] lie between its end points. *)
Lemma linspace_within (start stop lo hi : R) (num : Z) (grid : list R) :
  lo <= start <= hi -> lo <= stop <= hi ->
  np.linspace start stop num true = Ok grid ->
  length grid = Z.to_nat num /\ Forall (fun v => lo <= v <= hi) grid.
Proof.
  intros Hstart Hstop E. unfold np.linspace in E.
  destruct (num <? 0)%Z; [discriminate|].
  injection E as <-. rewrite length_map, length_seq.
  split; [reflexivity|]. apply Forall_forall. intros v Hv.
  apply in_map_iff in Hv. destruct Hv as (k & <- & Hk).
  apply in_seq in Hk. set (m := Z.to_nat num) in *.
  destruct (Nat.ltb_spec 0 (m - 1)) as [Hm|Hm].
  - assert (Hd : 0 < INR (m - 1)) by (apply lt_0_INR; exact Hm).
    assert (Hk' : 0 <= INR k <= INR (m - 1))
      by (split; [apply pos_INR|apply le_INR; lia]).
    set (t := INR k / INR (m - 1)).
    assert (Ht : 0 <= t <= 1).
    { unfold t. split.
      - apply Rmult_le_pos; [lra|]. apply Rlt_le, Rinv_0_lt_compat, Hd.
      - apply Rmult_le_reg_r with (INR (m - 1)); [exact Hd|].
        unfold Rdiv. rewrite Rmult_assoc, Rinv_l by lra. lra. }
    replace (INR k * ((stop - start) / INR (m - 1)) + start)
      with (t * (stop - start) + start) by (unfold t; field; lra).
    split; nra.
  - assert (k = 0%nat) by lia. subst k.
    assert (H0 : INR 0 = 0) by reflexivity.
    rewrite H0, Rmult_0_l, Rplus_0_l. exact Hstart.
Qed.

Lemma linspace_defined (start stop : R) (num : Z) :
  (0 <= num)%Z -> exists grid, np.linspace start stop num true = Ok grid.
Proof.
  intros Hn. destruct (linspace_ok start stop num true Hn) as (step & E & _).
  eexists. exact E.
Qed.

Lemma inside_unit (lo hi v : R) :
  -1 < lo -> hi < 1 -> lo <= v <= hi -> Rabs v < 1.
Proof. intros H1 H2 Hv. apply Rabs_def1; lra. Qed.

(** X19.  The spin grids of [isco_cli.main], [make_figs.main] and
    [plot_isco_eta]: for end points strictly between -1 and 1 (the defaults
    are -0.99 and 0.99) and any number of samples >= 0, [r_isco] and [eta]
    succeed on the grid as one array, as the plot takes it, and on every
    sample by itself, as the table takes them. *)
Theorem isco_grid_defined (a_min a_max : R) (samples : Z) (prograde : bool) :
  -1 < a_min < 1 -> -1 < a_max < 1 -> (0 <= samples)%Z ->
  exists spins radii effs,
    np.linspace a_min a_max samples true = Ok spins /\
    length spins = Z.to_nat samples /\
    r_isco (np.mk [length spins] spins) prograde = Ok radii /\
    eta (np.mk [length spins] spins) prograde = Ok effs /\
    np.shape radii = [length spins] /\ np.shape effs = [length spins] /\
    Forall (fun spin =>
              exists r e,
                r_isco (np.scalar spin) prograde = Ok (np.scalar r) /\
                eta (np.scalar spin) prograde = Ok (np.scalar e)) spins.
Proof.
  intros Hmin Hmax Hn.
  destruct (linspace_defined a_min a_max samples Hn) as (spins & E).
  destruct (linspace_within a_min a_max (Rmin a_min a_max) (Rmax a_min a_max)
              samples spins) as [Hlen Hall]; [| |exact E|].
  { split; [apply Rmin_l|apply Rmax_l]. }
  { split; [apply Rmin_r|apply Rmax_r]. }
  assert (Hvalid : Forall (fun v => Rabs v < 1) spins).
  { eapply Forall_impl; [|exact Hall]. cbv beta. intros v Hv.
    apply (inside_unit (Rmin a_min a_max) (Rmax a_min a_max)); [| |exact Hv].
    - apply Rmin_glb_lt; lra.
    - apply Rmax_lub_lt; lra. }
  assert (Hwf : np.wf (np.mk [length spins] spins)).
  { unfold np.wf, np.size. cbn [np.data np.shape fold_right]. lia. }
  exists spins, (np.map1 (isco_radius prograde) (np.mk [length spins] spins)),
    (np.map1 (efficiency prograde) (np.mk [length spins] spins)).
  split; [exact E|]. split; [exact Hlen|].
  split; [apply r_isco_array; assumption|].
  split; [apply eta_array; assumption|].
  split; [reflexivity|]. split; [reflexivity|].
  eapply Forall_impl; [|exact Hvalid]. cbv beta. intros v Hv.
  exists (isco_radius prograde v), (efficiency prograde v).
  split; [apply r_isco_scalar|apply eta_scalar]; exact Hv.
Qed.

Lemma isco_grid_defined_witness :
  exists spins radii effs,
    np.linspace (-0.99) 0.99 9 true = Ok spins /\
    length spins = Z.to_nat 9 /\
    r_isco (np.mk [length spins] spins) true = Ok radii /\
    eta (np.mk [length spins] spins) true = Ok effs /\
    np.shape radii = [length spins] /\ np.shape effs = [length spins] /\
    Forall (fun spin =>
              exists r e,
                r_isco (np.scalar spin) true = Ok (np.scalar r) /\
                eta (np.scalar spin) true = Ok (np.scalar e)) spins.
Proof. apply (isco_grid_defined (-0.99) 0.99 9 true); lra || lia. Defined.

(** X20.  The frames of [spin_sweep_gif]: for end points strictly between
    -1 and 1 (the defaults are 0 and 0.998), any number of frames >= 0 and
    any inclination, [shadow_boundary] with n = 2048 succeeds at every spin
    of the sweep. *)
Theorem spin_sweep_defined
  (argsort : list R -> list nat) (a_start a_end i : R) (frames : Z) :
  -1 < a_start < 1 -> -1 < a_end < 1 -> (0 <= frames)%Z ->
  exists spins,
    np.linspace a_start a_end frames true = Ok spins /\
    length spins = Z.to_nat frames /\
    Forall (fun a =>
              exists alpha beta,
                shadow_boundary argsort a i 2048 = Ok (alpha, beta) /\
                length alpha = length beta) spins.
Proof.
  intros Hmin Hmax Hn.
  destruct (linspace_defined a_start a_end frames Hn) as (spins & E).
  destruct (linspace_within a_start a_end (Rmin a_start a_end)
              (Rmax a_start a_end) frames spins) as [Hlen Hall];
    [| |exact E|].
  { split; [apply Rmin_l|apply Rmax_l]. }
  { split; [apply Rmin_r|apply Rmax_r]. }
  exists spins. split; [exact E|]. split; [exact Hlen|].
  eapply Forall_impl; [|exact Hall]. cbv beta. intros a Ha.
  assert (Hv : Rabs a < 1).
  { apply (inside_unit (Rmin a_start a_end) (Rmax a_start a_end));
      [| |exact Ha].
    - apply Rmin_glb_lt; lra.
    - apply Rmax_lub_lt; lra. }
  apply shadow_boundary_defined; [lia|exact Hv].
Qed.

Lemma spin_sweep_defined_witness :
  exists spins,
    np.linspace 0 0.998 40 true = Ok spins /\
    length spins = Z.to_nat 40 /\
    Forall (fun a =>
              exists alpha beta,
                shadow_boundary insertion_argsort a 60 2048
                  = Ok (alpha, beta) /\
                length alpha = length beta) spins.
Proof.
  apply (spin_sweep_defined insertion_argsort 0 0.998 60 40); lra || lia.
Defined.

End SpinGrids.

(** ** The observer below the equatorial plane *)

Section InclinationSupplement.

Lemma deg2rad_supplement (inc_deg : R) :
  np.deg2rad (180 - inc_deg) = PI - np.deg2rad inc_deg.
Proof. unfold np.deg2rad. field. Qed.

Lemma sin_supplement (inc_deg : R) :
  sin (np.deg2rad (180 - inc_deg)) = sin (np.deg2rad inc_deg).
Proof.
  rewrite deg2rad_supplement, sin_minus, sin_PI, cos_PI. ring.
Qed.

Lemma cos_supplement (inc_deg : R) :
  cos (np.deg2rad (180 - inc_deg)) = - cos (np.deg2rad inc_deg).
Proof.
  rewrite deg2rad_supplement, cos_minus, sin_PI, cos_PI. ring.
Qed.

Lemma screen_coords_supplement (xi eta a inc_deg : R) :
  screen_coords xi eta a (180 - inc_deg) = screen_coords xi eta a inc_deg.
Proof.
  rewrite !screen_coords_unfold.
  assert (Hf : floored_sin (180 - inc_deg) = floored_sin inc_deg)
    by (unfold floored_sin; rewrite sin_supplement; reflexivity).
  assert (Hb : beta_squared xi eta a (180 - inc_deg)
               = beta_squared xi eta a inc_deg).
  { unfold beta_squared. cbv zeta. rewrite Hf, cos_supplement.
    unfold Rdiv. ring. }
  rewrite Hf, Hb. reflexivity.
Qed.

Lemma accepted_supplement (a inc_deg r : R) :
  accepted a (180 - inc_deg) r = accepted a inc_deg r.
Proof.
  unfold accepted.
  destruct (xi_eta_spherical r a) as [[xi eta_val]|e]; [|reflexivity].
  rewrite screen_coords_supplement. reflexivity.
Qed.

(** X21.  An observer at inclination 180 - i sees what the observer at i
    sees: [shadow_boundary] has the same outcome for both, whatever the
    spin and the number of samples. *)
Theorem shadow_boundary_supplement
  (argsort : list R -> list nat) (a inc_deg : R) (n : Z) :
  shadow_boundary argsort a (180 - inc_deg) n
  = shadow_boundary argsort a inc_deg n.
Proof.
  unfold shadow_boundary. rewrite sin_supplement.
  destruct (n <? 100)%Z; [reflexivity|].
  destruct (Rlt_dec (Rabs a) 1.0e-12); [reflexivity|].
  destruct (Rlt_dec _ _FACEON_TOL); [reflexivity|].
  destruct (horizon_radius a) as [h|e]; [|reflexivity]. cbn [bind].
  destruct (np.linspace _ _ _ _) as [r_grid|e]; [|reflexivity]. cbn [bind].
  rewrite !trace_points_flat_map.
  rewrite (flat_map_ext (accepted a (180 - inc_deg)) (accepted a inc_deg))
    by (intros r; apply accepted_supplement).
  reflexivity.
Qed.

End InclinationSupplement.

(** ** The orbital energy without spin *)

Section SchwarzschildEnergy.





End SchwarzschildEnergy.

(** ** The sampled radii and the symmetry about the alpha axis *)

Section SampledRadii.

(** X24.  The radii both loops sample lie above the horizon, so the guards
    of [xi_eta_spherical] never fire there: for 1e-12 <= |a| < 1 and any
    number of samples, every entry r of [np.linspace (h + 1e-6) 20 num] has
    h + 1e-6 <= r <= 20 and [xi_eta_spherical r a] returns.  The
    [except ValueError] branches are dead code for such a spin; a sample is
    dropped only when its screen coordinates are NaN. *)
Theorem sampled_radii_valid (a : R) (num : Z) :
  1.0e-12 <= Rabs a < 1 -> (0 <= num)%Z ->
  exists h grid,
    horizon_radius a = Ok h /\
    np.linspace (h + 1.0e-6) 20 num true = Ok grid /\
    length grid = Z.to_nat num /\
    Forall (fun r =>
              h + 1.0e-6 <= r <= 20 /\
              exists xi eta, xi_eta_spherical r a = Ok (xi, eta)) grid.
Proof.
  intros Ha Hn. exists (1 + sqrt (1 - a * a)).
  destruct (linspace_defined (1 + sqrt (1 - a * a) + 1.0e-6) 20 num Hn)
    as (grid & E).
  exists grid. split; [apply horizon_radius_ok; apply Ha|]. split; [exact E|].
  pose proof (horizon_sqrt_range a Ha) as Hs.
  destruct (linspace_within (1 + sqrt (1 - a * a) + 1.0e-6) 20
              (1 + sqrt (1 - a * a) + 1.0e-6) 20 num grid) as [Hlen Hall];
    [lra|lra|exact E|].
  split; [exact Hlen|].
  eapply Forall_impl; [|exact Hall]. cbv beta. intros r Hr.
  split; [exact Hr|]. do 2 eexists. apply xi_eta_valid; [exact Ha|lra].
Qed.

Lemma sampled_radii_valid_witness :
  exists h grid,
    horizon_radius (1 / 2) = Ok h /\
    np.linspace (h + 1.0e-6) 20 50 true = Ok grid /\
    length grid = Z.to_nat 50 /\
    Forall (fun r =>
              h + 1.0e-6 <= r <= 20 /\
              exists xi eta, xi_eta_spherical r (1 / 2) = Ok (xi, eta)) grid.
Proof.
  apply (sampled_radii_valid (1 / 2) 50); [exact half_spin_valid|lia].
Defined.

Lemma in_combine_of_right {A B : Type} (l1 : list A) (l2 : list B) (y : B) :
  length l1 = length l2 -> In y l2 -> exists x, In (x, y) (combine l1 l2).
Proof.
  revert l2. induction l1 as [|u l1 IH]; intros [|v l2] Hlen Hin;
    try discriminate; [destruct Hin|].
  injection Hlen as Hlen. destruct Hin as [<- | Hin].
  - exists u. left. reflexivity.
  - destruct (IH l2 Hlen Hin) as (x & Hx). exists x. right. exact Hx.
Qed.

(** A set of points closed under reflection in the alpha axis has a beta
    extent centred on zero. *)
Lemma mirrored_extent (alpha beta : list R) :
  beta <> [] -> length alpha = length beta ->
  (forall x y, In (x, y) (combine alpha beta) ->
               In (x, - y) (combine alpha beta)) ->
  nanmax beta + nanmin beta = 0 /\ 0 <= nanmax beta.
Proof.
  intros Hb Hlen Hmir.
  destruct (nanmax_spec beta Hb) as [M1 M2].
  destruct (nanmin_spec beta Hb) as [m1 m2].
  assert (Hneg : forall y, In y beta -> In (- y) beta).
  { intros y Hy. destruct (in_combine_of_right alpha beta y Hlen Hy)
      as (x & Hx).
    apply Hmir in Hx. apply in_combine_r in Hx. exact Hx. }
  pose proof (m2 _ (Hneg _ M1)) as H1.
  pose proof (M2 _ (Hneg _ m1)) as H2.
  pose proof (M2 _ m1) as H3.
  split; lra.
Qed.

(** X25.  The boundary of the sampling branch is as tall above the alpha
    axis as below it: when it is not empty, [boundary_metrics] succeeds on
    it, the largest and the smallest beta cancel, and D_v is twice the
    largest beta. *)
Theorem sampled_boundary_vertical_extent
  (argsort : list R -> list nat) (a inc_deg : R) (n : Z) :
  argsort_spec argsort ->
  1.0e-12 <= Rabs a < 1 ->
  _FACEON_TOL <= Rabs (sin (np.deg2rad inc_deg)) ->
  (100 <= n)%Z ->
  exists alpha beta,
    shadow_boundary argsort a inc_deg n = Ok (alpha, beta) /\
    (alpha <> [] ->
     exists d_h d_v r_eq,
       boundary_metrics alpha beta =
         Ok {| D_h := Fin d_h; D_v := Fin d_v; R_eq := Fin r_eq |} /\
       nanmax beta + nanmin beta = 0 /\
       d_v = 2 * nanmax beta /\ 0 <= d_v).
Proof.
  intros Hsort Ha Hi Hn.
  destruct (shadow_boundary_general_points argsort a inc_deg n Hsort Ha Hi Hn)
    as (alpha & beta & E & Hlen & Hperm).
  exists alpha, beta. split; [exact E|]. intros Hne.
  assert (Hb : beta <> []).
  { intros Eb. rewrite Eb in Hlen. apply Hne.
    destruct alpha; [reflexivity|discriminate]. }
  destruct (accepted_points_shape a inc_deg
              (map (candidate_radius a n) (seq 0 (Z.to_nat (n / 2)))))
    as (_ & _ & Hmir).
  destruct (mirrored_extent alpha beta Hb Hlen) as [Hsum Hpos].
  { intros x y Hin.
    apply (Permutation_in _ (Permutation_sym Hperm)).
    apply (Hmir (x, y)). apply (Permutation_in _ Hperm). exact Hin. }
  rewrite (boundary_metrics_nonempty alpha beta Hne Hb Hlen).
  do 3 eexists. split; [reflexivity|]. split; [exact Hsum|].
  split; lra.
Qed.

Lemma sampled_boundary_vertical_extent_witness :
  exists alpha beta,
    shadow_boundary insertion_argsort (1 / 2) 90 100 = Ok (alpha, beta) /\
    (alpha <> [] ->
     exists d_h d_v r_eq,
       boundary_metrics alpha beta =
         Ok {| D_h := Fin d_h; D_v := Fin d_v; R_eq := Fin r_eq |} /\
       nanmax beta + nanmin beta = 0 /\
       d_v = 2 * nanmax beta /\ 0 <= d_v).
Proof.
  apply (sampled_boundary_vertical_extent insertion_argsort (1 / 2) 90 100).
  - exact insertion_argsort_sorts.
  - exact half_spin_valid.
  - exact edge_on_not_face_on.
  - lia.
Defined.

End SampledRadii.

(** ** The ISCO radius along an ascending grid of spins *)

Section IscoTrend.

Lemma isco_radius_trend (x y : R) :
  0 <= x -> x < y -> y < 1 ->
  isco_radius true y < isco_radius true x /\
  isco_radius false x < isco_radius false y.
Proof.
  intros H0 Hxy H1.
  destruct (Req_dec x 0) as [->|Hx].
  - rewrite !isco_radius_schwarzschild.
    assert (Hy : Rabs y < 1) by (rewrite Rabs_pos_eq; lra).
    destruct (isco_radius_range y Hy) as (_ & _ & Hs).
    apply Hs. lra.
  - split.
    + apply isco_radius_prograde_decreasing; lra.
    + apply isco_radius_retrograde_increasing; lra.
Qed.

(** X26.  Along [np.linspace a_min a_max num] with 0 <= a_min < a_max < 1
    and num >= 2 (the test suite takes 0, 0.99 and 200), the array [r_isco]
    returns falls strictly from each entry to the next for prograde orbits
    and rises strictly for retrograde ones, the step from spin 0
    included. *)
Theorem r_isco_grid_monotonic (a_min a_max : R) (num : Z) :
  0 <= a_min -> a_min < a_max -> a_max < 1 -> (2 <= num)%Z ->
  exists grid pro retro,
    np.linspace a_min a_max num true = Ok grid /\
    r_isco (np.mk [length grid] grid) true = Ok pro /\
    r_isco (np.mk [length grid] grid) false = Ok retro /\
    length (np.data pro) = Z.to_nat num /\
    length (np.data retro) = Z.to_nat num /\
    forall k, (S k < Z.to_nat num)%nat ->
      nth (S k) (np.data pro) 0 < nth k (np.data pro) 0 /\
      nth k (np.data retro) 0 < nth (S k) (np.data retro) 0.
Proof.
  intros H0 Hlt H1 Hn.
  destruct (linspace_ok a_min a_max num true) as (step & E & _ & Hstep);
    [lia|].
  specialize (Hstep eq_refl ltac:(lia)).
  set (m := Z.to_nat num) in *.
  set (g := fun k : nat => INR k * step + a_min) in *.
  assert (Hm : IZR num - 1 = INR (m - 1)).
  { unfold m. rewrite minus_INR by lia.
    rewrite INR_IZR_INZ, Z2Nat.id by lia. reflexivity. }
  assert (Hm1 : 1 <= INR (m - 1)).
  { replace 1 with (INR 1) by reflexivity. apply le_INR. unfold m. lia. }
  assert (Hpos : 0 < step).
  { rewrite Hstep, Hm. apply Rdiv_lt_0_compat; lra. }
  assert (Hlast : INR (m - 1) * step = a_max - a_min).
  { rewrite Hstep, Hm. field. lra. }
  assert (Hrange : forall k, (k < m)%nat -> 0 <= g k <= a_max).
  { intros k Hk. unfold g.
    assert (0 <= INR k <= INR (m - 1))
      by (split; [apply pos_INR|apply le_INR; lia]).
    assert (INR k * step <= INR (m - 1) * step)
      by (apply Rmult_le_compat_r; lra).
    assert (0 <= INR k * step) by (apply Rmult_le_pos; lra).
    lra. }
  assert (Hvalid : Forall (fun v => Rabs v < 1) (map g (seq 0 m))).
  { apply Forall_forall. intros v Hv. apply in_map_iff in Hv.
    destruct Hv as (k & <- & Hk). apply in_seq in Hk.
    destruct (Hrange k ltac:(lia)). rewrite Rabs_pos_eq; lra. }
  assert (Hwf : np.wf (np.mk [length (map g (seq 0 m))] (map g (seq 0 m)))).
  { unfold np.wf, np.size. cbn [np.data np.shape fold_right]. lia. }
  exists (map g (seq 0 m)). do 2 eexists.
  split; [exact E|].
  split; [apply r_isco_array; assumption|].
  split; [apply r_isco_array; assumption|].
  unfold np.map1. cbn [np.data]. rewrite !map_map, !length_map, length_seq.
  split; [reflexivity|]. split; [reflexivity|].
  intros k Hk. rewrite !nth_map_seq by lia.
  assert (Hstepk : g k < g (S k)) by (unfold g; rewrite S_INR; lra).
  destruct (Hrange k ltac:(lia)) as [Hk0 _].
  destruct (Hrange (S k) Hk) as [_ Hk1].
  apply isco_radius_trend; lra.
Qed.

Lemma r_isco_grid_monotonic_witness :
  exists grid pro retro,
    np.linspace 0 0.99 200 true = Ok grid /\
    r_isco (np.mk [length grid] grid) true = Ok pro /\
    r_isco (np.mk [length grid] grid) false = Ok retro /\
    length (np.data pro) = Z.to_nat 200 /\
    length (np.data retro) = Z.to_nat 200 /\
    forall k, (S k < Z.to_nat 200)%nat ->
      nth (S k) (np.data pro) 0 < nth k (np.data pro) 0 /\
      nth k (np.data retro) 0 < nth (S k) (np.data retro) 0.
Proof. apply (r_isco_grid_monotonic 0 0.99 200); lra || lia. Defined.

End IscoTrend.
